(** * DermSight retrieval pipeline: chunker, index builder, hybrid retriever,
      reranker and orchestrator

    A shallow embedding of the Python sources under [BACKEND/core]
    ([chunk_texts.py], [create_local_embeddings.py], [hybrid_retrieval.py],
    [query_engine.py]) together with the properties of the specification
    that concern them.

    Conventions.
    - Python [int] is [Z]; counts that can only be non-negative list sizes
      ([top_k], [keep_n]) are [nat].
    - Python [str] is [string]; a character stands for the code point of the
      same number (code points below 256).
    - Python [dict] is insertion ordered and that order is observable
      ([list(d.values())], dict comprehensions), so a dict is an association
      list whose keys are pairwise distinct by construction ([PyDict]).
    - External models and services (sentence tokenizer, embedding model,
      SHA-256, FAISS search, Whoosh search, cross-encoder, completion
      providers) are section variables. *)

From Stdlib Require Import ZArith List String Ascii Bool Lia QArith.
From Stdlib Require Import Permutation Sorted.
From Stdlib Require Import DecimalString DecimalNat.
Import ListNotations.
Open Scope string_scope.
Open Scope list_scope.
Open Scope Z_scope.

(* ================================================================== *)
(** * Python strings *)
(* ================================================================== *)

Module PyStr.

(** [str.isspace] on one character: U+0009..U+000D, U+001C..U+0020,
    U+0085 and U+00A0 are the white-space code points below 256. *)
Definition is_space (c : ascii) : bool :=
  let n := N_of_ascii c in
  ((9 <=? n) && (n <=? 13) || (28 <=? n) && (n <=? 32) || (n =? 133) || (n =? 160))%N.

Definition is_empty (s : string) : bool :=
  match s with EmptyString => true | String _ _ => false end.

(** [s.split()] with the word under construction [w] carried along. *)
Fixpoint split_from (w s : string) : list string :=
  match s with
  | EmptyString => if is_empty w then [] else [w]
  | String c s' =>
      if is_space c
      then (if is_empty w then split_from "" s' else w :: split_from "" s')
      else split_from (w ++ String c "") s'
  end.

(** [s.split()]: the maximal runs of non-space characters. *)
Definition split (s : string) : list string := split_from "" s.

(** [sep.join(l)] *)
Fixpoint join (sep : string) (l : list string) : string :=
  match l with
  | [] => ""
  | [x] => x
  | x :: l' => (x ++ sep ++ join sep l')%string
  end.

(** [s.lstrip()], [s.rstrip()] and [s.strip()] *)
Fixpoint lstrip (s : string) : string :=
  match s with
  | EmptyString => ""
  | String c s' => if is_space c then lstrip s' else s
  end.

Fixpoint rstrip (s : string) : string :=
  match s with
  | EmptyString => ""
  | String c s' =>
      let r := rstrip s' in
      if is_empty r && is_space c then "" else String c r
  end.

Definition strip (s : string) : string := rstrip (lstrip s).

(** Python truthiness of an optional string ([c.get(key)], [os.getenv]):
    missing and empty are both false. *)
Definition truthy (o : option string) : option string :=
  match o with
  | Some s => if is_empty s then None else Some s
  | None => None
  end.

End PyStr.

(* ================================================================== *)
(** * Python dicts (insertion ordered) *)
(* ================================================================== *)

Module PyDict.
Section Dict.
Context {K V : Type}.
Variable eqb : K -> K -> bool.

Definition dict := list (K * V).

(** [d.get(k)] *)
Fixpoint get (d : dict) (k : K) : option V :=
  match d with
  | [] => None
  | (k', v) :: d' => if eqb k' k then Some v else get d' k
  end.

(** [k in d] *)
Definition mem (d : dict) (k : K) : bool :=
  match get d k with Some _ => true | None => false end.

(** [d[k] = v]: an existing key keeps its position, a new key goes last. *)
Fixpoint set (d : dict) (k : K) (v : V) : dict :=
  match d with
  | [] => [(k, v)]
  | (k', v') :: d' => if eqb k' k then (k', v) :: d' else (k', v') :: set d' k v
  end.

Definition keys (d : dict) : list K := map fst d.
Definition values (d : dict) : list V := map snd d.

End Dict.
Arguments dict : clear implicits.
End PyDict.

(* ================================================================== *)
(** * chunk_texts.py *)
(* ================================================================== *)

Module Chunker.
Import PyStr.

Definition MAX_WORDS : Z := 200.
Definition OVERLAP_WORDS : Z := 50.

(** [words_count(s) = len(s.split())] *)
Definition words_count (s : string) : Z := Z.of_nat (List.length (split s)).

(** Word count of a list of sentences, the quantity tracked by [cur_words]
    and [ov_count]. *)
Definition total_words (l : list string) : Z :=
  fold_right (fun s acc => words_count s + acc) 0 l.

(** The largest sentence of a list, in words. *)
Definition max_sentence_words (l : list string) : Z :=
  fold_right (fun s acc => Z.max (words_count s) acc) 0 l.

(** The [while cur_sentences and ov_count < overlap_words] loop.  [stack] is
    [cur_sentences] seen from its end ([pop] takes the last sentence);
    [overlap.insert(0, s)] puts the sentence in front. *)
Fixpoint overlap_loop (overlap_words : Z) (stack overlap : list string)
    (ov_count : Z) : list string * Z :=
  match stack with
  | [] => (overlap, ov_count)
  | s :: stack' =>
      if ov_count <? overlap_words
      then overlap_loop overlap_words stack' (s :: overlap) (ov_count + words_count s)
      else (overlap, ov_count)
  end.

(** The sentences and word count that seed the next chunk after an overflow
    (the [if overlap_words > 0: ... else: ...] block). *)
Definition seed (overlap_words : Z) (cur_sentences : list string)
  : list string * Z :=
  if 0 <? overlap_words
  then overlap_loop overlap_words (rev cur_sentences) [] 0
  else ([], 0).

(** A group of sentences that fits the effective maximum, or else is an
    overlap window followed by a single sentence. *)
Definition fits_or_seeded (effective_max overlap_words : Z)
    (g : list string) : Prop :=
  total_words g <= effective_max \/
  exists prev sent, g = fst (seed overlap_words prev) ++ [sent].

(** Two neighbouring chunks: the later one starts with the window the
    overlap block takes from the earlier one, and goes on. *)
Definition overlap_link (ow : Z) (g g' : list string) : Prop :=
  exists rest, rest <> [] /\ g' = fst (seed ow g) ++ rest.

(** The text of a chunk: body [" ".join(cur_sentences)], with the bracketed
    context tag in front when there is one. *)
Definition render (context_prefix : string) (cur_sentences : list string)
  : string :=
  let content := join " " cur_sentences in
  if is_empty context_prefix then content
  else ("[" ++ context_prefix ++ "] " ++ content)%string.

Section Loop.
Context {A : Type}.
(** What is appended to [chunks] when the running chunk is closed. *)
Variable emit : list string -> A.
Variables effective_max overlap_words : Z.

Definition flush (chunks : list A) (cur_sentences : list string) : list A :=
  match cur_sentences with
  | [] => chunks
  | _ :: _ => chunks ++ [emit cur_sentences]
  end.

(** The [for sent in sentences] loop followed by the final flush. *)
Fixpoint chunk_loop (sentences : list string) (chunks : list A)
    (cur_sentences : list string) (cur_words : Z) : list A :=
  match sentences with
  | [] => flush chunks cur_sentences
  | sent :: rest =>
      let w := words_count sent in
      if cur_words + w <=? effective_max
      then chunk_loop rest chunks (cur_sentences ++ [sent]) (cur_words + w)
      else
        let chunks' := flush chunks cur_sentences in
        let '(overlap, ov_count) := seed overlap_words cur_sentences in
        chunk_loop rest chunks' (overlap ++ [sent]) (ov_count + w)
  end.

End Loop.

Section ChunkText.
(** [nltk.tokenize.sent_tokenize] *)
Variable sent_tokenize : string -> list string.

Definition effective_max_of (max_words : Z) (context_prefix : string) : Z :=
  let context_len := words_count context_prefix in
  Z.max 50 (max_words - context_len).

(** [chunk_text(text, max_words, overlap_words, context_prefix)] *)
Definition chunk_text (text : string) (max_words overlap_words : Z)
    (context_prefix : string) : list string :=
  let sentences := sent_tokenize text in
  let effective_max := effective_max_of max_words context_prefix in
  chunk_loop (render context_prefix) effective_max overlap_words
             sentences [] [] 0.

(** The same run of the loop, keeping each closed chunk as its list of
    sentences instead of its rendered text. *)
Definition chunk_groups (text : string) (max_words overlap_words : Z)
    (context_prefix : string) : list (list string) :=
  chunk_loop (fun cur => cur) (effective_max_of max_words context_prefix)
             overlap_words (sent_tokenize text) [] [] 0.

End ChunkText.

End Chunker.


(** Outcome of a call that may raise. *)
Inductive outcome (A : Type) : Type :=
| Raised : outcome A
| Returned : A -> outcome A.
Arguments Raised {A}.
Arguments Returned {A} _.

(* ================================================================== *)
(** * create_local_embeddings.py *)
(* ================================================================== *)

Module Embeddings.
Import PyStr PyDict.

Definition BATCH_SIZE : nat := 32.

(** One parsed line of the consolidated feed
    [{id, doc_id, text, word_count}]; any key may be missing.  Keys the
    builder never reads ([context_injected]) ride along and are left out. *)
Record FeedRecord : Type := {
  rec_id : option string;
  rec_doc_id : option string;
  rec_text : option string;
  rec_word_count : option Z
}.

(** A record that passed the [if not cid or not text] guard and received
    its ["_sha"] key: the element type of [new_chunks], of [saved_chunks]
    and of the metadata list of the retriever. *)
Record Chunk : Type := {
  c_id : string;
  c_doc_id : option string;
  c_text : string;
  c_word_count : option Z;
  c_sha : string
}.

(** The three ways one iteration of the classification loop ends. *)
Inductive Verdict : Type :=
| Skipped                      (* [not cid or not text]: first [continue] *)
| Unchanged (text_sha : string) (* known id, same hash: second [continue] *)
| NewOrChanged (c : Chunk).     (* appended to [new_chunks] *)

Section Builder.
Variable vec : Type.
(** [hashlib.sha256(s.encode("utf-8")).hexdigest()] *)
Variable sha_of_text : string -> string.
(** [faiss.normalize_L2] on one row. *)
Variable normalize_L2 : vec -> vec.

(** [index.faiss] on disk: absent, unreadable by [faiss.read_index], or an
    [IndexIDMap] holding (id, vector) rows in insertion order. *)
Inductive IndexFile : Type :=
| NoIndex
| CorruptIndex
| StoredIndex (rows : list (Z * vec)).

(** The persisted artifacts.  A missing or undecodable JSON file and an
    empty one load alike in [load_existing_meta], so the three JSON inputs
    are kept by their content. *)
Record State : Type := {
  index_file : IndexFile;                          (* INDEX_FILE *)
  meta_file : list Chunk;                          (* META_FILE *)
  id_map_file : dict string Z;                     (* ID_MAP_FILE *)
  sha_file : dict string string;                   (* SHA_FILE *)
  whoosh_dir : option (list (string * string));    (* WHOOSH_INDEX_DIR *)
  faiss_to_chunkid_file : option (dict Z string);  (* faiss_to_chunkid.json *)
  chunks_dict_file : option (dict string Chunk);   (* chunks_dict.json *)
  pkl_cache : bool                                 (* PKL_CACHE exists *)
}.

(** Body of [for c in all_chunks] (step 5). *)
Definition classify (existing_shas : dict string string) (c : FeedRecord)
  : Verdict :=
  match truthy (rec_id c), truthy (rec_text c) with
  | Some cid, Some text =>
      let text_sha := sha_of_text text in
      let fresh := NewOrChanged {| c_id := cid; c_doc_id := rec_doc_id c;
                                   c_text := text;
                                   c_word_count := rec_word_count c;
                                   c_sha := text_sha |} in
      match get String.eqb existing_shas cid with
      | Some known => if String.eqb known text_sha then Unchanged text_sha
                      else fresh
      | None => fresh
      end
  | _, _ => Skipped
  end.

Fixpoint select_new_chunks (existing_shas : dict string string)
    (all_chunks : list FeedRecord) : list Chunk :=
  match all_chunks with
  | [] => []
  | c :: rest =>
      match classify existing_shas c with
      | NewOrChanged c' => c' :: select_new_chunks existing_shas rest
      | _ => select_new_chunks existing_shas rest
      end
  end.

(** The texts on which [sha_of_text] is called by the loop. *)
Fixpoint fingerprinted (existing_shas : dict string string)
    (all_chunks : list FeedRecord) : list string :=
  match all_chunks with
  | [] => []
  | c :: rest =>
      match classify existing_shas c with
      | Skipped => fingerprinted existing_shas rest
      | Unchanged _ => match rec_text c with
                       | Some t => t :: fingerprinted existing_shas rest
                       | None => fingerprinted existing_shas rest
                       end
      | NewOrChanged c' => c_text c' :: fingerprinted existing_shas rest
      end
  end.

(** [max(int(v) for v in id_to_index.values()) + 1], or 1 for an empty map. *)
Definition next_faiss_id (id_to_index : dict string Z) : Z :=
  match values id_to_index with
  | [] => 1
  | v :: vs => fold_left Z.max vs v + 1
  end.

(** [for i in range(0, len(texts), BATCH_SIZE)]: encode slice after slice. *)
Fixpoint encode_batches (encode : string -> vec) (fuel : nat)
    (texts : list string) : list (list vec) :=
  match fuel with
  | O => []
  | S fuel' =>
      match texts with
      | [] => []
      | _ :: _ => map encode (firstn BATCH_SIZE texts)
                  :: encode_batches encode fuel' (skipn BATCH_SIZE texts)
      end
  end.

(** [np.vstack(emb_list)] followed by the row-wise normalisation. *)
Definition all_embs (encode : string -> vec) (texts_to_embed : list string)
  : list vec :=
  map normalize_L2
      (List.concat (encode_batches encode (List.length texts_to_embed) texts_to_embed)).

(** [np.arange(next_faiss_id, next_faiss_id + n)] *)
Definition arange (start : Z) (n : nat) : list Z :=
  map (fun i => start + Z.of_nat i) (seq 0 n).

(** [for i, chunk in enumerate(new_chunks)]: the three updates per chunk. *)
Definition update_maps
    (acc : dict string Z * dict string string * list Chunk)
    (entry : Chunk * Z) : dict string Z * dict string string * list Chunk :=
  let '(id_to_index, id_to_sha, saved_chunks) := acc in
  let '(chunk, f_id) := entry in
  (set String.eqb id_to_index (c_id chunk) f_id,
   set String.eqb id_to_sha (c_id chunk) (c_sha chunk),
   saved_chunks ++ [chunk]).

(** "Initialize or Load Index": the rows of the index the run works on,
    with [saved_chunks] and [id_to_index] as they stand afterwards.  An
    unreadable file gives a new empty index and resets both. *)
Definition load_or_create (s : State)
  : list (Z * vec) * list Chunk * dict string Z :=
  match index_file s with
  | StoredIndex rows => (rows, meta_file s, id_map_file s)
  | CorruptIndex => ([], [], [])
  | NoIndex => ([], meta_file s, id_map_file s)
  end.

(** Step 6, entered when [new_chunks] is not empty: load or create the
    index, embed, add, update the maps, write the four files. *)
Definition faiss_stage (encode : string -> vec) (s : State)
    (new_chunks : list Chunk)
  : IndexFile * list Chunk * dict string Z * dict string string :=
  let '(rows, saved_chunks, id_to_index) := load_or_create s in
  let next := next_faiss_id id_to_index in
  let texts_to_embed := map c_text new_chunks in
  let embs := all_embs encode texts_to_embed in
  let ids_array := arange next (List.length new_chunks) in
  let rows' := rows ++ combine ids_array embs in
  let '(id_to_index', id_to_sha', saved_chunks') :=
    fold_left update_maps (combine new_chunks ids_array)
              (id_to_index, sha_file s, saved_chunks) in
  (StoredIndex rows', saved_chunks', id_to_index', id_to_sha').

(** Step 7: documents added to Whoosh, one per saved chunk whose id was
    not in the index when the run started. *)
Definition whoosh_stage (docs : list (string * string))
    (saved_chunks : list Chunk) : list (string * string) :=
  let existing_whoosh_ids := map fst docs in
  docs ++ map (fun c => (c_id c, c_text c))
              (filter (fun c => negb (existsb (String.eqb (c_id c))
                                              existing_whoosh_ids))
                      saved_chunks).

(** [{str(v): k for k, v in id_to_index.items()}] *)
Definition reverse_map (id_to_index : dict string Z) : dict Z string :=
  fold_left (fun acc kv => set Z.eqb acc (snd kv) (fst kv)) id_to_index [].

(** [{c["id"]: c for c in saved_chunks}] *)
Definition chunk_dict (saved_chunks : list Chunk) : dict string Chunk :=
  fold_left (fun acc c => set String.eqb acc (c_id c) c) saved_chunks [].

(** The documents of the Whoosh index the run opens, none when it has to
    create the index. *)
Definition docs_of (s : State) : list (string * string) :=
  match whoosh_dir s with
  | Some d => d
  | None => []
  end.

(** [main()].  [model] is [None] when [SentenceTransformer(MODEL_NAME)]
    raises; [all_chunks] is what [read_all_chunks] returns. *)
Definition main (model : option (string -> vec)) (s : State)
    (all_chunks : list FeedRecord) : State :=
  match model with
  | None => s
  | Some encode =>
      match all_chunks with
      | [] => s
      | _ :: _ =>
          let existing_shas := sha_file s in
          let new_chunks := select_new_chunks existing_shas all_chunks in
          let '(index', saved_chunks, id_to_index, id_to_sha) :=
            match new_chunks with
            | [] => (index_file s, meta_file s, id_map_file s, sha_file s)
            | _ :: _ => faiss_stage encode s new_chunks
            end in
          let docs := docs_of s in
          {| index_file := index';
             meta_file := saved_chunks;
             id_map_file := id_to_index;
             sha_file := id_to_sha;
             whoosh_dir := Some (whoosh_stage docs saved_chunks);
             faiss_to_chunkid_file := Some (reverse_map id_to_index);
             chunks_dict_file := Some (chunk_dict saved_chunks);
             pkl_cache := false |}
      end
  end.

(** The ids of the records that pass the guard, in feed order. *)
Fixpoint valid_ids (all_chunks : list FeedRecord) : list string :=
  match all_chunks with
  | [] => []
  | c :: rest =>
      match truthy (rec_id c), truthy (rec_text c) with
      | Some cid, Some _ => cid :: valid_ids rest
      | _, _ => valid_ids rest
      end
  end.

(** [id_to_sha] after the update loop ran over [new_chunks]. *)
Definition sha_after (d : dict string string) (new_chunks : list Chunk)
  : dict string string :=
  fold_left (fun d c => set String.eqb d (c_id c) (c_sha c)) new_chunks d.

(** [id_to_index] after the update loop assigned [next], [next + 1], ... *)
Fixpoint index_after (d : dict string Z) (new_chunks : list Chunk) (next : Z)
  : dict string Z :=
  match new_chunks with
  | [] => d
  | c :: rest => index_after (set String.eqb d (c_id c) next) rest (next + 1)
  end.

(** The state of a directory in which the builder never ran. *)
Definition empty_state : State :=
  {| index_file := NoIndex; meta_file := []; id_map_file := [];
     sha_file := []; whoosh_dir := None; faiss_to_chunkid_file := None;
     chunks_dict_file := None; pkl_cache := false |}.

End Builder.

Arguments NoIndex {vec}.
Arguments CorruptIndex {vec}.
Arguments StoredIndex {vec} _.
Arguments index_file {vec}.
Arguments meta_file {vec}.
Arguments id_map_file {vec}.
Arguments sha_file {vec}.
Arguments whoosh_dir {vec}.
Arguments faiss_to_chunkid_file {vec}.
Arguments chunks_dict_file {vec}.
Arguments pkl_cache {vec}.
Arguments encode_batches {vec}.
Arguments all_embs {vec}.
Arguments load_or_create {vec}.
Arguments docs_of {vec}.
Arguments faiss_stage {vec}.
Arguments main {vec}.
Arguments empty_state {vec}.

(** A feed line with the four keys present. *)
Definition feed_line (cid text : string) : FeedRecord :=
  {| rec_id := Some cid; rec_doc_id := Some "doc"; rec_text := Some text;
     rec_word_count := Some (Z.of_nat (List.length (split text))) |}.

End Embeddings.

(* ================================================================== *)
(** * hybrid_retrieval.py *)
(* ================================================================== *)

Module Retrieval.
Import PyDict Embeddings.

(** A result record: a copy of a stored chunk with ["source_type"] set
    (vector path), or the [id] and [text] Whoosh stored (keyword path).
    The reranker later adds ["rerank_score"]. *)
Record Hit : Type := {
  h_id : string;
  h_text : string;
  h_doc_id : option string;
  h_word_count : option Z;
  h_sha : option string;
  source_type : option string;
  rerank_score : option Q
}.

(** [hit = metadata[idx].copy(); hit["source_type"] = "vector"] *)
Definition vector_hit (c : Chunk) : Hit :=
  {| h_id := c_id c; h_text := c_text c; h_doc_id := c_doc_id c;
     h_word_count := c_word_count c; h_sha := Some (c_sha c);
     source_type := Some "vector"; rerank_score := None |}.

(** [{"id": ..., "text": ..., "source_type": "keyword", "metadata": {}}] *)
Definition keyword_hit (doc : string * string) : Hit :=
  {| h_id := fst doc; h_text := snd doc; h_doc_id := None;
     h_word_count := None; h_sha := None;
     source_type := Some "keyword"; rerank_score := None |}.

(** [l[i]] for a Python list: negative indices count from the end, anything
    outside raises [IndexError] ([None]). *)
Definition getitem {A : Type} (l : list A) (i : Z) : option A :=
  let n := Z.of_nat (List.length l) in
  if i <? 0
  then (if 0 <=? n + i then nth_error l (Z.to_nat (n + i)) else None)
  else nth_error l (Z.to_nat i).

(** [for idx in I[0]]: the hydration loop of the semantic path. *)
Fixpoint faiss_hits (metadata : list Chunk) (I : list Z)
  : option (list Hit) :=
  match I with
  | [] => Some []
  | idx :: rest =>
      if negb (idx =? -1) && (idx <? Z.of_nat (List.length metadata))
      then match getitem metadata idx with
           | None => None
           | Some c => option_map (cons (vector_hit c)) (faiss_hits metadata rest)
           end
      else faiss_hits metadata rest
  end.

(** Step 3: keyword hits first, then the vector hits whose text is new, and
    [list(combined_results.values())[:top_k]]. *)
Definition add_keyword (d : dict string Hit) (hit : Hit) : dict string Hit :=
  set String.eqb d (h_text hit) hit.

Definition add_vector (d : dict string Hit) (hit : Hit) : dict string Hit :=
  if mem String.eqb d (h_text hit) then d
  else set String.eqb d (h_text hit) hit.

(** [combined_results] after the keyword loop. *)
Definition keyword_results (whoosh_hits : list Hit) : dict string Hit :=
  fold_left add_keyword whoosh_hits [].

Definition combine_results (whoosh_hits faiss_hits : list Hit)
  : dict string Hit :=
  fold_left add_vector faiss_hits (keyword_results whoosh_hits).

(** Every entry of [combined_results] sits under the text of its hit, and
    no text is a key twice. *)
Definition keyed_by_text (d : dict string Hit) : Prop :=
  NoDup (keys d) /\ Forall (fun kv => h_text (snd kv) = fst kv) d.

(** The vector hits that fill the gaps: those whose text is neither in
    [seen] nor carried by an earlier vector hit, in their order. *)
Fixpoint fill_ins (seen : list string) (faiss_hits : list Hit) : list Hit :=
  match faiss_hits with
  | [] => []
  | hit :: rest =>
      if existsb (fun k => String.eqb k (h_text hit)) seen
      then fill_ins seen rest
      else hit :: fill_ins (seen ++ [h_text hit]) rest
  end.

Definition fuse (whoosh_hits faiss_hits : list Hit) (top_k : nat)
  : list Hit :=
  firstn top_k (values (combine_results whoosh_hits faiss_hits)).

Section Search.
Variables vec whoosh : Type.
(** The globals set at import time; [None] when the load failed. *)
Variable embedder : option (string -> vec).
Variable faiss_index : option (list (Z * vec)).
Variable metadata : list Chunk.
Variable whoosh_index : option whoosh.
Variable normalize_L2 : vec -> vec.
(** [faiss_index.search(q_emb, k)]: the ids of the neighbours, best first. *)
Variable faiss_search : list (Z * vec) -> vec -> nat -> list Z.
(** Parsing the query and [searcher.search(q, limit)]: stored (id, text)
    pairs, or an exception. *)
Variable whoosh_search : whoosh -> string -> nat -> outcome (list (string * string)).

Definition keyword_path (query : string) (top_k : nat) : list Hit :=
  match whoosh_index with
  | None => []
  | Some ix =>
      match whoosh_search ix query (top_k * 2) with
      | Raised => []
      | Returned results => map keyword_hit results
      end
  end.

(** [hybrid_search(query, top_k)]; [Raised] when the hydration loop raises. *)
Definition hybrid_search (query : string) (top_k : nat)
  : outcome (list Hit) :=
  match embedder, faiss_index with
  | Some encode, Some rows =>
      let q_emb := normalize_L2 (encode query) in
      let safe_k := Nat.min top_k (List.length rows) in
      let I := faiss_search rows q_emb safe_k in
      match faiss_hits metadata I with
      | None => Raised
      | Some vector_hits =>
          Returned (fuse (keyword_path query top_k) vector_hits top_k)
      end
  | _, _ => Returned []
  end.

End Search.
End Retrieval.

(* ================================================================== *)
(** * query_engine.py *)
(* ================================================================== *)

Module QueryEngine.
Import PyStr PyDict Embeddings Retrieval.

Definition TOP_K : nat := 15.
Definition FINAL_CONTEXT : nat := 5.
Definition PROVIDER : string := "groq".

(** The text returned when no API key is configured (the source puts a
    cross-mark emoji in front of it). *)
Definition MISSING_KEY_ERROR : string :=
  "Error: GROQ_API_KEY not found in .env file.".

Definition GREETING_REPLY : string :=
  "Hello. I am the DermSight Clinical Assistant. Please describe your skin concern or upload an image for analysis.".

Definition NO_CONTEXT : string :=
  "No specific medical documents found for this query.".

(** ** Session storage *)

Definition Turn : Type := (string * string)%type.   (* role, content *)
Definition HistoryStore : Type := dict string (list Turn).

(** [h[-limit:]] *)
Definition last_n {A : Type} (limit : nat) (h : list A) : list A :=
  match limit with
  | O => h
  | S _ => skipn (List.length h - limit) h
  end.

Definition add_to_history (store : HistoryStore) (session_id role content : string)
  : HistoryStore :=
  let h := match get String.eqb store session_id with
           | Some h => h
           | None => []
           end in
  let h' := h ++ [(role, content)] in
  let h'' := if (15 <? List.length h')%nat then tl h' else h' in
  set String.eqb store session_id h''.

(** ** Completion providers *)

Section Providers.
(** [os.getenv("GROQ_API_KEY")] *)
Variable GROQ_API_KEY : option string.
(** The HTTP round trip of [query_groq] up to
    [r.json()["choices"][0]["message"]["content"]]; [Raised] on a timeout,
    an HTTP error status or a malformed body. *)
Variable groq_post : string -> outcome string.
(** [subprocess.run(["ollama", "run", ...])] and the decoding of its
    standard output; [Raised] on a missing binary or a timeout. *)
Variable ollama_run : string -> outcome string.

Definition query_groq (prompt : string) : string :=
  match truthy GROQ_API_KEY with
  | None => MISSING_KEY_ERROR
  | Some _ =>
      match groq_post prompt with
      | Returned content => strip content
      | Raised => ""
      end
  end.

Definition query_ollama (prompt : string) : string :=
  match ollama_run prompt with
  | Returned out => strip out
  | Raised => ""
  end.

Definition call_llm (prompt : string) : string :=
  if String.eqb PROVIDER "groq"
  then
    let response := query_groq prompt in
    if is_empty response then query_ollama prompt else response
  else
    let response := query_ollama prompt in
    if is_empty response then query_groq prompt else response.

End Providers.

(** ** Retrieval with fallback *)

(** A record of [chunks_dict], returned as it is by the fallback search. *)
Definition stored_hit (c : Chunk) : Hit :=
  {| h_id := c_id c; h_text := c_text c; h_doc_id := c_doc_id c;
     h_word_count := c_word_count c; h_sha := Some (c_sha c);
     source_type := None; rerank_score := None |}.

(** [for fid in I[0]] of the fallback path: the neighbour id goes through
    [faiss_to_chunkid] and then [chunks_dict]. *)
Fixpoint fallback_hits (faiss_to_chunkid : dict Z string)
    (chunks_dict : dict string Chunk) (I : list Z) : list Hit :=
  match I with
  | [] => []
  | fid :: rest =>
      let tail := fallback_hits faiss_to_chunkid chunks_dict rest in
      if fid =? -1 then tail
      else match get Z.eqb faiss_to_chunkid fid with
           | Some cid =>
               if is_empty cid then tail
               else match get String.eqb chunks_dict cid with
                    | Some c => stored_hit c :: tail
                    | None => tail
                    end
           | None => tail
           end
  end.

Section Retrieve.
Variable hybrid_search : string -> nat -> outcome (list Hit).
(** [fallback_index.search] on the embedded query; [None] when
    [fallback_index] is not loaded. *)
Variable fallback_search : option (string -> nat -> outcome (list Z)).
Variable faiss_to_chunkid : dict Z string.
Variable chunks_dict : dict string Chunk.

Definition retrieve (query : string) (top_k : nat) : list Hit :=
  match hybrid_search query top_k with
  | Returned (r :: results) => r :: results
  | _ =>
      match fallback_search with
      | None => []
      | Some search =>
          match search query top_k with
          | Returned ids => fallback_hits faiss_to_chunkid chunks_dict ids
          | Raised => []
          end
      end
  end.

End Retrieve.

(** ** Reranking *)

Definition set_score (c : Hit) (s : Q) : Hit :=
  {| h_id := h_id c; h_text := h_text c; h_doc_id := h_doc_id c;
     h_word_count := h_word_count c; h_sha := h_sha c;
     source_type := source_type c; rerank_score := Some s |}.

(** The sort key [x["rerank_score"]]; every candidate carries one once the
    scores are attached. *)
Definition score_key (c : Hit) : Q :=
  match rerank_score c with
  | Some s => s
  | None => 0%Q
  end.

(** Descending by score: the earlier element has the larger key. *)
Definition score_ge (a b : Hit) : Prop := (score_key b <= score_key a)%Q.

(** [sorted(candidates, key=..., reverse=True)]: a stable sort, here by
    insertion from the right, an element going in front of the first one
    whose key is not larger. *)
Fixpoint insert_desc (x : Hit) (l : list Hit) : list Hit :=
  match l with
  | [] => [x]
  | y :: l' =>
      if Qle_bool (score_key y) (score_key x) then x :: y :: l'
      else y :: insert_desc x l'
  end.

Definition sorted_desc (l : list Hit) : list Hit :=
  fold_right insert_desc [] l.

Section Rerank.
(** The cross-encoder on one [query, text] pair; [reranker.predict] scores
    the pairs of a batch one by one. *)
Variable score : string -> string -> Q.

Definition predict (pairs : list (string * string)) : list Q :=
  map (fun p => score (fst p) (snd p)) pairs.

(** [for i, s in enumerate(scores): candidates[i]["rerank_score"] = s] *)
Definition attach_scores (candidates : list Hit) (scores : list Q)
  : list Hit :=
  map (fun cs => set_score (fst cs) (snd cs)) (combine candidates scores).

(** [rerank(query, candidates, keep_n)] together with the batches handed to
    [reranker.predict], in call order. *)
Definition rerank_traced (query : string) (candidates : list Hit)
    (keep_n : nat) : list (list (string * string)) * list Hit :=
  match candidates with
  | [] => ([], [])
  | _ :: _ =>
      let pairs := map (fun c => (query, h_text c)) candidates in
      let scores := predict pairs in
      let candidates' := attach_scores candidates scores in
      ([pairs], firstn keep_n (sorted_desc candidates'))
  end.

Definition rerank (query : string) (candidates : list Hit) (keep_n : nat)
  : list Hit :=
  snd (rerank_traced query candidates keep_n).

End Rerank.

(** ** Orchestration *)

Section Orchestrator.
Variable GROQ_API_KEY : option string.
Variable groq_post : string -> outcome string.
Variable ollama_run : string -> outcome string.
Variable retrieve_fn : string -> nat -> list Hit.
Variable score : string -> string -> Q.
(** [str.lower] and [str.upper] *)
Variables lower upper : string -> string.
(** [any(fuzz.partial_ratio(g, q_lower) > 90 for g in greetings)] *)
Variable fuzzy_greeting : string -> bool.
(** Step 3 when a vision analysis is present: clean-up, synonym expansion
    and merge of the analysis with the query. *)
Variable augment : string -> string -> string.
(** The persona block and the prompt template of steps 5 and 6, from the
    history text, the vision analysis, the context text and the query. *)
Variable build_prompt : string -> option string -> string -> string -> string.

Definition get_session_history (store : HistoryStore) (session_id : string)
    (limit : nat) : string :=
  match get String.eqb store session_id with
  | None => ""
  | Some h =>
      join (String (ascii_of_nat 10) "")
           (map (fun m => (upper (fst m) ++ ": " ++ snd m)%string)
                (last_n limit h))
  end.

Definition is_greeting (q_lower : string) : bool :=
  (List.length (split q_lower) <=? 2)%nat && fuzzy_greeting q_lower.

Definition context_of (reranked : list Hit) : string :=
  match reranked with
  | [] => NO_CONTEXT
  | _ :: _ =>
      join (String (ascii_of_nat 10) (String (ascii_of_nat 10) ""))
           (map (fun c => ("[Source: Medical DB]"
                           ++ String (ascii_of_nat 10) (h_text c))%string)
                reranked)
  end.

(** [generate_answer(query, session_id, vision_analysis)]: the returned
    text and the history store after the call. *)
Definition generate_answer (store : HistoryStore) (query session_id : string)
    (vision_analysis : option string) : string * HistoryStore :=
  let q_lower := lower query in
  let history_text := get_session_history store session_id 6 in
  if is_greeting q_lower
  then
    let reply := GREETING_REPLY in
    (reply,
     add_to_history (add_to_history store session_id "user" query)
                    session_id "assistant" reply)
  else
    let search_query :=
      match truthy vision_analysis with
      | Some v => augment v query
      | None => query
      end in
    let retrieved := retrieve_fn search_query TOP_K in
    let reranked := rerank score search_query retrieved FINAL_CONTEXT in
    let context_text := context_of reranked in
    let prompt := build_prompt history_text (truthy vision_analysis)
                               context_text query in
    let answer := call_llm GROQ_API_KEY groq_post ollama_run prompt in
    (answer,
     add_to_history (add_to_history store session_id "user" query)
                    session_id "assistant" answer).

End Orchestrator.
End QueryEngine.

(* ================================================================== *)
(** * Concrete inputs used below *)
(* ================================================================== *)

Module Fixtures.
Import PyStr Chunker Embeddings Retrieval QueryEngine.

(** A stand-in for the sentence tokenizer on plain prose: a sentence ends at
    each full stop, and leading blanks of a sentence are dropped. *)
Fixpoint period_split (cur s : string) : list string :=
  match s with
  | EmptyString => if is_empty cur then [] else [cur]
  | String c s' =>
      if Ascii.eqb c "."
      then (cur ++ ".")%string :: period_split "" s'
      else if is_empty cur && is_space c then period_split "" s'
      else period_split (cur ++ String c "") s'
  end.

Definition period_tokenize (s : string) : list string := period_split "" s.

(** [n] copies of [s] in a row. *)
Fixpoint repeat_text (n : nat) (s : string) : string :=
  match n with
  | O => ""
  | S n' => (s ++ repeat_text n' s)%string
  end.

(** A sentence of [n] words, for [n] at least 2. *)
Definition sentence (n : nat) : string :=
  ("The " ++ repeat_text (n - 2) "skin " ++ "heals.")%string.

(** A document of [k] sentences of [n] words each. *)
Definition document (k n : nat) : string :=
  repeat_text k (sentence n ++ " ").

Definition tag : string := "doc - General".

(** Three sentences of 120 words, and seven of 30 words. *)
Definition doc3 : string := document 3 120.
Definition doc7 : string := document 7 30.

(** The sentences of [doc7], the first six of them and the last three. *)
Definition doc7_sentences : list string := period_tokenize doc7.
Definition doc7_first : list string := firstn 6 doc7_sentences.
Definition doc7_second : list string := skipn 4 doc7_sentences.

(** Stand-ins for SHA-256 and for the embedding model: the text itself is
    its own (collision-free) fingerprint and its own vector. *)
Definition text_sha (t : string) : string := t.
Definition text_vec (t : string) : string := t.

(** The index builder with these stand-ins. *)
Definition build : State string -> list FeedRecord -> State string :=
  main text_sha (fun v => v) (Some text_vec).

Definition rec_a : FeedRecord := feed_line "a" "x".
Definition rec_b : FeedRecord := feed_line "b" "y".
(** [rec_a] after an edit of its text. *)
Definition rec_a' : FeedRecord := feed_line "a" "z".
(** A feed line without text. *)
Definition rec_blank : FeedRecord :=
  {| rec_id := Some "c"; rec_doc_id := Some "doc"; rec_text := Some "";
     rec_word_count := Some 0 |}.

(** What a build of [rec_a] leaves behind, with an index file that can no
    longer be read. *)
Definition corrupt_state : State string :=
  {| index_file := CorruptIndex;
     meta_file := meta_file (build empty_state [rec_a]);
     id_map_file := [("a", 1)];
     sha_file := [("a", text_sha "x")];
     whoosh_dir := Some [("a", "x")];
     faiss_to_chunkid_file := Some [(1, "a")];
     chunks_dict_file := chunks_dict_file (build empty_state [rec_a]);
     pkl_cache := false |}.

(** Three candidates and a relevance model that scores their texts
    0.9, 0.4 and 0.7. *)
Definition cand_p : Hit := keyword_hit ("1", "p").
Definition cand_q : Hit := keyword_hit ("2", "q").
Definition cand_r : Hit := keyword_hit ("3", "r").

Definition table_score (query text : string) : Q :=
  if String.eqb text "p" then (9 # 10)%Q
  else if String.eqb text "q" then (4 # 10)%Q
  else (7 # 10)%Q.

(** Completion providers that are down. *)
Definition provider_down (prompt : string) : outcome string := Raised.

End Fixtures.

(* ================================================================== *)
(** * chunk_texts.py: sections of a document and the feed *)
(* ================================================================== *)

Module ChunkerFiles.
Import PyStr Chunker Embeddings.

(** [str(i)] for the index of [enumerate]. *)
Definition str_of_nat (i : nat) : string :=
  NilEmpty.string_of_uint (Nat.to_uint i).

(** [re.sub] of the pattern [[:\.]+$] by the empty string on a stripped
    heading: the trailing run of colons and full stops goes. *)
Fixpoint drop_trailing_punct (s : string) : string :=
  match s with
  | EmptyString => ""
  | String c s' =>
      let r := drop_trailing_punct s' in
      if is_empty r && (Ascii.eqb c ":" || Ascii.eqb c ".") then ""
      else String c r
  end.

Section Sections.
Variable sent_tokenize : string -> list string.
(** [re.split(pattern, full_text, flags=re.MULTILINE)] with the heading
    pattern: the text before the first heading, and then headings and
    section bodies in turn.  [re.split] never returns an empty list. *)
Variable heading_split : string -> string * list string.

(** One iteration of [for i in range(1, len(splits), 2)]. *)
Definition section_chunks (doc_id heading_raw content_raw : string)
  : list string :=
  let heading := strip heading_raw in
  let content := strip content_raw in
  if is_empty content then []
  else
    let clean_heading := strip (drop_trailing_punct heading) in
    let context := (doc_id ++ " - " ++ clean_heading)%string in
    chunk_text sent_tokenize content MAX_WORDS OVERLAP_WORDS context.

(** The loop over the (heading, content) pairs; a heading without content
    after it gets the empty content. *)
Fixpoint sections_loop (doc_id : string) (rest : list string) : list string :=
  match rest with
  | [] => []
  | [heading] => section_chunks doc_id heading ""
  | heading :: content :: rest' =>
      section_chunks doc_id heading content ++ sections_loop doc_id rest'
  end.

(** [chunk_file_content(full_text, doc_id)] *)
Definition chunk_file_content (full_text doc_id : string) : list string :=
  let '(preamble, rest) := heading_split full_text in
  let general :=
    if is_empty (strip preamble) then []
    else chunk_text sent_tokenize preamble MAX_WORDS OVERLAP_WORDS
                    (doc_id ++ " - General")%string in
  let final_chunks := general ++ sections_loop doc_id rest in
  match final_chunks with
  | [] =>
      if is_empty (strip full_text) then []
      else chunk_text sent_tokenize full_text MAX_WORDS OVERLAP_WORDS doc_id
  | _ :: _ => final_chunks
  end.

(** A JSON file of the text directory: the file name without its
    extension, and the page texts (the [text] of each page, empty when
    the page has none), or the failure to read the file.  A file that is read holds a list of
    page objects with textual [text] fields, as the extraction step
    writes them. *)
Record SourceFile : Type := {
  src_doc_id : string;
  src_pages : outcome (list string)
}.

(** The [meta] record written for chunk [i] of a document. *)
Definition meta_line (doc_id : string) (i : nat) (txt : string) : FeedRecord :=
  {| rec_id := Some (doc_id ++ "_c" ++ str_of_nat i)%string;
     rec_doc_id := Some doc_id;
     rec_text := Some txt;
     rec_word_count := Some (words_count txt) |}.

(** [for i, txt in enumerate(chunks)] *)
Definition file_lines (doc_id : string) (chunks : list string)
  : list FeedRecord :=
  map (fun it => meta_line doc_id (fst it) (snd it))
      (combine (seq 0 (List.length chunks)) chunks).

(** The [doc_id]s of the lines already in the consolidated feed; a line
    without the key is passed over. *)
Fixpoint already_done_ids (feed : list FeedRecord) : list string :=
  match feed with
  | [] => []
  | r :: rest =>
      match rec_doc_id r with
      | Some d => d :: already_done_ids rest
      | None => already_done_ids rest
      end
  end.

(** The lines one file adds to the feed: none when its document is known
    or the file cannot be read. *)
Definition lines_of_file (done : list string) (f : SourceFile)
  : option (list FeedRecord) :=
  if existsb (String.eqb (src_doc_id f)) done then None
  else
    match src_pages f with
    | Raised => None
    | Returned pages =>
        let full_text := join (String (ascii_of_nat 10) "") pages in
        Some (file_lines (src_doc_id f)
                         (chunk_file_content full_text (src_doc_id f)))
    end.

(** [for fname in all_json_files]: the lines appended to the feed and the
    per-document files written, in order. *)
Fixpoint process_files (done : list string) (files : list SourceFile)
  : list FeedRecord * list (string * list FeedRecord) :=
  match files with
  | [] => ([], [])
  | f :: rest =>
      let '(lines, written) := process_files done rest in
      match lines_of_file done f with
      | None => (lines, written)
      | Some own => (own ++ lines, (src_doc_id f, own) :: written)
      end
  end.

(** [process_all()]: the feed after the run and the files written to the
    chunk directory.  [files] is the sorted listing of the text directory. *)
Definition process_all (feed : list FeedRecord) (files : list SourceFile)
  : list FeedRecord * list (string * list FeedRecord) :=
  let already_done := already_done_ids feed in
  let '(lines, written) := process_files already_done files in
  (feed ++ lines, written).

End Sections.
End ChunkerFiles.

(* ================================================================== *)
(** * Notions used to state the properties *)
(* ================================================================== *)

Module Derived.
Import PyStr PyDict Chunker ChunkerFiles Embeddings Retrieval QueryEngine.

(** ** Chunker *)

(** The sentences a chunk adds to those of the chunk before it: the chunk
    without the window it was seeded with. *)
Fixpoint new_sentences (ow : Z) (prev : list string)
    (groups : list (list string)) : list string :=
  match groups with
  | [] => []
  | g :: rest =>
      skipn (List.length (fst (seed ow prev))) g ++ new_sentences ow g rest
  end.

(** The chunks of a text read back without the repeated windows. *)
Definition covered (ow : Z) (groups : list (list string)) : list string :=
  match groups with
  | [] => []
  | g :: rest => g ++ new_sentences ow g rest
  end.

(** The word count of the bracketed tag in front of a chunk. *)
Definition tag_words (context_prefix : string) : Z :=
  if is_empty context_prefix then 0
  else words_count ("[" ++ context_prefix ++ "]")%string.

(** A feed line as [process_all] writes it: the id is the document id
    followed by [_c] and a chunk number. *)
Definition written_line (r : FeedRecord) : Prop :=
  exists d i, rec_id r = Some (d ++ "_c" ++ str_of_nat i)%string /\
              rec_doc_id r = Some d.

(** [s.startswith(p)] *)
Fixpoint starts_with (p s : string) : bool :=
  match p with
  | EmptyString => true
  | String a p' =>
      match s with
      | EmptyString => false
      | String b s' => Ascii.eqb a b && starts_with p' s'
      end
  end.

(** The id [process_all] gives chunk [i] of document [d]. *)
Definition chunk_id_of (d : string) (i : nat) : string :=
  (d ++ "_c" ++ str_of_nat i)%string.

(** A decimal digit. *)
Definition is_digit (c : ascii) : bool :=
  ((48 <=? N_of_ascii c) && (N_of_ascii c <=? 57))%N.

(** The ids of the lines of a feed. *)
Fixpoint feed_ids (feed : list FeedRecord) : list string :=
  match feed with
  | [] => []
  | r :: rest =>
      match rec_id r with
      | Some k => k :: feed_ids rest
      | None => feed_ids rest
      end
  end.

(** ** Index builder *)

Section Builds.
Variable vec : Type.
Variable sha_of_text : string -> string.
Variable normalize_L2 : vec -> vec.
Variable encode : string -> vec.

(** The rows of the vector index on disk. *)
Definition rows_of (s : State vec) : list (Z * vec) :=
  match index_file s with
  | StoredIndex rows => rows
  | _ => []
  end.

(** The states the builder reaches from an empty directory, run after run
    on any feeds, with one embedding model. *)
Inductive built : State vec -> Prop :=
| built_empty : built empty_state
| built_run (s : State vec) (all_chunks : list FeedRecord) :
    built s ->
    built (main sha_of_text normalize_L2 (Some encode) s all_chunks).

(** The vector the model gives a stored record. *)
Definition emb (c : Chunk) : vec := normalize_L2 (encode (c_text c)).

(** What holds of the persisted artifacts between runs. *)
Record consistent (s : State vec) : Prop := {
  (* the index file is absent or readable *)
  cons_index : index_file s <> CorruptIndex;
  (* row [i] has key [i + 1] and the vector of passage [i] *)
  cons_rows :
    rows_of s = combine (arange 1 (List.length (meta_file s)))
                        (map emb (meta_file s));
  (* the two maps keyed by chunk id have the same ids, in the same order *)
  cons_keys : keys (id_map_file s) = keys (sha_file s);
  (* no two ids share a surrogate key *)
  cons_nodup : NoDup (values (id_map_file s));
  (* the next key is one more than the number of passages *)
  cons_next :
    next_faiss_id (id_map_file s)
    = Z.of_nat (List.length (meta_file s)) + 1;
  (* the key of an id points at a passage of that id, whose fingerprint is
     the one stored for the id *)
  cons_key :
    forall k v,
      get String.eqb (id_map_file s) k = Some v ->
      1 <= v /\
      exists c, nth_error (meta_file s) (Z.to_nat (v - 1)) = Some c /\
                c_id c = k /\
                get String.eqb (sha_file s) k = Some (c_sha c);
  (* no passage of an id lies behind the one its key points at *)
  cons_last :
    forall i c,
      nth_error (meta_file s) i = Some c ->
      exists v, get String.eqb (id_map_file s) (c_id c) = Some v /\
                Z.of_nat i + 1 <= v;
  (* stored records passed the guard and carry the hash of their text *)
  cons_valid :
    Forall (fun c => is_empty (c_id c) = false /\
                     is_empty (c_text c) = false /\
                     c_sha c = sha_of_text (c_text c))
           (meta_file s);
  (* the derived files, once written, agree with their sources *)
  cons_reverse :
    forall rm, faiss_to_chunkid_file s = Some rm ->
               rm = reverse_map (id_map_file s);
  cons_dict :
    forall cd, chunks_dict_file s = Some cd -> cd = chunk_dict (meta_file s)
}.

End Builds.

(** The last record of a passage list that carries the id [k]. *)
Definition latest (k : string) (saved_chunks : list Chunk) : option Chunk :=
  find (fun c => String.eqb (c_id c) k) (rev saved_chunks).

(** ** Query engine *)

(** The turns stored for a session, none for an unknown session. *)
Definition history_of (store : HistoryStore) (session_id : string)
  : list Turn :=
  match get String.eqb store session_id with
  | Some h => h
  | None => []
  end.

(** A call of [add_to_history]: session, role and content. *)
Definition Call : Type := (string * (string * string))%type.

(** The store after a sequence of [add_to_history] calls on the empty
    store of a starting process. *)
Definition replay (calls : list Call) : HistoryStore :=
  fold_left (fun store c => add_to_history store (fst c) (fst (snd c))
                                           (snd (snd c)))
            calls [].

(** The turns a sequence of calls addresses to one session. *)
Definition turns_for (session_id : string) (calls : list Call) : list Turn :=
  map snd (filter (fun c => String.eqb (fst c) session_id) calls).

(** What a provider contributes to [call_llm]: its stripped text, or the
    empty string when the call raised. *)
Definition provider_text (o : outcome string) : string :=
  match o with
  | Returned s => strip s
  | Raised => ""
  end.

End Derived.

(* ================================================================== *)
(** * Properties of the chunker *)
(* ================================================================== *)

Section ChunkerFacts.
Import PyStr Chunker.

Lemma split_from_blank (a w b : string) :
  split_from w (a ++ String " " b) = split_from w a ++ split b.
Proof.
  revert w. induction a as [|c a IH]; intro w; cbn [String.append split_from].
  - change (is_space " ") with true. cbv iota.
    destruct (is_empty w); reflexivity.
  - destruct (is_space c).
    + destruct (is_empty w); rewrite IH; reflexivity.
    + apply IH.
Qed.

Lemma words_count_blank (a b : string) :
  words_count (a ++ String " " b) = words_count a + words_count b.
Proof.
  unfold words_count, split. rewrite split_from_blank. unfold split.
  rewrite length_app. lia.
Qed.

Lemma words_count_nonneg (s : string) : 0 <= words_count s.
Proof. unfold words_count. lia. Qed.

Lemma total_words_nonneg (l : list string) : 0 <= total_words l.
Proof.
  induction l as [|s l IH]; cbn [total_words fold_right]; [lia|].
  fold (total_words l). pose proof (words_count_nonneg s). lia.
Qed.

Lemma total_words_cons (s : string) (l : list string) :
  total_words (s :: l) = words_count s + total_words l.
Proof. reflexivity. Qed.

Lemma total_words_app (a b : list string) :
  total_words (a ++ b) = total_words a + total_words b.
Proof.
  induction a as [|s a IH]; [reflexivity|].
  rewrite <- app_comm_cons, !total_words_cons, IH. lia.
Qed.

(** The body of a chunk has as many words as its sentences together. *)
Lemma words_count_join (l : list string) :
  words_count (join " " l) = total_words l.
Proof.
  induction l as [|x l IH]; [reflexivity|].
  destruct l as [|y l].
  - cbn [join]. rewrite total_words_cons. cbn [total_words fold_right]. lia.
  - change (join " " (x :: y :: l)) with (x ++ String " " (join " " (y :: l)))%string.
    rewrite words_count_blank, IH, (total_words_cons x). reflexivity.
Qed.

Lemma max_sentence_words_bound (l : list string) :
  Forall (fun s => words_count s <= max_sentence_words l) l.
Proof.
  induction l as [|s l IH]; constructor.
  - change (max_sentence_words (s :: l))
      with (Z.max (words_count s) (max_sentence_words l)). lia.
  - eapply Forall_impl; [|exact IH]. intros a Ha. cbv beta in *.
    change (max_sentence_words (s :: l))
      with (Z.max (words_count s) (max_sentence_words l)). lia.
Qed.

(** What the overlap loop returns: it pops a prefix of the stack, stops
    with sentences left only when the count has reached [overlap_words],
    and the window without its first sentence is short of it. *)
Lemma overlap_loop_spec (ow : Z) :
  forall stack overlap c ov c',
    overlap_loop ow stack overlap c = (ov, c') ->
    c = total_words overlap ->
    (forall x t, overlap = x :: t -> total_words t < ow) ->
    exists popped remaining,
      stack = popped ++ remaining /\ ov = rev popped ++ overlap /\
      c' = total_words ov /\ (remaining <> [] -> ow <= c') /\
      (forall x t, ov = x :: t -> total_words t < ow).
Proof.
  induction stack as [|s st IH]; intros overlap c ov c' Hrun Hc Hmin;
    cbn [overlap_loop] in Hrun.
  - injection Hrun as <- <-. exists [], []. repeat split; auto. congruence.
  - destruct (c <? ow) eqn:Hlt.
    + apply Z.ltb_lt in Hlt.
      apply IH in Hrun.
      * destruct Hrun as (popped & remaining & -> & -> & Hc' & Hstop & Hmin').
        exists (s :: popped), remaining. repeat split; auto.
        cbn [rev]. rewrite <- app_assoc. reflexivity.
      * rewrite total_words_cons. lia.
      * intros x t [= <- <-]. lia.
    + apply Z.ltb_ge in Hlt. injection Hrun as <- <-.
      exists [], (s :: st). repeat split; auto.
Qed.

Lemma seed_spec (ow : Z) (cur ov : list string) (c : Z) :
  seed ow cur = (ov, c) ->
  exists pre,
    cur = pre ++ ov /\ c = total_words ov /\ (pre <> [] -> ow <= c) /\
    (forall x t, ov = x :: t -> total_words t < ow).
Proof.
  unfold seed. destruct (0 <? ow) eqn:Hpos; intro Hrun.
  - apply overlap_loop_spec in Hrun; [|reflexivity|discriminate].
    destruct Hrun as (popped & remaining & Hstack & -> & Hc & Hstop & Hmin).
    exists (rev remaining). rewrite app_nil_r in *. repeat split; auto.
    + rewrite <- rev_app_distr, <- Hstack, rev_involutive. reflexivity.
    + intros Hne. apply Hstop. intros ->. apply Hne. reflexivity.
  - apply Z.ltb_ge in Hpos. injection Hrun as <- <-.
    exists cur. rewrite app_nil_r. repeat split; auto. discriminate.
Qed.

(** Closed chunks only accumulate in front of what the loop still emits. *)
Lemma chunk_loop_acc {A : Type} (emit : list string -> A) (E ow : Z) :
  forall sentences chunks cur cw,
    chunk_loop emit E ow sentences chunks cur cw
    = chunks ++ chunk_loop emit E ow sentences [] cur cw.
Proof.
  induction sentences as [|sent rest IH]; intros chunks cur cw;
    cbn [chunk_loop].
  - destruct cur; cbn [flush]; [rewrite app_nil_r|]; reflexivity.
  - destruct (cw + words_count sent <=? E); [apply IH|].
    destruct (seed ow cur) as [ov c].
    rewrite IH, (IH (flush emit [] cur)).
    destruct cur; cbn [flush]; [reflexivity|].
    rewrite app_assoc. reflexivity.
Qed.

(** The rendered chunks are the rendering of the sentence groups. *)
Lemma chunk_loop_map {A : Type} (emit : list string -> A) (E ow : Z) :
  forall sentences groups cur cw,
    chunk_loop emit E ow sentences (map emit groups) cur cw
    = map emit (chunk_loop (fun g => g) E ow sentences groups cur cw).
Proof.
  induction sentences as [|sent rest IH]; intros groups cur cw;
    cbn [chunk_loop].
  - destruct cur; cbn [flush]; [reflexivity|].
    rewrite map_app. reflexivity.
  - destruct (cw + words_count sent <=? E); [apply IH|].
    destruct (seed ow cur) as [ov c].
    destruct cur; cbn [flush]; [apply IH|].
    rewrite <- IH, map_app. reflexivity.
Qed.

Lemma chunk_text_groups (tok : string -> list string) (text : string)
    (max_words overlap_words : Z) (context_prefix : string) :
  chunk_text tok text max_words overlap_words context_prefix
  = map (render context_prefix)
        (chunk_groups tok text max_words overlap_words context_prefix).
Proof. unfold chunk_text, chunk_groups. apply (chunk_loop_map _ _ _ _ []). Qed.

End ChunkerFacts.

Section ChunkerBounds.
Import PyStr Chunker.

Lemma seed_count_bound (ow M : Z) (cur ov : list string) (c : Z) :
  Forall (fun s => words_count s <= M) cur ->
  seed ow cur = (ov, c) ->
  Forall (fun s => words_count s <= M) ov /\ c <= Z.max 0 (ow - 1 + M).
Proof.
  intros HM Hrun. apply seed_spec in Hrun.
  destruct Hrun as (pre & -> & -> & _ & Hmin).
  apply Forall_app in HM. destruct HM as [_ HM]. split; [exact HM|].
  destruct ov as [|x t]; [cbn; lia|].
  specialize (Hmin x t eq_refl). inversion HM; subst.
  rewrite total_words_cons. lia.
Qed.

Lemma chunk_loop_bound (E ow M : Z) :
  let bound := Z.max E (M + Z.max 0 (ow - 1 + M)) in
  forall sentences chunks cur cw,
    Forall (fun s => words_count s <= M) sentences ->
    Forall (fun s => words_count s <= M) cur ->
    cw = total_words cur -> cw <= bound ->
    Forall (fun g => total_words g <= bound) chunks ->
    Forall (fun g => total_words g <= bound)
           (chunk_loop (fun g => g) E ow sentences chunks cur cw).
Proof.
  intro bound.
  induction sentences as [|sent rest IH]; intros chunks cur cw Hs Hcur Hcw Hle Hch;
    cbn [chunk_loop].
  - destruct cur; cbn [flush]; [exact Hch|].
    apply Forall_app. split; [exact Hch|]. constructor; [lia|constructor].
  - inversion Hs as [|? ? Hsent Hrest]; subst.
    destruct (total_words cur + words_count sent <=? E) eqn:Hfit.
    + apply Z.leb_le in Hfit. apply IH; auto.
      * apply Forall_app. split; [exact Hcur|]. constructor; [exact Hsent|constructor].
      * rewrite total_words_app, total_words_cons. cbn. lia.
      * unfold bound. lia.
    + destruct (seed ow cur) as [ov c] eqn:Hseed.
      pose proof (seed_count_bound _ _ _ _ _ Hcur Hseed) as [Hov Hc].
      pose proof (seed_spec _ _ _ _ Hseed) as (pre & _ & Hc' & _).
      apply IH; auto.
      * apply Forall_app. split; [exact Hov|]. constructor; [exact Hsent|constructor].
      * rewrite total_words_app, total_words_cons. cbn. lia.
      * unfold bound. lia.
      * destruct cur; cbn [flush]; [exact Hch|].
        apply Forall_app. split; [exact Hch|]. constructor; [lia|constructor].
Qed.

Lemma chunk_loop_chain (E ow : Z) :
  forall sentences cur cw,
    Sorted (overlap_link ow)
           (chunk_loop (fun g => g) E ow sentences [] cur cw) /\
    (cur <> [] ->
     exists more tl,
       chunk_loop (fun g => g) E ow sentences [] cur cw = (cur ++ more) :: tl).
Proof.
  induction sentences as [|sent rest IH]; intros cur cw; cbn [chunk_loop].
  - destruct cur as [|x cur]; cbn [flush app].
    + split; [constructor|congruence].
    + split; [repeat constructor|].
      intros _. exists [], []. rewrite app_nil_r. reflexivity.
  - destruct (cw + words_count sent <=? E).
    + destruct (IH (cur ++ [sent]) (cw + words_count sent)) as [Hs Hhd].
      split; [exact Hs|]. intros _.
      destruct Hhd as (more & tl & ->); [now destruct cur|].
      exists ([sent] ++ more), tl. rewrite app_assoc. reflexivity.
    + destruct (seed ow cur) as [ov c] eqn:Hseed.
      destruct (IH (ov ++ [sent]) (c + words_count sent)) as [Hs Hhd].
      destruct Hhd as (more & tl & Heq); [now destruct ov|].
      rewrite chunk_loop_acc, Heq.
      destruct cur as [|x cur]; cbn [flush app].
      * rewrite <- Heq. split; [exact Hs|congruence].
      * split.
        -- constructor; [rewrite <- Heq; exact Hs|].
           constructor. exists ([sent] ++ more). split; [discriminate|].
           rewrite Hseed. cbn [fst]. rewrite app_assoc. reflexivity.
        -- intros _. exists [], (((ov ++ [sent]) ++ more) :: tl).
           rewrite app_nil_r. reflexivity.
Qed.

Lemma chunk_loop_shape (E ow : Z) :
  forall sentences chunks cur cw,
    cw = total_words cur ->
    fits_or_seeded E ow cur ->
    Forall (fits_or_seeded E ow) chunks ->
    Forall (fits_or_seeded E ow)
           (chunk_loop (fun g => g) E ow sentences chunks cur cw).
Proof.
  induction sentences as [|sent rest IH]; intros chunks cur cw Hcw Hcur Hch;
    cbn [chunk_loop].
  - destruct cur; cbn [flush]; [exact Hch|].
    apply Forall_app. split; [exact Hch|]. constructor; [exact Hcur|constructor].
  - destruct (cw + words_count sent <=? E) eqn:Hfit.
    + apply Z.leb_le in Hfit. apply IH; auto.
      * rewrite total_words_app, total_words_cons. cbn. lia.
      * left. rewrite total_words_app, total_words_cons. cbn. lia.
    + destruct (seed ow cur) as [ov c] eqn:Hseed.
      pose proof (seed_spec _ _ _ _ Hseed) as (pre & _ & Hc & _).
      apply IH.
      * rewrite total_words_app, total_words_cons. cbn. lia.
      * right. exists cur, sent. rewrite Hseed. reflexivity.
      * destruct cur; cbn [flush]; [exact Hch|].
        apply Forall_app. split; [exact Hch|].
        constructor; [exact Hcur|constructor].
Qed.

Lemma Sorted_neighbours {A : Type} (R : A -> A -> Prop) (l : list A) :
  Sorted R l ->
  forall i a b, nth_error l i = Some a -> nth_error l (S i) = Some b -> R a b.
Proof.
  induction 1 as [|x l Hs IH Hhd]; intros i a b Ha Hb.
  - destruct i; discriminate.
  - destruct i as [|i].
    + cbn in Ha, Hb. injection Ha as <-.
      destruct l as [|y l]; [discriminate|]. injection Hb as <-.
      inversion Hhd; assumption.
    + cbn in Ha. exact (IH i a b Ha Hb).
Qed.

End ChunkerBounds.

Section ChunkerClaims.
Import PyStr Chunker Fixtures.

(** C7 (as amended).  Every chunk [chunk_text] emits is the rendering of a
    group of sentences.  The test against the effective maximum
    [E = max 50 (max_words - tag words)] guards each sentence appended to a
    running chunk, so a body has more than [E] words only when it is an
    overlap window followed by the single sentence that did not fit; in
    every case a body has at most [max E (M + max 0 (overlap_words - 1 + M))]
    words, [M] being the word count of the longest sentence. *)
Theorem chunk_body_word_bound :
  forall (sent_tokenize : string -> list string) (text : string)
         (max_words overlap_words : Z) (context_prefix : string),
    let E := effective_max_of max_words context_prefix in
    let M := max_sentence_words (sent_tokenize text) in
    let groups :=
      chunk_groups sent_tokenize text max_words overlap_words context_prefix in
    chunk_text sent_tokenize text max_words overlap_words context_prefix
    = map (render context_prefix) groups /\
    Forall (fun body =>
              words_count (join " " body) <= E \/
              exists prev sent,
                body = fst (seed overlap_words prev) ++ [sent])
           groups /\
    Forall (fun body =>
              words_count (join " " body)
              <= Z.max E (M + Z.max 0 (overlap_words - 1 + M)))
           groups.
Proof.
  intros tok text max_words ow prefix E M groups. split; [|split].
  - apply chunk_text_groups.
  - eapply Forall_impl;
      [intros body Hb; rewrite words_count_join; exact Hb|].
    apply (chunk_loop_shape E ow); [reflexivity| |constructor].
    left. cbn. unfold E, effective_max_of. lia.
  - eapply Forall_impl;
      [intros body Hb; rewrite words_count_join; exact Hb|].
    unfold groups, chunk_groups. fold E.
    apply (chunk_loop_bound E ow M); auto.
    + apply max_sentence_words_bound.
    + cbn. pose proof (total_words_nonneg (tok text)).
      assert (0 <= M).
      { unfold M. destruct (tok text); cbn; [lia|].
        pose proof (words_count_nonneg s). lia. }
      unfold E, effective_max_of. lia.
Qed.

(** C7, as stated, fails: with the default sizes and three sentences of 120
    words, the second and third chunk bodies have 240 words against an
    effective maximum of 197. *)
Lemma chunk_body_exceeds_effective_max :
  effective_max_of MAX_WORDS tag = 197 /\
  map (fun body => words_count (join " " body))
      (chunk_groups period_tokenize doc3 MAX_WORDS OVERLAP_WORDS tag)
  = [120; 240; 240].
Proof. split; vm_compute; reflexivity. Qed.

(** C8 (as amended).  For two consecutive chunks of one [chunk_text] run,
    the later chunk starts with a trailing window [ov] of the sentences of
    the earlier one and continues with at least one more sentence.  The
    window is the shortest trailing window whose word count reaches
    [overlap_words]: it stops short of the whole chunk only once the count
    is at least [overlap_words], and without its first sentence it has
    fewer than [overlap_words] words.  (For [overlap_words <= 0] it is
    empty.) *)
Theorem overlap_window_reaches_size :
  forall (sent_tokenize : string -> list string) (text : string)
         (max_words overlap_words : Z) (context_prefix : string)
         (i : nat) (g g' : list string),
    let groups :=
      chunk_groups sent_tokenize text max_words overlap_words context_prefix in
    nth_error groups i = Some g ->
    nth_error groups (S i) = Some g' ->
    exists pre ov rest,
      g = pre ++ ov /\ g' = ov ++ rest /\ rest <> [] /\
      (pre <> [] -> overlap_words <= total_words ov) /\
      (forall x t, ov = x :: t -> total_words t < overlap_words).
Proof.
  intros tok text max_words ow prefix i g g' groups Hg Hg'.
  destruct (chunk_loop_chain (effective_max_of max_words prefix) ow
                             (tok text) [] 0) as [Hchain _].
  destruct (Sorted_neighbours _ _ Hchain i g g' Hg Hg') as (rest & Hrest & ->).
  destruct (seed ow g) as [ov c] eqn:Hseed. cbn [fst].
  destruct (seed_spec _ _ _ _ Hseed) as (pre & -> & -> & Hstop & Hmin).
  exists pre, ov, rest. repeat split; auto.
Qed.

Lemma overlap_window_reaches_size_witness :
  exists pre ov rest,
    doc7_first = pre ++ ov /\ doc7_second = ov ++ rest /\ rest <> [] /\
    (pre <> [] -> OVERLAP_WORDS <= total_words ov) /\
    (forall x t, ov = x :: t -> total_words t < OVERLAP_WORDS).
Proof.
  apply (overlap_window_reaches_size period_tokenize doc7 MAX_WORDS
           OVERLAP_WORDS tag 0%nat doc7_first doc7_second);
    vm_compute; reflexivity.
Defined.

(** C8, as stated, fails: with the default sizes and seven sentences of 30
    words, the second chunk is seeded with the last two sentences of the
    first, 60 words against an overlap size of 50; the window that stays
    within 50 words is the last sentence alone. *)
Lemma overlap_exceeds_configured_size :
  chunk_groups period_tokenize doc7 MAX_WORDS OVERLAP_WORDS tag
  = [doc7_first; doc7_second] /\
  fst (seed OVERLAP_WORDS doc7_first) = firstn 2 doc7_second /\
  total_words (fst (seed OVERLAP_WORDS doc7_first)) = 60 /\
  OVERLAP_WORDS = 50.
Proof. repeat split; vm_compute; reflexivity. Qed.

End ChunkerClaims.

(* ================================================================== *)
(** * Properties of the index builder *)
(* ================================================================== *)

Section DictFacts.
Import PyDict.
Context {K V : Type}.
Variable eqb : K -> K -> bool.
Hypothesis eqb_spec : forall a b, eqb a b = true <-> a = b.

Lemma eqb_same (a : K) : eqb a a = true.
Proof. apply eqb_spec. reflexivity. Qed.

Lemma eqb_diff (a b : K) : a <> b -> eqb a b = false.
Proof.
  intro Hne. destruct (eqb a b) eqn:E; [|reflexivity].
  apply eqb_spec in E. contradiction.
Qed.

Lemma get_set_same (d : dict K V) (k : K) (v : V) :
  get eqb (set eqb d k v) k = Some v.
Proof.
  induction d as [|[k' v'] d IH]; cbn [set get].
  - rewrite eqb_same. reflexivity.
  - destruct (eqb k' k) eqn:E; cbn [get]; rewrite E; [reflexivity|exact IH].
Qed.

Lemma get_set_other (d : dict K V) (k k' : K) (v : V) :
  k <> k' -> get eqb (set eqb d k v) k' = get eqb d k'.
Proof.
  intro Hne. induction d as [|[k0 v0] d IH]; cbn [set get].
  - rewrite eqb_diff by exact Hne. reflexivity.
  - destruct (eqb k0 k) eqn:E; cbn [get].
    + apply eqb_spec in E. subst k0.
      rewrite eqb_diff by exact Hne. reflexivity.
    + destruct (eqb k0 k'); [reflexivity|exact IH].
Qed.

Lemma mem_keys (d : dict K V) (k : K) :
  mem eqb d k = existsb (fun k' => eqb k' k) (keys d).
Proof.
  unfold mem. induction d as [|[k' v'] d IH]; [reflexivity|].
  cbn [get keys map fst existsb]. destruct (eqb k' k); [reflexivity|exact IH].
Qed.

Lemma mem_in (d : dict K V) (k : K) : mem eqb d k = true <-> In k (keys d).
Proof.
  rewrite mem_keys, existsb_exists. split.
  - intros (k' & Hin & E). apply eqb_spec in E. subst. exact Hin.
  - intro Hin. exists k. split; [exact Hin|apply eqb_same].
Qed.

Lemma set_new (d : dict K V) (k : K) (v : V) :
  mem eqb d k = false -> set eqb d k v = d ++ [(k, v)].
Proof.
  unfold mem. induction d as [|[k' v'] d IH]; [reflexivity|].
  cbn [get set app]. destruct (eqb k' k); [discriminate|].
  intro H. rewrite IH by exact H. reflexivity.
Qed.

Lemma set_old_keys (d : dict K V) (k : K) (v : V) :
  mem eqb d k = true -> keys (set eqb d k v) = keys d.
Proof.
  unfold mem. induction d as [|[k' v'] d IH]; [discriminate|].
  cbn [get set]. destruct (eqb k' k); [reflexivity|].
  intro H. cbn [keys map fst]. f_equal. apply IH. exact H.
Qed.

Lemma set_entries (d : dict K V) (k : K) (v : V) (P : K * V -> Prop) :
  Forall P d -> P (k, v) -> (forall k', eqb k' k = true -> P (k', v)) ->
  Forall P (set eqb d k v).
Proof.
  intros Hd Hkv Hrepl. induction Hd as [|[k' v'] d Hx Hd IH]; cbn [set].
  - constructor; [exact Hkv|constructor].
  - destruct (eqb k' k) eqn:E.
    + constructor; [apply (Hrepl k'); exact E|exact Hd].
    + constructor; [exact Hx|exact IH].
Qed.

End DictFacts.

Section BuilderFacts.
Import PyStr PyDict Embeddings.
Variable vec : Type.
Variable sha_of_text : string -> string.
Variable normalize_L2 : vec -> vec.

Local Abbreviation sget := (get String.eqb).
Local Abbreviation sset := (set String.eqb).

Lemma arange_cons (start : Z) (n : nat) :
  arange start (S n) = start :: arange (start + 1) n.
Proof.
  unfold arange. cbn [seq map]. f_equal; [lia|].
  rewrite <- seq_shift, map_map. apply map_ext. intro i. lia.
Qed.

Lemma update_maps_fold (new_chunks : list Chunk) :
  forall next id_to_index id_to_sha saved_chunks,
    fold_left update_maps
              (combine new_chunks (arange next (List.length new_chunks)))
              (id_to_index, id_to_sha, saved_chunks)
    = (index_after id_to_index new_chunks next,
       sha_after id_to_sha new_chunks,
       saved_chunks ++ new_chunks).
Proof.
  induction new_chunks as [|c rest IH]; intros next d1 d2 saved.
  - cbn. rewrite app_nil_r. reflexivity.
  - cbn [List.length]. rewrite arange_cons. cbn [combine fold_left update_maps].
    rewrite IH, <- app_assoc. reflexivity.
Qed.

(** The batches put together are the texts encoded one by one. *)
Lemma encode_batches_concat (encode : string -> vec) :
  forall fuel texts,
    (List.length texts <= fuel)%nat ->
    List.concat (encode_batches encode fuel texts) = map encode texts.
Proof.
  induction fuel as [|fuel IH]; intros texts Hlen.
  - destruct texts; [reflexivity|cbn in Hlen; lia].
  - destruct texts as [|t texts]; [reflexivity|].
    cbn [encode_batches List.concat]. rewrite IH.
    + rewrite <- map_app, firstn_skipn. reflexivity.
    + unfold BATCH_SIZE. rewrite length_skipn. cbn [List.length] in *. lia.
Qed.

Lemma all_embs_map (encode : string -> vec) (texts : list string) :
  all_embs normalize_L2 encode texts
  = map (fun t => normalize_L2 (encode t)) texts.
Proof.
  unfold all_embs. rewrite encode_batches_concat by lia.
  apply map_map.
Qed.

Lemma sha_after_other (new_chunks : list Chunk) :
  forall d k,
    ~ In k (map c_id new_chunks) ->
    sget (sha_after d new_chunks) k = sget d k.
Proof.
  induction new_chunks as [|c rest IH]; intros d k Hk; [reflexivity|].
  cbn [sha_after fold_left]. fold (sha_after (sset d (c_id c) (c_sha c)) rest).
  rewrite IH.
  - apply get_set_other; [exact String.eqb_eq|].
    intros Heq. apply Hk. left. exact Heq.
  - intro Hin. apply Hk. right. exact Hin.
Qed.

Lemma sha_after_last (new_chunks : list Chunk) :
  forall d c,
    In c new_chunks -> NoDup (map c_id new_chunks) ->
    sget (sha_after d new_chunks) (c_id c) = Some (c_sha c).
Proof.
  induction new_chunks as [|c0 rest IH]; intros d c Hin Hnd; [contradiction|].
  cbn [map] in Hnd. inversion Hnd as [|? ? Hfresh Hnd']; subst.
  cbn [sha_after fold_left]. fold (sha_after (sset d (c_id c0) (c_sha c0)) rest).
  destruct Hin as [->|Hin].
  - rewrite sha_after_other by exact Hfresh.
    apply get_set_same. exact String.eqb_eq.
  - apply IH; assumption.
Qed.


Lemma index_after_other (new_chunks : list Chunk) :
  forall d next k,
    ~ In k (map c_id new_chunks) ->
    sget (index_after d new_chunks next) k = sget d k.
Proof.
  induction new_chunks as [|c rest IH]; intros d next k Hk; [reflexivity|].
  cbn [index_after]. rewrite IH.
  - apply get_set_other; [exact String.eqb_eq|].
    intros Heq. apply Hk. left. exact Heq.
  - intro Hin. apply Hk. right. exact Hin.
Qed.

(** Keys are handed out in the order of [new_chunks], starting at [next]. *)
Lemma index_after_nth (new_chunks : list Chunk) :
  forall d next i c,
    NoDup (map c_id new_chunks) -> nth_error new_chunks i = Some c ->
    sget (index_after d new_chunks next) (c_id c) = Some (next + Z.of_nat i).
Proof.
  induction new_chunks as [|c0 rest IH]; intros d next i c Hnd Hi;
    [destruct i; discriminate|].
  cbn [map] in Hnd. inversion Hnd as [|? ? Hfresh Hnd']; subst.
  cbn [index_after]. destruct i as [|i]; cbn [nth_error] in Hi.
  - injection Hi as <-. rewrite index_after_other by exact Hfresh.
    rewrite get_set_same by exact String.eqb_eq. f_equal. lia.
  - rewrite (IH _ _ i c Hnd' Hi). f_equal. lia.
Qed.

Lemma faiss_stage_eq (encode : string -> vec) (s : State vec)
    (new_chunks : list Chunk) :
  faiss_stage normalize_L2 encode s new_chunks
  = let '(rows, saved_chunks, id_to_index) := load_or_create s in
    let next := next_faiss_id id_to_index in
    (StoredIndex
       (rows ++ combine (arange next (List.length new_chunks))
                        (map (fun c => normalize_L2 (encode (c_text c)))
                             new_chunks)),
     saved_chunks ++ new_chunks,
     index_after id_to_index new_chunks next,
     sha_after (sha_file s) new_chunks).
Proof.
  unfold faiss_stage. destruct (load_or_create s) as [[rows saved] idx].
  rewrite update_maps_fold, all_embs_map, map_map. reflexivity.
Qed.

(** ** Classification *)

Lemma classify_skipped (d : dict string string) (c : FeedRecord) :
  truthy (rec_id c) = None \/ truthy (rec_text c) = None ->
  classify sha_of_text d c = Skipped.
Proof.
  unfold classify. intros [-> | ->]; [reflexivity|].
  destruct (truthy (rec_id c)); reflexivity.
Qed.

Lemma classify_valid (d : dict string string) (c : FeedRecord)
    (cid text : string) :
  truthy (rec_id c) = Some cid -> truthy (rec_text c) = Some text ->
  (sget d cid = Some (sha_of_text text) /\
   classify sha_of_text d c = Unchanged (sha_of_text text)) \/
  (sget d cid <> Some (sha_of_text text) /\
   classify sha_of_text d c
   = NewOrChanged {| c_id := cid; c_doc_id := rec_doc_id c; c_text := text;
                     c_word_count := rec_word_count c;
                     c_sha := sha_of_text text |}).
Proof.
  intros Hid Htext. unfold classify. rewrite Hid, Htext.
  destruct (sget d cid) as [known|] eqn:Hget.
  - destruct (String.eqb known (sha_of_text text)) eqn:E.
    + apply String.eqb_eq in E. subst known. left. auto.
    + apply String.eqb_neq in E. right. split; [congruence|reflexivity].
  - right. split; [discriminate|reflexivity].
Qed.

Lemma select_ids_valid (d : dict string string) (all_chunks : list FeedRecord)
    (k : string) :
  In k (map c_id (select_new_chunks sha_of_text d all_chunks)) ->
  In k (valid_ids all_chunks).
Proof.
  induction all_chunks as [|c rest IH]; cbn [select_new_chunks valid_ids];
    [auto|].
  unfold classify.
  destruct (truthy (rec_id c)) as [cid|]; [|exact IH].
  destruct (truthy (rec_text c)) as [text|]; [|exact IH].
  destruct (sget d cid) as [known|].
  - destruct (String.eqb known (sha_of_text text)).
    + intro H. right. auto.
    + cbn [map c_id In]. intros [H|H]; [left; exact H|right; auto].
  - cbn [map c_id In]. intros [H|H]; [left; exact H|right; auto].
Qed.

Lemma valid_id_in (all_chunks : list FeedRecord) (c : FeedRecord)
    (cid text : string) :
  In c all_chunks ->
  truthy (rec_id c) = Some cid -> truthy (rec_text c) = Some text ->
  In cid (valid_ids all_chunks).
Proof.
  induction all_chunks as [|r rest IH]; [contradiction|].
  intros [->|Hin] Hid Htext; cbn [valid_ids].
  - rewrite Hid, Htext. left. reflexivity.
  - destruct (truthy (rec_id r)); [|auto].
    destruct (truthy (rec_text r)); [right|]; auto.
Qed.

Lemma select_nodup (d : dict string string) (all_chunks : list FeedRecord) :
  NoDup (valid_ids all_chunks) ->
  NoDup (map c_id (select_new_chunks sha_of_text d all_chunks)).
Proof.
  induction all_chunks as [|c rest IH]; cbn [select_new_chunks valid_ids];
    [constructor|].
  intro Hnd.
  destruct (truthy (rec_id c)) as [cid|] eqn:Hid;
    [|rewrite classify_skipped by auto; auto].
  destruct (truthy (rec_text c)) as [text|] eqn:Htext;
    [|rewrite classify_skipped by auto; auto].
  inversion Hnd as [|? ? Hfresh Hnd']; subst.
  destruct (classify_valid d c cid text Hid Htext) as [[_ ->]|[_ ->]]; [auto|].
  cbn [map c_id]. constructor; [|auto].
  intro Hin. apply Hfresh. eapply select_ids_valid. exact Hin.
Qed.

Lemma select_in (d : dict string string) (all_chunks : list FeedRecord)
    (c : FeedRecord) (c' : Chunk) :
  In c all_chunks -> classify sha_of_text d c = NewOrChanged c' ->
  In c' (select_new_chunks sha_of_text d all_chunks).
Proof.
  induction all_chunks as [|r rest IH]; [contradiction|].
  intros [->|Hin] Hc; cbn [select_new_chunks].
  - rewrite Hc. left. reflexivity.
  - destruct (classify sha_of_text d r); auto. right. auto.
Qed.

(** With distinct ids, a record classified unchanged has no namesake among
    the new chunks. *)
Lemma unchanged_id_not_new (d : dict string string)
    (all_chunks : list FeedRecord) (c : FeedRecord) (cid text h : string) :
  NoDup (valid_ids all_chunks) -> In c all_chunks ->
  truthy (rec_id c) = Some cid -> truthy (rec_text c) = Some text ->
  classify sha_of_text d c = Unchanged h ->
  ~ In cid (map c_id (select_new_chunks sha_of_text d all_chunks)).
Proof.
  induction all_chunks as [|r rest IH]; [contradiction|].
  intros Hnd Hin Hid Htext Hc.
  destruct Hin as [->|Hin].
  - cbn [select_new_chunks valid_ids] in *. rewrite Hc.
    rewrite Hid, Htext in Hnd. inversion Hnd as [|? ? Hfresh _]; subst.
    intro H. apply Hfresh. eapply select_ids_valid. exact H.
  - pose proof (valid_id_in rest c cid text Hin Hid Htext) as Hcid.
    cbn [select_new_chunks valid_ids] in *.
    destruct (truthy (rec_id r)) as [rid|] eqn:Hrid;
      [|rewrite classify_skipped by auto; auto].
    destruct (truthy (rec_text r)) as [rtext|] eqn:Hrtext;
      [|rewrite classify_skipped by auto; auto].
    inversion Hnd as [|? ? Hfresh Hnd']; subst.
    destruct (classify_valid d r rid rtext Hrid Hrtext) as [[_ ->]|[_ ->]];
      [auto|].
    cbn [map c_id In]. intros [Heq|H].
    + subst rid. contradiction.
    + exact (IH Hnd' Hin Hid Htext Hc H).
Qed.

(** After the update loop every record of the feed that passes the guard
    has its own fingerprint stored under its id. *)
Lemma fingerprints_stored (d : dict string string)
    (all_chunks : list FeedRecord) (c : FeedRecord) (cid text : string) :
  NoDup (valid_ids all_chunks) -> In c all_chunks ->
  truthy (rec_id c) = Some cid -> truthy (rec_text c) = Some text ->
  sget (sha_after d (select_new_chunks sha_of_text d all_chunks)) cid
  = Some (sha_of_text text).
Proof.
  intros Hnd Hin Hid Htext.
  destruct (classify_valid d c cid text Hid Htext) as [[Hget Hc]|[_ Hc]].
  - rewrite sha_after_other; [exact Hget|].
    eapply unchanged_id_not_new; eauto.
  - pose proof (select_in d all_chunks c _ Hin Hc) as Hnew.
    apply (sha_after_last _ d _ Hnew (select_nodup d all_chunks Hnd)).
Qed.

Lemma select_none (d : dict string string) (all_chunks : list FeedRecord) :
  (forall c cid text,
      In c all_chunks ->
      truthy (rec_id c) = Some cid -> truthy (rec_text c) = Some text ->
      sget d cid = Some (sha_of_text text)) ->
  select_new_chunks sha_of_text d all_chunks = [].
Proof.
  induction all_chunks as [|c rest IH]; intro H; [reflexivity|].
  cbn [select_new_chunks].
  destruct (truthy (rec_id c)) as [cid|] eqn:Hid;
    [|rewrite classify_skipped by auto; apply IH; intros; eapply H; eauto;
      right; assumption].
  destruct (truthy (rec_text c)) as [text|] eqn:Htext;
    [|rewrite classify_skipped by auto; apply IH; intros; eapply H; eauto;
      right; assumption].
  destruct (classify_valid d c cid text Hid Htext) as [[_ ->]|[Hne _]].
  - apply IH. intros. eapply H; eauto. right. assumption.
  - exfalso. apply Hne. eapply H; eauto. left. reflexivity.
Qed.

End BuilderFacts.

Section BuilderRuns.
Import PyStr PyDict Embeddings.
Variable vec : Type.
Variable sha_of_text : string -> string.
Variable normalize_L2 : vec -> vec.
Variable encode : string -> vec.

Local Abbreviation run := (main sha_of_text normalize_L2 (Some encode)).
Local Abbreviation select := (select_new_chunks sha_of_text).

Lemma filter_none {A : Type} (f : A -> bool) (l : list A) :
  (forall x, In x l -> f x = false) -> filter f l = [].
Proof.
  induction l as [|x l IH]; intro H; [reflexivity|].
  cbn [filter]. rewrite (H x) by (left; reflexivity).
  apply IH. intros y Hy. apply H. right. exact Hy.
Qed.

Lemma select_app (d : dict string string) (l1 l2 : list FeedRecord) :
  select d (l1 ++ l2) = select d l1 ++ select d l2.
Proof.
  induction l1 as [|c l1 IH]; [reflexivity|].
  cbn [app select_new_chunks].
  destruct (classify sha_of_text d c); rewrite IH; reflexivity.
Qed.

Lemma fingerprinted_app (d : dict string string) (l1 l2 : list FeedRecord) :
  fingerprinted sha_of_text d (l1 ++ l2)
  = fingerprinted sha_of_text d l1 ++ fingerprinted sha_of_text d l2.
Proof.
  induction l1 as [|c l1 IH]; [reflexivity|].
  cbn [app fingerprinted].
  destruct (classify sha_of_text d c); [|destruct (rec_text c)|];
    rewrite IH; reflexivity.
Qed.

(** A run with nothing to embed: the vector index, the passage list and
    the two id-keyed maps stay, the lexical index catches up. *)
Lemma main_no_new (s : State vec) (all_chunks : list FeedRecord) :
  all_chunks <> [] -> select (sha_file s) all_chunks = [] ->
  run s all_chunks
  = {| index_file := index_file s; meta_file := meta_file s;
       id_map_file := id_map_file s; sha_file := sha_file s;
       whoosh_dir := Some (whoosh_stage (docs_of s) (meta_file s));
       faiss_to_chunkid_file := Some (reverse_map (id_map_file s));
       chunks_dict_file := Some (chunk_dict (meta_file s));
       pkl_cache := false |}.
Proof.
  intros Hne Hsel. destruct all_chunks as [|c rest]; [congruence|].
  unfold main. rewrite Hsel. reflexivity.
Qed.

(** A run that embeds [new_chunks]. *)
Lemma main_new (s : State vec) (all_chunks : list FeedRecord) :
  select (sha_file s) all_chunks <> [] ->
  run s all_chunks
  = let new_chunks := select (sha_file s) all_chunks in
    let '(rows, saved_chunks, id_to_index) := load_or_create s in
    let next := next_faiss_id id_to_index in
    let saved_chunks' := saved_chunks ++ new_chunks in
    let id_to_index' := index_after id_to_index new_chunks next in
    {| index_file :=
         StoredIndex
           (rows ++ combine (arange next (List.length new_chunks))
                            (map (fun c => normalize_L2 (encode (c_text c)))
                                 new_chunks));
       meta_file := saved_chunks';
       id_map_file := id_to_index';
       sha_file := sha_after (sha_file s) new_chunks;
       whoosh_dir := Some (whoosh_stage (docs_of s) saved_chunks');
       faiss_to_chunkid_file := Some (reverse_map id_to_index');
       chunks_dict_file := Some (chunk_dict saved_chunks');
       pkl_cache := false |}.
Proof.
  intros Hsel. destruct all_chunks as [|c rest]; [cbn in Hsel; congruence|].
  unfold main.
  destruct (select (sha_file s) (c :: rest)) as [|n new] eqn:Hnew;
    [congruence|].
  rewrite faiss_stage_eq.
  destruct (load_or_create s) as [[rows saved] idx]. reflexivity.
Qed.

(** What every completed run leaves in the derived files, and the
    fingerprints it stores. *)
Lemma main_shape (s : State vec) (all_chunks : list FeedRecord) :
  all_chunks <> [] ->
  let s1 := run s all_chunks in
  sha_file s1 = sha_after (sha_file s) (select (sha_file s) all_chunks) /\
  whoosh_dir s1 = Some (whoosh_stage (docs_of s) (meta_file s1)) /\
  faiss_to_chunkid_file s1 = Some (reverse_map (id_map_file s1)) /\
  chunks_dict_file s1 = Some (chunk_dict (meta_file s1)) /\
  pkl_cache s1 = false.
Proof.
  intros Hne s1. subst s1.
  destruct (select (sha_file s) all_chunks) as [|n new] eqn:Hnew.
  - rewrite main_no_new by assumption. cbn. repeat split; reflexivity.
  - rewrite main_new by congruence. rewrite Hnew.
    destruct (load_or_create s) as [[rows saved] idx].
    cbn. repeat split; reflexivity.
Qed.

Lemma whoosh_stage_again (docs : list (string * string))
    (saved_chunks : list Chunk) :
  whoosh_stage (whoosh_stage docs saved_chunks) saved_chunks
  = whoosh_stage docs saved_chunks.
Proof.
  unfold whoosh_stage at 1.
  replace (filter _ saved_chunks) with (@nil Chunk);
    [cbn; apply app_nil_r|].
  symmetry. apply filter_none. intros c Hc. apply negb_false_iff.
  apply existsb_exists. unfold whoosh_stage. rewrite map_app, map_map.
  cbn [fst].
  destruct (existsb (String.eqb (c_id c)) (map fst docs)) eqn:E.
  - apply existsb_exists in E. destruct E as (k & Hk & Hkc).
    exists k. split; [apply in_or_app; left; exact Hk|exact Hkc].
  - exists (c_id c). split; [|apply String.eqb_refl].
    apply in_or_app. right. apply in_map_iff. exists c. split; [reflexivity|].
    apply filter_In. split; [exact Hc|]. rewrite E. reflexivity.
Qed.

End BuilderRuns.

Section BuilderClaims.
Import PyStr PyDict Embeddings Fixtures.

(** C4 (as amended).  On a feed whose chunk ids are pairwise distinct (the
    data model's uniqueness of [chunk_id]), a completed run stores the
    fingerprint of every passage under its id; a second run on the same
    feed therefore finds nothing new or changed, embeds no text and leaves
    every persisted artifact (vector index, passage list, the three id
    maps, lexical index) as the first run wrote it. *)
Theorem rebuild_is_idempotent :
  forall (vec : Type) (sha_of_text : string -> string)
         (normalize_L2 : vec -> vec) (encode : string -> vec)
         (s : State vec) (all_chunks : list FeedRecord)
         (c : FeedRecord) (cid text : string),
    NoDup (valid_ids all_chunks) ->
    let run := main sha_of_text normalize_L2 (Some encode) in
    let s1 := run s all_chunks in
    (In c all_chunks ->
     truthy (rec_id c) = Some cid -> truthy (rec_text c) = Some text ->
     get String.eqb (sha_file s1) cid = Some (sha_of_text text)) /\
    select_new_chunks sha_of_text (sha_file s1) all_chunks = [] /\
    map c_text (select_new_chunks sha_of_text (sha_file s1) all_chunks) = [] /\
    run s1 all_chunks = s1.
Proof.
  intros vec sha norm encode s all_chunks c0 cid0 text0 Hnd run s1.
  assert (Hcases : all_chunks = [] \/ all_chunks <> [])
    by (destruct all_chunks; [left; reflexivity|right; discriminate]).
  destruct Hcases as [->|Hne].
  - cbn. repeat split; auto. intros [].
  - destruct (main_shape vec sha norm encode s all_chunks Hne)
      as (Hsha & Hwh & Hrev & Hdict & Hpkl).
    change (main sha norm (Some encode) s all_chunks) with s1 in *.
    assert (Hstored : forall c cid text,
               In c all_chunks ->
               truthy (rec_id c) = Some cid -> truthy (rec_text c) = Some text ->
               get String.eqb (sha_file s1) cid = Some (sha text)).
    { intros c cid text Hin Hid Htext. rewrite Hsha.
      eapply fingerprints_stored; eauto. }
    assert (Hsel : select_new_chunks sha (sha_file s1) all_chunks = [])
      by (apply select_none; exact Hstored).
    split; [apply Hstored|]. split; [exact Hsel|].
    split; [rewrite Hsel; reflexivity|].
    unfold run. rewrite main_no_new by assumption.
    unfold docs_of. rewrite Hwh, whoosh_stage_again.
    destruct s1; cbn in *. congruence.
Qed.

Lemma rebuild_is_idempotent_witness :
  let s1 := build empty_state [rec_a; rec_b] in
  (In rec_a [rec_a; rec_b] ->
   truthy (rec_id rec_a) = Some "a" -> truthy (rec_text rec_a) = Some "x" ->
   get String.eqb (sha_file s1) "a" = Some (text_sha "x")) /\
  select_new_chunks text_sha (sha_file s1) [rec_a; rec_b] = [] /\
  map c_text (select_new_chunks text_sha (sha_file s1) [rec_a; rec_b]) = [] /\
  build s1 [rec_a; rec_b] = s1.
Proof.
  apply (rebuild_is_idempotent string text_sha (fun v => v) text_vec
           empty_state [rec_a; rec_b] rec_a "a" "x").
  vm_compute. repeat constructor; cbn; intuition discriminate.
Defined.

(** C4, as stated, fails: a feed need not carry each id once.  When the
    feed holds the id ["a"] with two texts, the first run stores the
    fingerprint of the later record; the second run on the same feed
    compares against that stored fingerprint, takes the earlier record for
    changed, embeds it again and gives it a new key, so the vector index
    and all three id maps differ from what the first run wrote. *)
Lemma repeated_id_is_embedded_again :
  let feed := [rec_a; rec_a'] in
  let s1 := build empty_state feed in
  let s2 := build s1 feed in
  map c_text (select_new_chunks text_sha (sha_file s1) feed) = ["x"] /\
  index_file s1 = StoredIndex [(1, "x"); (2, "z")] /\
  index_file s2 = StoredIndex [(1, "x"); (2, "z"); (3, "x")] /\
  id_map_file s1 = [("a", 2)] /\ id_map_file s2 = [("a", 3)] /\
  sha_file s1 = [("a", "z")] /\ sha_file s2 = [("a", "x")] /\
  faiss_to_chunkid_file s1 = Some [(2, "a")] /\
  faiss_to_chunkid_file s2 = Some [(3, "a")] /\
  s2 <> s1.
Proof.
  cbv zeta. repeat split; try (vm_compute; reflexivity).
  intro H. apply (f_equal (fun s => List.length (meta_file s))) in H.
  vm_compute in H. discriminate.
Qed.

(** C5, as stated, fails: after [rec_a] was indexed and its text edited
    under the same id, the passage list holds the stale and the new record,
    both with id ["a"], and the index keeps the stale vector. *)
Lemma changed_passage_is_duplicated :
  let s1 := build empty_state [rec_a] in
  let s2 := build s1 [rec_a'] in
  map c_id (meta_file s2) = ["a"; "a"] /\
  map c_text (meta_file s2) = ["x"; "z"] /\
  ~ NoDup (map c_id (meta_file s2)) /\
  index_file s2 = StoredIndex [(1, "x"); (2, "z")].
Proof.
  cbv zeta. repeat split; try (vm_compute; reflexivity).
  vm_compute. intro H. inversion H as [|? ? Hfresh _]; subst.
  apply Hfresh. left. reflexivity.
Qed.

(** C5 (as amended).  When the whole feed is indexed and the text of one
    passage then changes under the same chunk id (with a different
    fingerprint), the next run selects exactly that passage, embeds it
    under the next free surrogate key and appends the new record to the
    passage list; the stale record and its vector stay where they were.
    The two maps keyed by chunk id are redirected to the new version, and
    their entries for every other chunk id are untouched. *)
Theorem changed_passage_is_appended :
  forall (vec : Type) (sha_of_text : string -> string)
         (normalize_L2 : vec -> vec) (encode : string -> vec)
         (s : State vec) (rows : list (Z * vec))
         (l1 l2 : list FeedRecord) (c c' : FeedRecord)
         (cid text text' k : string),
    index_file s = StoredIndex rows ->
    select_new_chunks sha_of_text (sha_file s) (l1 ++ c :: l2) = [] ->
    truthy (rec_id c) = Some cid -> truthy (rec_text c) = Some text ->
    rec_id c' = rec_id c -> truthy (rec_text c') = Some text' ->
    sha_of_text text' <> sha_of_text text ->
    let fresh := {| c_id := cid; c_doc_id := rec_doc_id c'; c_text := text';
                    c_word_count := rec_word_count c';
                    c_sha := sha_of_text text' |} in
    let next := next_faiss_id (id_map_file s) in
    let s' := main sha_of_text normalize_L2 (Some encode) s (l1 ++ c' :: l2) in
    select_new_chunks sha_of_text (sha_file s) (l1 ++ c' :: l2) = [fresh] /\
    index_file s' = StoredIndex (rows ++ [(next, normalize_L2 (encode text'))]) /\
    meta_file s' = meta_file s ++ [fresh] /\
    id_map_file s' = set String.eqb (id_map_file s) cid next /\
    sha_file s' = set String.eqb (sha_file s) cid (sha_of_text text') /\
    (k <> cid ->
     get String.eqb (id_map_file s') k = get String.eqb (id_map_file s) k /\
     get String.eqb (sha_file s') k = get String.eqb (sha_file s) k).
Proof.
  intros vec sha norm encode s rows l1 l2 c c' cid text text' k
         Hidx Hdone Hid Htext Hsame Htext' Hsha fresh next s'.
  rewrite select_app in Hdone. apply app_eq_nil in Hdone.
  destruct Hdone as [Hl1 Hc]. cbn [select_new_chunks] in Hc.
  assert (Hknown : get String.eqb (sha_file s) cid = Some (sha text)).
  { destruct (classify_valid sha (sha_file s) c cid text Hid Htext)
      as [[H _]|[_ H]]; [exact H|]. rewrite H in Hc. discriminate. }
  assert (Hl2 : select_new_chunks sha (sha_file s) l2 = []).
  { destruct (classify sha (sha_file s) c); [exact Hc|exact Hc|discriminate]. }
  assert (Hid' : truthy (rec_id c') = Some cid) by (rewrite Hsame; exact Hid).
  assert (Hsel : select_new_chunks sha (sha_file s) (l1 ++ c' :: l2) = [fresh]).
  { rewrite select_app, Hl1. cbn [app select_new_chunks].
    destruct (classify_valid sha (sha_file s) c' cid text' Hid' Htext')
      as [[H _]|[_ ->]]; [congruence|].
    rewrite Hl2. reflexivity. }
  split; [exact Hsel|].
  assert (Hrun : s' = main sha norm (Some encode) s (l1 ++ c' :: l2))
    by reflexivity.
  clearbody s'.
  rewrite main_new in Hrun by (rewrite Hsel; discriminate).
  rewrite Hsel in Hrun. unfold load_or_create in Hrun. rewrite Hidx in Hrun.
  cbn in Hrun. subst s'. cbn.
  fold next. replace (next + 0) with next by lia.
  repeat split; auto.
  - apply get_set_other; [exact String.eqb_eq|congruence].
  - apply get_set_other; [exact String.eqb_eq|congruence].
Qed.

Lemma changed_passage_is_appended_witness :
  let s := build empty_state [rec_a; rec_b] in
  let fresh := {| c_id := "a"; c_doc_id := rec_doc_id rec_a'; c_text := "z";
                  c_word_count := rec_word_count rec_a';
                  c_sha := text_sha "z" |} in
  let next := next_faiss_id (id_map_file s) in
  let s' := build s ([] ++ rec_a' :: [rec_b]) in
  select_new_chunks text_sha (sha_file s) ([] ++ rec_a' :: [rec_b]) = [fresh] /\
  index_file s' = StoredIndex ([(1, "x"); (2, "y")] ++ [(next, "z")]) /\
  meta_file s' = meta_file s ++ [fresh] /\
  id_map_file s' = set String.eqb (id_map_file s) "a" next /\
  sha_file s' = set String.eqb (sha_file s) "a" (text_sha "z") /\
  ("b" <> "a" ->
   get String.eqb (id_map_file s') "b" = get String.eqb (id_map_file s) "b" /\
   get String.eqb (sha_file s') "b" = get String.eqb (sha_file s) "b").
Proof.
  apply (changed_passage_is_appended string text_sha (fun v => v) text_vec
           (build empty_state [rec_a; rec_b]) [(1, "x"); (2, "y")]
           [] [rec_b] rec_a rec_a' "a" "x" "z" "b");
    try (vm_compute; reflexivity).
  vm_compute. discriminate.
Defined.

(** C10.  A feed record whose [id] or [text] is missing or empty ends its
    loop iteration at the guard: it is not fingerprinted and not selected,
    so the texts embedded and the run as a whole are those of the feed
    without it, and a feed made of this record alone changes neither the
    vector index, nor the passage list, nor a map, and adds to the lexical
    index only documents of the passage list.  [main] is a total function:
    no input makes it fail. *)
Theorem invalid_record_is_skipped :
  forall (vec : Type) (sha_of_text : string -> string)
         (normalize_L2 : vec -> vec) (model : option (string -> vec))
         (encode : string -> vec) (s : State vec)
         (existing_shas : dict string string)
         (l1 l2 : list FeedRecord) (c : FeedRecord),
    truthy (rec_id c) = None \/ truthy (rec_text c) = None ->
    classify sha_of_text existing_shas c = Skipped /\
    select_new_chunks sha_of_text existing_shas (l1 ++ c :: l2)
    = select_new_chunks sha_of_text existing_shas (l1 ++ l2) /\
    fingerprinted sha_of_text existing_shas (l1 ++ c :: l2)
    = fingerprinted sha_of_text existing_shas (l1 ++ l2) /\
    (l1 ++ l2 <> [] ->
     main sha_of_text normalize_L2 model s (l1 ++ c :: l2)
     = main sha_of_text normalize_L2 model s (l1 ++ l2)) /\
    (let s' := main sha_of_text normalize_L2 (Some encode) s [c] in
     index_file s' = index_file s /\ meta_file s' = meta_file s /\
     id_map_file s' = id_map_file s /\ sha_file s' = sha_file s /\
     whoosh_dir s' = Some (whoosh_stage (docs_of s) (meta_file s))).
Proof.
  intros vec sha norm model encode s d l1 l2 c Hbad.
  pose proof (classify_skipped sha) as Hskip.
  assert (Hsel : forall d',
             select_new_chunks sha d' (l1 ++ c :: l2)
             = select_new_chunks sha d' (l1 ++ l2)).
  { intro d'. rewrite !select_app. cbn [select_new_chunks].
    rewrite Hskip by exact Hbad. reflexivity. }
  split; [apply Hskip; exact Hbad|]. split; [apply Hsel|]. split; [|split].
  - rewrite !fingerprinted_app. cbn [fingerprinted].
    rewrite Hskip by exact Hbad. reflexivity.
  - intro Hne. destruct model as [enc|]; [|reflexivity].
    unfold main. rewrite Hsel.
    destruct (l1 ++ l2) eqn:E; [congruence|].
    destruct (l1 ++ c :: l2) eqn:E'; [|reflexivity].
    apply app_eq_nil in E'. destruct E' as [_ E']. discriminate.
  - unfold main. cbn [select_new_chunks]. rewrite Hskip by exact Hbad.
    cbn. repeat split; reflexivity.
Qed.

Lemma invalid_record_is_skipped_witness :
  classify text_sha [] rec_blank = Skipped /\
  select_new_chunks text_sha [] ([rec_a] ++ rec_blank :: [rec_b])
  = select_new_chunks text_sha [] ([rec_a] ++ [rec_b]) /\
  fingerprinted text_sha [] ([rec_a] ++ rec_blank :: [rec_b])
  = fingerprinted text_sha [] ([rec_a] ++ [rec_b]) /\
  ([rec_a] ++ [rec_b] <> [] ->
   build empty_state ([rec_a] ++ rec_blank :: [rec_b])
   = build empty_state ([rec_a] ++ [rec_b])) /\
  (let s' := build empty_state [rec_blank] in
   index_file s' = index_file (@empty_state string) /\
   meta_file s' = meta_file (@empty_state string) /\
   id_map_file s' = id_map_file (@empty_state string) /\
   sha_file s' = sha_file (@empty_state string) /\
   whoosh_dir s'
   = Some (whoosh_stage (docs_of (@empty_state string))
                        (meta_file (@empty_state string)))).
Proof.
  apply (invalid_record_is_skipped string text_sha (fun v => v)
           (Some text_vec) text_vec empty_state [] [rec_a] [rec_b] rec_blank).
  right. reflexivity.
Defined.

(** On an unreadable index file a run that has something to embed starts
    over with the new chunks alone, except for the fingerprints: for an id
    [k] that is not among the new chunks the old fingerprint stays, while
    the id has no surrogate key any more. *)
Lemma corrupt_reset_strands_fingerprints
    (vec : Type) (sha_of_text : string -> string) (normalize_L2 : vec -> vec)
    (encode : string -> vec) (s : State vec) (all_chunks : list FeedRecord)
    (k : string) :
  index_file s = CorruptIndex ->
  let new_chunks := select_new_chunks sha_of_text (sha_file s) all_chunks in
  let s' := main sha_of_text normalize_L2 (Some encode) s all_chunks in
  new_chunks <> [] -> ~ In k (map c_id new_chunks) ->
  meta_file s' = new_chunks /\
  get String.eqb (id_map_file s') k = None /\
  get String.eqb (sha_file s') k = get String.eqb (sha_file s) k.
Proof.
  intros Hidx new_chunks s' Hnew Hk. subst s'.
  rewrite main_new by exact Hnew. fold new_chunks.
  unfold load_or_create. rewrite Hidx. cbn.
  repeat split.
  - rewrite index_after_other by exact Hk. reflexivity.
  - apply sha_after_other. exact Hk.
Qed.

(** C2: what the builder does on an unreadable index file.  [rec_a] was
    indexed before the file went bad; the run on the feed [rec_a], [rec_b]
    starts a new index holding [rec_b] alone and resets the passage list
    and the id-to-key map, but the fingerprint map keeps the entry of
    ["a"].  The feed is then reported as fully indexed, so ["a"] is never
    embedded again although the new index has no vector for it. *)
Theorem corrupt_index_keeps_fingerprints :
  let s' := build corrupt_state [rec_a; rec_b] in
  index_file s' = StoredIndex [(1, "y")] /\
  map c_id (meta_file s') = ["b"] /\
  id_map_file s' = [("b", 1)] /\
  sha_file s' = [("a", "x"); ("b", "y")] /\
  get String.eqb (id_map_file s') "a" = None /\
  get String.eqb (sha_file s') "a" = Some (text_sha "x") /\
  select_new_chunks text_sha (sha_file s') [rec_a; rec_b] = [] /\
  build s' [rec_a; rec_b] = s'.
Proof. cbv zeta. repeat split; vm_compute; reflexivity. Qed.

End BuilderClaims.

(* ================================================================== *)
(** * Properties of the hybrid retriever *)
(* ================================================================== *)

Section FusionFacts.
Import PyDict Retrieval.

Local Abbreviation smem := (mem String.eqb).
Local Abbreviation sset := (set String.eqb).

Lemma keys_app {V : Type} (d1 d2 : dict string V) :
  keys (d1 ++ d2) = keys d1 ++ keys d2.
Proof. apply map_app. Qed.

Lemma set_keeps_keyed (d : dict string Hit) (hit : Hit) :
  keyed_by_text d -> keyed_by_text (sset d (h_text hit) hit).
Proof.
  intros [Hnd Hk]. split.
  - destruct (smem d (h_text hit)) eqn:Hmem.
    + rewrite set_old_keys by (exact String.eqb_eq || exact Hmem). exact Hnd.
    + rewrite set_new by exact Hmem. rewrite keys_app.
      apply NoDup_app; [exact Hnd|repeat constructor; intros []|].
      intros a Ha [<-|[]]. cbn [fst] in Ha.
      apply (mem_in String.eqb String.eqb_eq) in Ha. congruence.
  - apply set_entries; [exact Hk|reflexivity|].
    intros k' E. apply String.eqb_eq in E. subst. reflexivity.
Qed.

Lemma keyword_results_keyed (whoosh_hits : list Hit) :
  keyed_by_text (keyword_results whoosh_hits).
Proof.
  unfold keyword_results.
  assert (H : forall d, keyed_by_text d ->
                        keyed_by_text (fold_left add_keyword whoosh_hits d)).
  { induction whoosh_hits as [|hit rest IH]; intros d Hd; [exact Hd|].
    cbn [fold_left]. apply IH. apply set_keeps_keyed. exact Hd. }
  apply H. split; constructor.
Qed.

Lemma keys_set_in {V : Type} (d : dict string V) (k t : string) (v : V) :
  In t (keys (sset d k v)) <-> In t (keys d) \/ t = k.
Proof.
  destruct (smem d k) eqn:Hmem.
  - rewrite set_old_keys by (exact String.eqb_eq || exact Hmem).
    split; [auto|]. intros [H| ->]; [exact H|].
    apply (mem_in String.eqb String.eqb_eq). exact Hmem.
  - rewrite set_new by exact Hmem. rewrite keys_app, in_app_iff.
    cbn. intuition congruence.
Qed.

Lemma keyword_results_keys (whoosh_hits : list Hit) (t : string) :
  In t (keys (keyword_results whoosh_hits))
  <-> In t (map h_text whoosh_hits).
Proof.
  unfold keyword_results.
  assert (H : forall d,
             In t (keys (fold_left add_keyword whoosh_hits d))
             <-> In t (keys d) \/ In t (map h_text whoosh_hits)).
  { induction whoosh_hits as [|hit rest IH]; intro d; cbn [fold_left map In].
    - tauto.
    - rewrite IH. unfold add_keyword. rewrite keys_set_in.
      intuition congruence. }
  rewrite H. cbn. tauto.
Qed.

Lemma keyword_results_from (whoosh_hits : list Hit) :
  Forall (fun kv => In (snd kv) whoosh_hits) (keyword_results whoosh_hits).
Proof.
  unfold keyword_results.
  assert (H : forall all hits d,
             incl hits all -> Forall (fun kv => In (snd kv) all) d ->
             Forall (fun kv : string * Hit => In (snd kv) all)
                    (fold_left add_keyword hits d)).
  { intros all. induction hits as [|hit rest IH]; intros d Hincl Hd;
      [exact Hd|].
    cbn [fold_left]. apply IH.
    - intros x Hx. apply Hincl. right. exact Hx.
    - apply set_entries; [exact Hd| |]; intros; apply Hincl; left; reflexivity. }
  apply H; [apply incl_refl|constructor].
Qed.

(** The vector loop appends the fill-ins behind what is already there. *)
Lemma vector_loop_values (faiss_hits : list Hit) :
  forall d,
    values (fold_left add_vector faiss_hits d)
    = values d ++ fill_ins (keys d) faiss_hits.
Proof.
  induction faiss_hits as [|hit rest IH]; intro d; cbn [fold_left fill_ins].
  - rewrite app_nil_r. reflexivity.
  - unfold add_vector at 2. rewrite mem_keys.
    destruct (existsb (fun k' => String.eqb k' (h_text hit)) (keys d)) eqn:E.
    + apply IH.
    + rewrite IH, set_new by (rewrite mem_keys; exact E).
      unfold values. rewrite keys_app, map_app, <- app_assoc. reflexivity.
Qed.

Lemma vector_loop_keyed (faiss_hits : list Hit) :
  forall d, keyed_by_text d ->
            keyed_by_text (fold_left add_vector faiss_hits d).
Proof.
  induction faiss_hits as [|hit rest IH]; intros d Hd; [exact Hd|].
  cbn [fold_left]. apply IH. unfold add_vector.
  destruct (smem d (h_text hit)); [exact Hd|].
  apply set_keeps_keyed. exact Hd.
Qed.

Lemma keyed_values_texts (d : dict string Hit) :
  keyed_by_text d -> map h_text (values d) = keys d.
Proof.
  intros [_ Hk]. unfold values, keys. rewrite map_map.
  induction Hk as [|kv d Hx Hd IH]; [reflexivity|].
  cbn [map]. rewrite Hx, IH. reflexivity.
Qed.

Lemma NoDup_prefix {A : Type} (n : nat) (l : list A) :
  NoDup l -> NoDup (firstn n l).
Proof.
  intro H. rewrite <- (firstn_skipn n l) in H.
  apply NoDup_app_remove_r in H. exact H.
Qed.

End FusionFacts.

Section RetrievalClaims.
Import PyStr PyDict Embeddings Retrieval QueryEngine Fixtures.

(** Hydration on the semantic path is by position: a neighbour id inside
    the bounds of the passage list yields the record at that position, any
    other id yields nothing. *)
Lemma faiss_hits_by_position (metadata : list Chunk) (idx : Z) :
  0 <= idx ->
  faiss_hits metadata [idx]
  = Some match nth_error metadata (Z.to_nat idx) with
         | Some c => [vector_hit c]
         | None => []
         end.
Proof.
  intro Hpos. cbn [faiss_hits].
  replace (idx =? -1) with false by (symmetry; apply Z.eqb_neq; lia).
  cbn [negb andb].
  destruct (idx <? Z.of_nat (List.length metadata)) eqn:Hlt.
  - apply Z.ltb_lt in Hlt. unfold getitem.
    replace (idx <? 0) with false by (symmetry; apply Z.ltb_ge; lia).
    destruct (nth_error metadata (Z.to_nat idx)) eqn:Hnth; [reflexivity|].
    apply nth_error_None in Hnth. lia.
  - apply Z.ltb_ge in Hlt.
    replace (nth_error metadata (Z.to_nat idx)) with (@None Chunk);
      [reflexivity|].
    symmetry. apply nth_error_None. lia.
Qed.

(** After a build in an empty directory the chunk at position [i] of the
    passage list has surrogate key [i + 1], so the semantic path answers
    the key of one chunk with the chunk stored one position later, or with
    nothing for the last chunk. *)
Lemma fresh_build_is_off_by_one
    (vec : Type) (sha_of_text : string -> string) (normalize_L2 : vec -> vec)
    (encode : string -> vec) (all_chunks : list FeedRecord)
    (i : nat) (c : Chunk) :
  let s := main sha_of_text normalize_L2 (Some encode) empty_state all_chunks in
  NoDup (valid_ids all_chunks) ->
  nth_error (meta_file s) i = Some c ->
  get String.eqb (id_map_file s) (c_id c) = Some (Z.of_nat i + 1) /\
  faiss_hits (meta_file s) [Z.of_nat i + 1]
  = Some match nth_error (meta_file s) (S i) with
         | Some c' => [vector_hit c']
         | None => []
         end.
Proof.
  intros s Hnd Hi. split.
  - subst s.
    destruct (select_new_chunks sha_of_text [] all_chunks) as [|n new] eqn:Hnew.
    + destruct all_chunks as [|r rest]; [destruct i; discriminate|].
      rewrite main_no_new in Hi by (discriminate || exact Hnew).
      destruct i; discriminate.
    + assert (Hne : select_new_chunks sha_of_text
                      (sha_file (@empty_state vec)) all_chunks <> [])
        by (cbn [sha_file empty_state]; rewrite Hnew; discriminate).
      rewrite main_new in Hi |- * by exact Hne.
      cbn in Hi |- *. rewrite Hnew in Hi |- *.
      replace (Z.of_nat i + 1) with (1 + Z.of_nat i) by lia.
      apply index_after_nth; [|exact Hi].
      rewrite <- Hnew. apply select_nodup. exact Hnd.
  - rewrite faiss_hits_by_position by lia.
    replace (Z.to_nat (Z.of_nat i + 1)) with (S i) by lia. reflexivity.
Qed.

(** C1: what the retriever does with a neighbour id.  After a build of
    [rec_a], [rec_b] in an empty directory the surrogate keys are 1 and 2
    and the passage list has the two records at positions 0 and 1.  The
    semantic path of [hybrid_search] uses the neighbour id as a position in
    that list: neighbour 1, the key of ["a"], yields passage ["b"], and
    neighbour 2, the key of ["b"], is dropped as out of range.  The
    fallback search of [retrieve], which goes through the reverse id map,
    returns ["a"] for neighbour 1 and ["b"] for neighbour 2. *)
Theorem semantic_path_indexes_by_position :
  let s := build empty_state [rec_a; rec_b] in
  id_map_file s = [("a", 1); ("b", 2)] /\
  faiss_to_chunkid_file s = Some [(1, "a"); (2, "b")] /\
  map c_id (meta_file s) = ["a"; "b"] /\
  option_map (map h_id) (faiss_hits (meta_file s) [1]) = Some ["b"] /\
  faiss_hits (meta_file s) [2] = Some [] /\
  map h_id (fallback_hits (reverse_map (id_map_file s))
                          (chunk_dict (meta_file s)) [1; 2]) = ["a"; "b"].
Proof. cbv zeta. repeat split; vm_compute; reflexivity. Qed.

(** The fusion step on its own: the fused list is at most [top_k] long and
    is the first [top_k] entries of the keyword hits (one per distinct
    text, in order of first appearance) followed by the vector hits whose
    text was not yet present; no text occurs twice in it; and a hit of the
    result whose text no keyword hit carries has every keyword match
    represented before it. *)
Lemma fuse_lexical_first :
  forall (whoosh_hits faiss_hits : list Hit) (top_k : nat)
         (l s : Hit) (j : nat),
    let result := fuse whoosh_hits faiss_hits top_k in
    let keyword_part := values (keyword_results whoosh_hits) in
    (List.length result <= top_k)%nat /\
    result = firstn top_k
               (keyword_part
                ++ fill_ins (keys (keyword_results whoosh_hits)) faiss_hits) /\
    NoDup (map h_text result) /\
    (In l whoosh_hits ->
     ~ In (h_text s) (map h_text whoosh_hits) ->
     nth_error result j = Some s ->
     exists i l',
       (i < j)%nat /\ nth_error result i = Some l' /\
       In l' whoosh_hits /\ h_text l' = h_text l).
Proof.
  intros wh fh k l s j result kw.
  assert (Hres : result
                 = firstn k (kw ++ fill_ins (keys (keyword_results wh)) fh)).
  { unfold result, fuse, combine_results. rewrite vector_loop_values.
    reflexivity. }
  pose proof (keyword_results_keyed wh) as Hkeyed.
  split; [apply firstn_le_length|]. split; [exact Hres|]. split.
  - unfold result, fuse. rewrite <- firstn_map. apply NoDup_prefix.
    rewrite keyed_values_texts.
    + apply (vector_loop_keyed fh _ Hkeyed).
    + apply (vector_loop_keyed fh _ Hkeyed).
  - intros Hl Honly Hj.
    rewrite Hres, nth_error_firstn in Hj.
    destruct (Nat.ltb j k) eqn:Hjk; [|discriminate].
    apply Nat.ltb_lt in Hjk.
    assert (Hlen : (List.length kw <= j)%nat).
    { destruct (Nat.le_gt_cases (List.length kw) j) as [H|H]; [exact H|].
      exfalso. rewrite nth_error_app1 in Hj by exact H.
      apply nth_error_In in Hj. apply Honly.
      apply keyword_results_keys. rewrite <- (keyed_values_texts _ Hkeyed).
      apply in_map. exact Hj. }
    assert (Hkey : In (h_text l) (keys (keyword_results wh)))
      by (apply keyword_results_keys; apply in_map; exact Hl).
    apply In_nth_error in Hkey. destruct Hkey as [i Hi].
    unfold keys in Hi. rewrite nth_error_map in Hi.
    destruct (nth_error (keyword_results wh) i) as [[t l']|] eqn:Hentry;
      [|discriminate].
    cbn in Hi. injection Hi as ->.
    pose proof (nth_error_In _ _ Hentry) as Hin.
    destruct Hkeyed as [_ Htexts].
    pose proof (proj1 (Forall_forall _ _) Htexts _ Hin) as Htext.
    pose proof (proj1 (Forall_forall _ _) (keyword_results_from wh) _ Hin)
      as Hfrom.
    cbn [fst snd] in Htext, Hfrom.
    assert (Hkw : nth_error kw i = Some l').
    { unfold kw, values. rewrite nth_error_map, Hentry. reflexivity. }
    assert (Hi_lt : (i < List.length kw)%nat)
      by (apply nth_error_Some; congruence).
    exists i, l'. repeat split; [lia| |exact Hfrom|exact Htext].
    rewrite Hres, nth_error_firstn.
    replace (Nat.ltb i k) with true by (symmetry; apply Nat.ltb_lt; lia).
    rewrite nth_error_app1 by exact Hi_lt. exact Hkw.
Qed.


(** C3.  What [hybrid_search] returns is fused lexical-first.  Whenever
    the search returns, the result is at most [top_k] long and carries no
    text twice; with the model and the vector index loaded it is the first
    [top_k] entries of: the hits of the keyword path (one per distinct
    text, in order of first appearance), followed by the hydrated
    neighbours of the vector search whose text was not yet present, in
    their order.  Hence a hit [s] of the result whose text no keyword hit
    carries (a semantic-only match) at position [j] has every keyword
    match [l] represented before it: a keyword hit with the text of [l]
    stands at a position [i < j]. *)
Theorem lexical_hits_precede_semantic_fill :
  forall (vec whoosh : Type) (embedder : option (string -> vec))
         (faiss_index : option (list (Z * vec))) (metadata : list Chunk)
         (whoosh_index : option whoosh) (normalize_L2 : vec -> vec)
         (faiss_search : list (Z * vec) -> vec -> nat -> list Z)
         (whoosh_search :
            whoosh -> string -> nat -> outcome (list (string * string)))
         (query : string) (top_k : nat) (result : list Hit)
         (l s : Hit) (j : nat),
    hybrid_search vec whoosh embedder faiss_index metadata whoosh_index
                  normalize_L2 faiss_search whoosh_search query top_k
    = Returned result ->
    let whoosh_hits :=
      keyword_path whoosh whoosh_index whoosh_search query top_k in
    (List.length result <= top_k)%nat /\
    NoDup (map h_text result) /\
    (forall encode rows,
       embedder = Some encode -> faiss_index = Some rows ->
       exists vector_hits,
         faiss_hits metadata
                    (faiss_search rows (normalize_L2 (encode query))
                                  (Nat.min top_k (List.length rows)))
         = Some vector_hits /\
         result = firstn top_k
                    (values (keyword_results whoosh_hits)
                     ++ fill_ins (keys (keyword_results whoosh_hits))
                                 vector_hits)) /\
    (In l whoosh_hits ->
     ~ In (h_text s) (map h_text whoosh_hits) ->
     nth_error result j = Some s ->
     exists i l',
       (i < j)%nat /\ nth_error result i = Some l' /\
       In l' whoosh_hits /\ h_text l' = h_text l).
Proof.
  intros vec whoosh embedder faiss_index metadata whoosh_index normalize_L2
         faiss_search whoosh_search query top_k result l s j Hsearch wh.
  assert (Hnone : result = [] ->
            (List.length result <= top_k)%nat /\
            NoDup (map h_text result) /\
            (In l wh -> ~ In (h_text s) (map h_text wh) ->
             nth_error result j = Some s ->
             exists i l',
               (i < j)%nat /\ nth_error result i = Some l' /\
               In l' wh /\ h_text l' = h_text l)).
  { intros ->. split; [cbn; lia|]. split; [constructor|].
    intros _ _ Hj. destruct j; discriminate. }
  unfold hybrid_search in Hsearch.
  destruct embedder as [encode|]; [destruct faiss_index as [rows|]|].
  - destruct (faiss_hits metadata
                (faiss_search rows (normalize_L2 (encode query))
                              (Nat.min top_k (List.length rows))))
      as [vector_hits|] eqn:Hhits; [|discriminate].
    injection Hsearch as <-. fold wh.
    destruct (fuse_lexical_first wh vector_hits top_k l s j)
      as (Hlen & Heq & Hnd & Hprec).
    split; [exact Hlen|]. split; [exact Hnd|]. split; [|exact Hprec].
    intros encode' rows' [= <-] [= <-]. exists vector_hits.
    split; [exact Hhits|exact Heq].
  - injection Hsearch as <-.
    destruct (Hnone eq_refl) as (Hlen & Hnd & Hprec).
    split; [exact Hlen|]. split; [exact Hnd|]. split; [|exact Hprec].
    intros encode' rows' _ [=].
  - injection Hsearch as <-.
    destruct (Hnone eq_refl) as (Hlen & Hnd & Hprec).
    split; [exact Hlen|]. split; [exact Hnd|]. split; [|exact Hprec].
    intros encode' rows' [=].
Qed.

Lemma lexical_hits_precede_semantic_fill_witness :
  let metadata := meta_file (build empty_state [rec_a; rec_b]) in
  let kw := keyword_hit ("a", "x") in
  let vy := vector_hit {| c_id := "b"; c_doc_id := Some "doc"; c_text := "y";
                          c_word_count := Some 1; c_sha := "y" |} in
  let result := [kw; vy] in
  hybrid_search string unit (Some text_vec) (Some [(1, "x"); (2, "y")])
                metadata (Some tt) (fun v => v) (fun _ _ _ => [1; 0])
                (fun _ _ _ => Returned [("a", "x")]) "rash" 5
  = Returned result /\
  (List.length result <= 5)%nat /\
  NoDup (map h_text result) /\
  exists i l',
    (i < 1)%nat /\ nth_error result i = Some l' /\
    In l' [kw] /\ h_text l' = h_text kw.
Proof.
  intros metadata kw vy result.
  assert (Hsearch :
            hybrid_search string unit (Some text_vec)
                          (Some [(1, "x"); (2, "y")])
                          metadata (Some tt) (fun v => v)
                          (fun _ _ _ => [1; 0])
                          (fun _ _ _ => Returned [("a", "x")]) "rash" 5
            = Returned result) by reflexivity.
  split; [exact Hsearch|].
  destruct (lexical_hits_precede_semantic_fill
              string unit (Some text_vec) (Some [(1, "x"); (2, "y")])
              metadata (Some tt) (fun v => v) (fun _ _ _ => [1; 0])
              (fun _ _ _ => Returned [("a", "x")]) "rash" 5%nat result
              kw vy 1%nat Hsearch)
    as (Hlen & Hnd & _ & Hprec).
  split; [exact Hlen|]. split; [exact Hnd|].
  apply Hprec.
  - left. reflexivity.
  - vm_compute. intros [H|[]]. discriminate.
  - reflexivity.
Defined.

End RetrievalClaims.

(* ================================================================== *)
(** * Properties of the reranker and of the orchestrator *)
(* ================================================================== *)

Section RerankFacts.
Import Retrieval QueryEngine.

Lemma insert_desc_perm (x : Hit) (l : list Hit) :
  Permutation (insert_desc x l) (x :: l).
Proof.
  induction l as [|y l IH]; cbn [insert_desc]; [reflexivity|].
  destruct (Qle_bool (score_key y) (score_key x)); [reflexivity|].
  rewrite IH. apply perm_swap.
Qed.

Lemma sorted_desc_perm (l : list Hit) : Permutation (sorted_desc l) l.
Proof.
  induction l as [|x l IH]; [reflexivity|].
  cbn [sorted_desc fold_right]. fold (sorted_desc l).
  rewrite insert_desc_perm, IH. reflexivity.
Qed.

Lemma insert_desc_sorted (x : Hit) (l : list Hit) :
  StronglySorted score_ge l -> StronglySorted score_ge (insert_desc x l).
Proof.
  induction 1 as [|y l Hs IH Hall]; cbn [insert_desc].
  - repeat constructor.
  - destruct (Qle_bool (score_key y) (score_key x)) eqn:E.
    + apply Qle_bool_iff in E.
      constructor; [constructor; assumption|].
      constructor; [exact E|].
      eapply Forall_impl; [|exact Hall]. intros z Hz. unfold score_ge in *.
      eapply Qle_trans; eassumption.
    + constructor; [exact IH|].
      assert (Hxy : score_ge y x).
      { unfold score_ge. apply Qlt_le_weak, Qnot_le_lt. intro H.
        apply Qle_bool_iff in H. congruence. }
      apply Forall_forall. intros z Hz.
      apply (Permutation_in _ (insert_desc_perm x l)) in Hz.
      destruct Hz as [<-|Hz]; [exact Hxy|].
      exact (proj1 (Forall_forall _ _) Hall z Hz).
Qed.

Lemma sorted_desc_sorted (l : list Hit) :
  StronglySorted score_ge (sorted_desc l).
Proof.
  induction l as [|x l IH]; [constructor|].
  cbn [sorted_desc fold_right]. apply insert_desc_sorted. exact IH.
Qed.

(** Candidates of one score keep their order. *)
Lemma insert_desc_stable (v : Q) (x : Hit) (l : list Hit) :
  filter (fun c => Qeq_bool (score_key c) v) (insert_desc x l)
  = filter (fun c => Qeq_bool (score_key c) v) (x :: l).
Proof.
  induction l as [|y l IH]; cbn [insert_desc]; [reflexivity|].
  destruct (Qle_bool (score_key y) (score_key x)) eqn:E; [reflexivity|].
  cbn [filter] in *. rewrite IH.
  destruct (Qeq_bool (score_key x) v) eqn:Ex;
    destruct (Qeq_bool (score_key y) v) eqn:Ey; try reflexivity.
  exfalso. apply Qeq_bool_iff in Ex, Ey.
  assert (H : Qle_bool (score_key y) (score_key x) = true).
  { apply Qle_bool_iff. rewrite Ex, Ey. apply Qle_refl. }
  congruence.
Qed.

Lemma sorted_desc_stable (v : Q) (l : list Hit) :
  filter (fun c => Qeq_bool (score_key c) v) (sorted_desc l)
  = filter (fun c => Qeq_bool (score_key c) v) l.
Proof.
  induction l as [|x l IH]; [reflexivity|].
  cbn [sorted_desc fold_right]. fold (sorted_desc l).
  rewrite insert_desc_stable. cbn [filter]. rewrite IH. reflexivity.
Qed.

Lemma attach_scores_map (score : string -> string -> Q) (query : string)
    (candidates : list Hit) :
  attach_scores candidates
    (predict score (map (fun c => (query, h_text c)) candidates))
  = map (fun c => set_score c (score query (h_text c))) candidates.
Proof.
  unfold attach_scores, predict. rewrite map_map. cbn [fst snd].
  induction candidates as [|c rest IH]; [reflexivity|].
  cbn [map combine fst snd]. rewrite IH. reflexivity.
Qed.

End RerankFacts.

Section QueryEngineClaims.
Import PyStr PyDict Retrieval QueryEngine Fixtures.

(** C6.  [rerank] returns the first [keep_n] candidates of the list
    obtained by attaching to each candidate the score of its
    (query, text) pair and sorting by score, highest first: the sorted list
    is a permutation of the scored candidates, is descending, and keeps the
    candidates of any one score [v] in their original order.  The
    relevance model is called once, on all the pairs, and not at all for
    an empty candidate list, whose result is empty.  Candidates scored
    0.9, 0.4 and 0.7 reranked to two come out as the first and the third. *)
Theorem rerank_sorts_by_score :
  forall (score : string -> string -> Q) (query : string)
         (candidates : list Hit) (keep_n : nat) (v : Q) (c1 c2 c3 : Hit),
    let scored :=
      map (fun c => set_score c (score query (h_text c))) candidates in
    rerank score query candidates keep_n = firstn keep_n (sorted_desc scored) /\
    List.length (rerank score query candidates keep_n)
    = Nat.min keep_n (List.length candidates) /\
    Permutation (sorted_desc scored) scored /\
    StronglySorted (fun a b => (score_key b <= score_key a)%Q)
                   (sorted_desc scored) /\
    filter (fun c => Qeq_bool (score_key c) v) (sorted_desc scored)
    = filter (fun c => Qeq_bool (score_key c) v) scored /\
    fst (rerank_traced score query candidates keep_n)
    = match candidates with
      | [] => []
      | _ :: _ => [map (fun c => (query, h_text c)) candidates]
      end /\
    rerank_traced score query [] keep_n = ([], []) /\
    (score query (h_text c1) = (9 # 10)%Q ->
     score query (h_text c2) = (4 # 10)%Q ->
     score query (h_text c3) = (7 # 10)%Q ->
     rerank score query [c1; c2; c3] 2
     = [set_score c1 (9 # 10); set_score c3 (7 # 10)]).
Proof.
  intros score query candidates keep_n v c1 c2 c3 scored.
  assert (Hrerank : rerank score query candidates keep_n
                    = firstn keep_n (sorted_desc scored)).
  { unfold rerank, rerank_traced. destruct candidates as [|c rest].
    - cbn. destruct keep_n; reflexivity.
    - cbn [snd]. rewrite attach_scores_map. reflexivity. }
  split; [exact Hrerank|]. split.
  { rewrite Hrerank, length_firstn.
    rewrite (Permutation_length (sorted_desc_perm scored)).
    unfold scored. rewrite length_map. reflexivity. }
  split; [apply sorted_desc_perm|].
  split; [apply sorted_desc_sorted|].
  split; [apply sorted_desc_stable|].
  split; [destruct candidates; reflexivity|].
  split; [reflexivity|].
  intros H1 H2 H3. unfold rerank, rerank_traced. cbn [snd].
  rewrite attach_scores_map. cbn [map]. rewrite H1, H2, H3. reflexivity.
Qed.

Lemma rerank_sorts_by_score_witness :
  rerank table_score "query" [cand_p; cand_q; cand_r] 2
  = [set_score cand_p (9 # 10); set_score cand_r (7 # 10)].
Proof.
  destruct (rerank_sorts_by_score table_score "query" [] 2%nat 0%Q
              cand_p cand_q cand_r) as (_ & _ & _ & _ & _ & _ & _ & H).
  apply H; reflexivity.
Defined.

(** C9: what [generate_answer] returns when both providers fail.  With an
    API key configured, a query that is no greeting and both the Groq
    request and the Ollama run raising, the answer is the empty string (and
    it is this empty string that is stored as the assistant's turn). *)
Theorem generate_answer_empty_when_providers_fail :
  forall (GROQ_API_KEY : option string) (key : string)
         (groq_post ollama_run : string -> outcome string)
         (retrieve_fn : string -> nat -> list Hit)
         (score : string -> string -> Q)
         (lower upper : string -> string) (fuzzy_greeting : string -> bool)
         (augment : string -> string -> string)
         (build_prompt : string -> option string -> string -> string -> string)
         (store : HistoryStore) (query session_id : string)
         (vision_analysis : option string),
    truthy GROQ_API_KEY = Some key ->
    is_greeting fuzzy_greeting (lower query) = false ->
    (forall prompt, groq_post prompt = Raised) ->
    (forall prompt, ollama_run prompt = Raised) ->
    let '(answer, store') :=
      generate_answer GROQ_API_KEY groq_post ollama_run retrieve_fn score
                      lower upper fuzzy_greeting augment build_prompt
                      store query session_id vision_analysis in
    answer = "" /\
    store' = add_to_history (add_to_history store session_id "user" query)
                            session_id "assistant" "".
Proof.
  intros key0 key post run retrieve_fn score lower upper fuzzy augment
         build_prompt store query session vision Hkey Hgreet Hpost Hrun.
  unfold generate_answer. rewrite Hgreet.
  unfold call_llm, query_groq, query_ollama. cbn [String.eqb PROVIDER].
  rewrite Hkey, Hpost, Hrun. cbn. split; reflexivity.
Qed.

Lemma generate_answer_empty_when_providers_fail_witness :
  fst (generate_answer (Some "key") provider_down provider_down
         (fun _ _ => []) table_score (fun q => q) (fun r => r)
         (fun _ => false) (fun v q => q) (fun h v c q => q)
         [] "what is eczema" "default_user" None) = "".
Proof.
  pose proof (generate_answer_empty_when_providers_fail
                (Some "key") "key" provider_down provider_down
                (fun _ _ => []) table_score (fun q => q) (fun r => r)
                (fun _ => false) (fun v q => q) (fun h v c q => q)
                [] "what is eczema" "default_user" None
                eq_refl eq_refl (fun _ => eq_refl) (fun _ => eq_refl)) as H.
  destruct (generate_answer _ _ _ _ _ _ _ _ _ _ _ _ _ _) as [answer store'].
  exact (proj1 H).
Defined.

End QueryEngineClaims.

(* ================================================================== *)
(** * Further properties of the chunker *)
(* ================================================================== *)

Section ChunkerCoverage.
Import PyStr Chunker Derived Fixtures.

Lemma skipn_window {A : Type} (l l' : list A) :
  skipn (List.length l) (l ++ l') = l'.
Proof. induction l as [|x l IH]; [reflexivity|exact IH]. Qed.

Lemma seed_nil (ow : Z) : seed ow [] = ([], 0).
Proof. unfold seed. destruct (0 <? ow); reflexivity. Qed.

(** Read back without the windows, the chunks still to be emitted are the
    running chunk followed by the sentences still to come. *)
Lemma chunk_loop_covers (E ow : Z) :
  forall sentences cur cw,
    covered ow (chunk_loop (fun g => g) E ow sentences [] cur cw)
    = cur ++ sentences.
Proof.
  induction sentences as [|sent rest IH]; intros cur cw; cbn [chunk_loop].
  - destruct cur; cbn [flush app covered new_sentences];
      rewrite ?app_nil_r; reflexivity.
  - destruct (cw + words_count sent <=? E).
    + rewrite IH, <- app_assoc. reflexivity.
    + destruct (seed ow cur) as [ov c] eqn:Hseed.
      destruct cur as [|x cur]; cbn [flush].
      * rewrite seed_nil in Hseed. injection Hseed as <- <-.
        rewrite IH. reflexivity.
      * rewrite chunk_loop_acc. cbn [app].
        destruct (chunk_loop_chain E ow rest (ov ++ [sent])
                                   (c + words_count sent)) as [_ Hhd].
        destruct Hhd as (more & tl & Heq); [now destruct ov|].
        specialize (IH (ov ++ [sent]) (c + words_count sent)).
        rewrite Heq in IH |- *. cbn [covered new_sentences] in IH |- *.
        rewrite Hseed. cbn [fst].
        rewrite <- !app_assoc in IH. apply app_inv_head in IH.
        rewrite <- !app_assoc, skipn_window. cbn [app] in IH |- *.
        injection IH as IH. rewrite IH. reflexivity.
Qed.

(** X1.  No sentence is lost or reordered: the sentences of the first
    chunk followed, chunk after chunk, by what each chunk adds to the
    window it repeats from its predecessor, are the sentences of the
    text. *)
Theorem chunks_cover_all_sentences :
  forall (sent_tokenize : string -> list string) (text : string)
         (max_words overlap_words : Z) (context_prefix : string),
    covered overlap_words
            (chunk_groups sent_tokenize text max_words overlap_words
                          context_prefix)
    = sent_tokenize text.
Proof.
  intros tok text mw ow prefix. unfold chunk_groups.
  apply (chunk_loop_covers _ ow (tok text) [] 0).
Qed.

End ChunkerCoverage.

Section ChunkerShape.
Import PyStr Chunker Derived.

Lemma chunk_loop_nonempty (E ow : Z) :
  forall sentences chunks cur cw,
    Forall (fun g : list string => g <> []) chunks ->
    Forall (fun g => g <> [])
           (chunk_loop (fun g => g) E ow sentences chunks cur cw).
Proof.
  induction sentences as [|sent rest IH]; intros chunks cur cw Hch;
    cbn [chunk_loop].
  - destruct cur; cbn [flush]; [exact Hch|].
    apply Forall_app. split; [exact Hch|]. repeat constructor. discriminate.
  - destruct (cw + words_count sent <=? E); [apply IH; exact Hch|].
    destruct (seed ow cur) as [ov c]. apply IH.
    destruct cur; cbn [flush]; [exact Hch|].
    apply Forall_app. split; [exact Hch|]. repeat constructor. discriminate.
Qed.

(** A chunk is closed only when a sentence arrives or the text ends. *)
Lemma chunk_loop_count {A : Type} (emit : list string -> A) (E ow : Z) :
  forall sentences chunks cur cw,
    (List.length (chunk_loop emit E ow sentences chunks cur cw)
     <= List.length chunks + List.length sentences
        + Nat.min 1 (List.length cur))%nat.
Proof.
  induction sentences as [|sent rest IH]; intros chunks cur cw;
    cbn [chunk_loop].
  - destruct cur; cbn [flush List.length]; [lia|].
    rewrite length_app. cbn. lia.
  - destruct (cw + words_count sent <=? E).
    + specialize (IH chunks (cur ++ [sent]) (cw + words_count sent)).
      rewrite length_app in IH. cbn [List.length] in *. lia.
    + destruct (seed ow cur) as [ov c].
      specialize (IH (flush emit chunks cur) (ov ++ [sent])
                     (c + words_count sent)).
      rewrite length_app in IH.
      destruct cur; cbn [flush List.length] in *;
        rewrite ?length_app in IH; cbn [List.length] in *; lia.
Qed.

(** X2.  Every chunk carries at least one sentence, and a text yields at
    most as many chunks as it has sentences (none for a text without
    sentences). *)
Theorem chunks_are_nonempty_and_few :
  forall (sent_tokenize : string -> list string) (text : string)
         (max_words overlap_words : Z) (context_prefix : string),
    Forall (fun g => g <> [])
           (chunk_groups sent_tokenize text max_words overlap_words
                         context_prefix) /\
    (List.length (chunk_text sent_tokenize text max_words overlap_words
                             context_prefix)
     <= List.length (sent_tokenize text))%nat.
Proof.
  intros tok text mw ow prefix. split.
  - apply chunk_loop_nonempty. constructor.
  - unfold chunk_text.
    pose proof (chunk_loop_count (render prefix) (effective_max_of mw prefix)
                                 ow (tok text) [] [] 0) as H.
    cbn in H. cbn. lia.
Qed.

Lemma append_bracket (a b : string) :
  (a ++ "] " ++ b)%string = ((a ++ "]") ++ String " " b)%string.
Proof.
  induction a as [|c a IH]; [reflexivity|].
  change (String c a ++ "] " ++ b)%string with (String c (a ++ "] " ++ b))%string.
  rewrite IH. reflexivity.
Qed.

Lemma split_from_started (s w : string) :
  is_empty w = false -> (1 <= List.length (split_from w s))%nat.
Proof.
  revert w. induction s as [|c s IH]; intros w Hw; cbn [split_from].
  - rewrite Hw. cbn. lia.
  - destruct (is_space c).
    + rewrite Hw. cbn. lia.
    + apply IH. destruct w; reflexivity.
Qed.

Lemma words_count_render (context_prefix : string) (g : list string) :
  words_count (render context_prefix g)
  = tag_words context_prefix + total_words g.
Proof.
  unfold render, tag_words. destruct (is_empty context_prefix).
  - rewrite words_count_join. lia.
  - change ("[" ++ context_prefix ++ "] " ++ join " " g)%string
      with (String "[" (context_prefix ++ "] " ++ join " " g))%string.
    rewrite append_bracket.
    change (String "[" ((context_prefix ++ "]") ++ String " " (join " " g)))%string
      with (("[" ++ context_prefix ++ "]") ++ String " " (join " " g))%string.
    rewrite words_count_blank, words_count_join. reflexivity.
Qed.

(** X3.  The word count of an emitted chunk, which [process_all] records
    as [word_count], is the word count of its sentences plus that of the
    bracketed tag; the tag counts at least one word when there is one. *)
Theorem chunk_word_count_includes_tag :
  forall (sent_tokenize : string -> list string) (text : string)
         (max_words overlap_words : Z) (context_prefix : string),
    map words_count
        (chunk_text sent_tokenize text max_words overlap_words context_prefix)
    = map (fun g => tag_words context_prefix + total_words g)
          (chunk_groups sent_tokenize text max_words overlap_words
                        context_prefix) /\
    (if is_empty context_prefix then tag_words context_prefix = 0
     else 1 <= tag_words context_prefix).
Proof.
  intros tok text mw ow prefix. split.
  - rewrite chunk_text_groups, map_map. apply map_ext.
    intro g. apply words_count_render.
  - unfold tag_words. destruct (is_empty prefix) eqn:E; [reflexivity|].
    unfold words_count, split.
    change (split_from "" ("[" ++ prefix ++ "]"))
      with (split_from "[" (prefix ++ "]")).
    pose proof (split_from_started (prefix ++ "]") "[" eq_refl). lia.
Qed.

End ChunkerShape.

Section ChunkIds.
Import PyStr Chunker ChunkerFiles Derived.

Lemma string_app_assoc (a b c : string) :
  ((a ++ b) ++ c)%string = (a ++ b ++ c)%string.
Proof.
  induction a as [|x a IH]; [reflexivity|].
  change (String x (((a ++ b) ++ c)) = String x (a ++ b ++ c))%string.
  rewrite IH. reflexivity.
Qed.

Lemma starts_with_app (a b : string) : starts_with a (a ++ b) = true.
Proof.
  induction a as [|x a IH]; [reflexivity|].
  cbn. rewrite IH, Ascii.eqb_refl. reflexivity.
Qed.

Lemma chars_app (a b : string) :
  list_ascii_of_string (a ++ b)
  = list_ascii_of_string a ++ list_ascii_of_string b.
Proof. induction a as [|x a IH]; [reflexivity|]. cbn. rewrite IH. reflexivity. Qed.

Lemma chars_inj (a b : string) :
  list_ascii_of_string a = list_ascii_of_string b -> a = b.
Proof.
  intro H. rewrite <- (string_of_list_ascii_of_string a),
             <- (string_of_list_ascii_of_string b), H. reflexivity.
Qed.

Lemma uint_digits (d : Decimal.uint) :
  Forall (fun c => is_digit c = true)
         (list_ascii_of_string (NilEmpty.string_of_uint d)).
Proof. induction d; cbn; constructor; auto. Qed.

Lemma str_of_nat_inj (i j : nat) : str_of_nat i = str_of_nat j -> i = j.
Proof.
  unfold str_of_nat. intro H. apply DecimalNat.Unsigned.to_uint_inj.
  apply (f_equal NilEmpty.uint_of_string) in H.
  rewrite !NilEmpty.usu in H. congruence.
Qed.

(** A run of digits in front of a non-digit is determined by the whole. *)
Lemma digits_then_mark (a b x y : list ascii) (m : ascii) :
  is_digit m = false ->
  Forall (fun c => is_digit c = true) a ->
  Forall (fun c => is_digit c = true) b ->
  a ++ m :: x = b ++ m :: y -> a = b /\ x = y.
Proof.
  intros Hm Ha. revert b. induction Ha as [|c a Hc Ha IH]; intros b Hb Heq.
  - destruct Hb as [|c' b Hc' Hb]; cbn in Heq.
    + injection Heq as ->. auto.
    + injection Heq as -> _. congruence.
  - destruct Hb as [|c' b Hc' Hb]; cbn in Heq.
    + injection Heq as -> _. congruence.
    + injection Heq as -> Heq. destruct (IH b Hb Heq) as [-> ->]. auto.
Qed.

(** Document id and chunk number can be read back from a chunk id. *)
Lemma chunk_id_of_inj (d d' : string) (i i' : nat) :
  chunk_id_of d i = chunk_id_of d' i' -> d = d' /\ i = i'.
Proof.
  unfold chunk_id_of. intro H.
  apply (f_equal list_ascii_of_string) in H. rewrite !chars_app in H.
  apply (f_equal (@rev ascii)) in H.
  rewrite !rev_app_distr in H. cbn [list_ascii_of_string rev app] in H.
  rewrite <- !app_assoc in H. cbn [app] in H.
  apply (digits_then_mark _ _ _ _ "c"%char) in H;
    [|reflexivity|apply Forall_rev, uint_digits|apply Forall_rev, uint_digits].
  destruct H as [Hi Hd]. split.
  - injection Hd as Hd. apply chars_inj.
    rewrite <- (rev_involutive (list_ascii_of_string d)), Hd.
    apply rev_involutive.
  - apply str_of_nat_inj. apply chars_inj.
    rewrite <- (rev_involutive (list_ascii_of_string (str_of_nat i))), Hi.
    apply rev_involutive.
Qed.

End ChunkIds.

Section DocumentChunks.
Import PyStr Chunker ChunkerFiles Embeddings Derived Fixtures.
Variable sent_tokenize : string -> list string.
Variable heading_split : string -> string * list string.

Local Abbreviation tagged d := (fun ch => starts_with ("[" ++ d) ch = true).

Lemma string_app_nil (a : string) : (a ++ "")%string = a.
Proof. induction a as [|x a IH]; [reflexivity|]. cbn. rewrite IH. reflexivity. Qed.

Lemma chunk_text_tagged (text : string) (mw ow : Z) (d suffix : string) :
  is_empty (d ++ suffix) = false ->
  Forall (tagged d) (chunk_text sent_tokenize text mw ow (d ++ suffix)).
Proof.
  intro Hne. rewrite chunk_text_groups. apply Forall_forall.
  intros ch Hin. apply in_map_iff in Hin. destruct Hin as (g & <- & _).
  unfold render. rewrite Hne.
  change ("[" ++ (d ++ suffix) ++ "] " ++ join " " g)%string
    with (String "[" ((d ++ suffix) ++ "] " ++ join " " g))%string.
  rewrite string_app_assoc.
  change (String "[" (d ++ suffix ++ "] " ++ join " " g))%string
    with (("[" ++ d) ++ suffix ++ "] " ++ join " " g)%string.
  apply starts_with_app.
Qed.

Lemma nonempty_app (a b : string) :
  is_empty b = false -> is_empty (a ++ b) = false.
Proof. intro H. destruct a; [exact H|reflexivity]. Qed.

Lemma section_chunks_tagged (d heading content : string) :
  Forall (tagged d) (section_chunks sent_tokenize d heading content).
Proof.
  unfold section_chunks. destruct (is_empty (strip content)); [constructor|].
  apply chunk_text_tagged. apply nonempty_app. reflexivity.
Qed.

Lemma sections_loop_tagged (d : string) (rest : list string) :
  Forall (tagged d) (sections_loop sent_tokenize d rest) /\
  forall heading,
    Forall (tagged d) (sections_loop sent_tokenize d (heading :: rest)).
Proof.
  induction rest as [|content rest [IH1 IH2]].
  - split; [constructor|]. intro heading. apply section_chunks_tagged.
  - split; [apply IH2|]. intro heading. cbn [sections_loop].
    apply Forall_app. split; [apply section_chunks_tagged|exact IH1].
Qed.

(** X4.  Context injection reaches every chunk of a document: with a
    non-empty document id, each chunk [chunk_file_content] returns, from
    the preamble, from a section under a heading or from the fallback on
    the whole text, starts with the opening bracket and the document id. *)
Theorem every_chunk_starts_with_doc_tag :
  forall (full_text doc_id : string),
    is_empty doc_id = false ->
    Forall (fun ch => starts_with ("[" ++ doc_id) ch = true)
           (chunk_file_content sent_tokenize heading_split full_text doc_id).
Proof.
  intros full_text d Hd. unfold chunk_file_content.
  destruct (heading_split full_text) as [preamble rest].
  set (general := if is_empty (strip preamble) then [] else _).
  assert (Hgen : Forall (tagged d) general).
  { unfold general. destruct (is_empty (strip preamble)); [constructor|].
    apply chunk_text_tagged. apply nonempty_app. reflexivity. }
  assert (Hall : Forall (tagged d)
                        (general ++ sections_loop sent_tokenize d rest)).
  { apply Forall_app. split; [exact Hgen|apply sections_loop_tagged]. }
  destruct (general ++ sections_loop sent_tokenize d rest) as [|ch chunks];
    [|exact Hall].
  destruct (is_empty (strip full_text)); [constructor|].
  replace (chunk_text sent_tokenize full_text MAX_WORDS OVERLAP_WORDS d)
    with (chunk_text sent_tokenize full_text MAX_WORDS OVERLAP_WORDS (d ++ ""))
    by (rewrite string_app_nil; reflexivity).
  apply chunk_text_tagged. rewrite string_app_nil. exact Hd.
Qed.

End DocumentChunks.

Section DocumentChunksInstance.
Import PyStr Chunker ChunkerFiles Embeddings Derived Fixtures.

Lemma every_chunk_starts_with_doc_tag_witness :
  Forall (fun ch => starts_with ("[" ++ "doc") ch = true)
         (chunk_file_content period_tokenize (fun t => (t, []))
                             "The skin heals. The rash fades." "doc").
Proof.
  apply (every_chunk_starts_with_doc_tag period_tokenize
           (fun t => (t, [])) "The skin heals. The rash fades." "doc").
  reflexivity.
Defined.

End DocumentChunksInstance.

Section FeedRuns.
Import PyStr PyDict Chunker ChunkerFiles Embeddings Derived.
Variable sent_tokenize : string -> list string.
Variable heading_split : string -> string * list string.

Local Abbreviation lines_of := (lines_of_file sent_tokenize heading_split).
Local Abbreviation run_files := (process_files sent_tokenize heading_split).
Local Abbreviation run_all := (process_all sent_tokenize heading_split).

Lemma already_done_app (a b : list FeedRecord) :
  already_done_ids (a ++ b) = already_done_ids a ++ already_done_ids b.
Proof.
  induction a as [|r a IH]; [reflexivity|].
  cbn [app already_done_ids]. destruct (rec_doc_id r); rewrite IH; reflexivity.
Qed.

Lemma feed_ids_app (a b : list FeedRecord) :
  feed_ids (a ++ b) = feed_ids a ++ feed_ids b.
Proof.
  induction a as [|r a IH]; [reflexivity|].
  cbn [app feed_ids]. destruct (rec_id r); rewrite IH; reflexivity.
Qed.

Lemma process_files_lines (done : list string) (files : list SourceFile)
    (f : SourceFile) (own : list FeedRecord) :
  In f files -> lines_of done f = Some own ->
  incl own (fst (run_files done files)).
Proof.
  induction files as [|f0 rest IH]; [contradiction|].
  intros [->|Hin] Hown; cbn [process_files].
  - destruct (run_files done rest) as [lines written]. rewrite Hown.
    cbn [fst]. apply incl_appl, incl_refl.
  - specialize (IH Hin Hown).
    destruct (run_files done rest) as [lines written].
    destruct (lines_of done f0); cbn [fst] in *; [apply incl_appr|]; exact IH.
Qed.

Lemma file_lines_doc (d : string) (chunks : list string) (r : FeedRecord) :
  In r (file_lines d chunks) -> rec_doc_id r = Some d.
Proof.
  unfold file_lines. intro H. apply in_map_iff in H.
  destruct H as (it & <- & _). reflexivity.
Qed.

Lemma done_of_line (r : FeedRecord) (feed : list FeedRecord) (d : string) :
  In r feed -> rec_doc_id r = Some d -> In d (already_done_ids feed).
Proof.
  induction feed as [|r0 feed IH]; [contradiction|].
  intros [->|Hin] Hd; cbn [already_done_ids].
  - rewrite Hd. left. reflexivity.
  - destruct (rec_doc_id r0); [right|]; auto.
Qed.

Lemma nothing_to_add (done : list string) (files : list SourceFile) :
  (forall f, In f files -> lines_of done f = None \/ lines_of done f = Some []) ->
  fst (run_files done files) = [].
Proof.
  induction files as [|f rest IH]; intro H; [reflexivity|].
  cbn [process_files].
  specialize (IH (fun f0 Hf0 => H f0 (or_intror Hf0))).
  destruct (run_files done rest) as [lines written]. cbn [fst] in IH. subst.
  destruct (H f (or_introl eq_refl)) as [-> | ->]; reflexivity.
Qed.

(** X5.  A second [process_all] on the same directory appends nothing to
    the feed: a document with lines in the feed is passed over, and one
    that gave no chunk (or cannot be read) gives none again. *)
Theorem process_all_settles :
  forall (feed : list FeedRecord) (files : list SourceFile),
    fst (run_all (fst (run_all feed files)) files) = fst (run_all feed files).
Proof.
  intros feed files. unfold process_all.
  destruct (run_files (already_done_ids feed) files) as [lines written] eqn:E1.
  cbn [fst].
  assert (Hlines : lines = fst (run_files (already_done_ids feed) files))
    by (rewrite E1; reflexivity).
  destruct (run_files (already_done_ids (feed ++ lines)) files)
    as [lines2 written2] eqn:E2. cbn [fst].
  assert (H2 : lines2 = []).
  { change lines2 with (fst (lines2, written2)). rewrite <- E2.
    apply nothing_to_add. intros f Hf.
    unfold lines_of_file at 1 2.
    destruct (existsb (String.eqb (src_doc_id f))
                      (already_done_ids (feed ++ lines))) eqn:Hdone;
      [left; reflexivity|].
    destruct (src_pages f) as [|pages] eqn:Hpages; [left; reflexivity|].
    right. f_equal.
    set (own := file_lines _ _).
    destruct own as [|r own'] eqn:Hown; [reflexivity|]. exfalso.
    assert (Hfirst : lines_of (already_done_ids feed) f = Some own).
    { unfold lines_of_file. rewrite Hpages.
      destruct (existsb (String.eqb (src_doc_id f)) (already_done_ids feed))
        eqn:Hold; [|reflexivity].
      apply existsb_exists in Hold. destruct Hold as (k & Hk & Hkf).
      assert (Hx : existsb (String.eqb (src_doc_id f))
                           (already_done_ids (feed ++ lines)) = true).
      { apply existsb_exists. exists k. split; [|exact Hkf].
        rewrite already_done_app. apply in_or_app. left. exact Hk. }
      congruence. }
    pose proof (process_files_lines _ _ _ _ Hf Hfirst) as Hincl.
    rewrite <- Hlines in Hincl.
    assert (Hr : In r own) by (rewrite Hown; left; reflexivity).
    assert (Hd : rec_doc_id r = Some (src_doc_id f))
      by (apply (file_lines_doc _ _ _ Hr)).
    assert (Hin : In (src_doc_id f) (already_done_ids (feed ++ lines))).
    { eapply done_of_line; [|exact Hd]. apply in_or_app. right.
      apply Hincl. exact Hr. }
    assert (Hx : existsb (String.eqb (src_doc_id f))
                         (already_done_ids (feed ++ lines)) = true).
    { apply existsb_exists. exists (src_doc_id f). split; [exact Hin|].
      apply String.eqb_refl. }
    congruence. }
  rewrite H2, app_nil_r. reflexivity.
Qed.

End FeedRuns.

Section FeedIds.
Import PyStr PyDict Chunker ChunkerFiles Embeddings Derived Fixtures.
Variable sent_tokenize : string -> list string.
Variable heading_split : string -> string * list string.

Local Abbreviation lines_of := (lines_of_file sent_tokenize heading_split).
Local Abbreviation run_files := (process_files sent_tokenize heading_split).
Local Abbreviation run_all := (process_all sent_tokenize heading_split).

Lemma numbered_lines_ids (d : string) (chunks : list string) :
  forall a,
    feed_ids (map (fun it => meta_line d (fst it) (snd it))
                  (combine (seq a (List.length chunks)) chunks))
    = map (chunk_id_of d) (seq a (List.length chunks)).
Proof.
  induction chunks as [|txt chunks IH]; intro a; [reflexivity|].
  cbn [List.length seq combine map feed_ids meta_line rec_id fst snd].
  rewrite IH. reflexivity.
Qed.

Lemma file_lines_ids (d : string) (chunks : list string) :
  feed_ids (file_lines d chunks)
  = map (chunk_id_of d) (seq 0 (List.length chunks)).
Proof. apply numbered_lines_ids. Qed.

Lemma file_lines_written (d : string) (chunks : list string) :
  Forall written_line (file_lines d chunks).
Proof.
  apply Forall_forall. intros r Hr. unfold file_lines in Hr.
  apply in_map_iff in Hr. destruct Hr as (it & <- & _).
  exists d, (fst it). split; reflexivity.
Qed.

Lemma file_lines_nodup (d : string) (chunks : list string) :
  NoDup (feed_ids (file_lines d chunks)).
Proof.
  rewrite file_lines_ids. generalize (seq_NoDup (List.length chunks) 0).
  generalize (seq 0 (List.length chunks)).
  induction 1 as [|i l Hi Hl IH]; cbn [map]; constructor; [|exact IH].
  intro Hin. apply in_map_iff in Hin. destruct Hin as (j & Heq & Hj).
  apply chunk_id_of_inj in Heq. destruct Heq as [_ ->]. contradiction.
Qed.

Lemma id_has_line (feed : list FeedRecord) (k : string) :
  In k (feed_ids feed) -> exists r, In r feed /\ rec_id r = Some k.
Proof.
  induction feed as [|r feed IH]; [contradiction|].
  cbn [feed_ids]. destruct (rec_id r) as [k0|] eqn:E.
  - intros [->|Hin].
    + exists r. split; [left; reflexivity|exact E].
    + destruct (IH Hin) as (r' & Hr' & Hk). exists r'. split; [right|]; auto.
  - intro Hin. destruct (IH Hin) as (r' & Hr' & Hk).
    exists r'. split; [right|]; auto.
Qed.

(** The lines a run appends come from files whose document is new. *)
Lemma new_lines_origin (done : list string) (files : list SourceFile)
    (k : string) :
  In k (feed_ids (fst (run_files done files))) ->
  exists f i, In f files /\ ~ In (src_doc_id f) done /\
              k = chunk_id_of (src_doc_id f) i.
Proof.
  induction files as [|f rest IH]; [contradiction|].
  cbn [process_files].
  destruct (run_files done rest) as [lines written]. cbn [fst] in IH.
  destruct (lines_of done f) as [own|] eqn:Hown; cbn [fst].
  - rewrite feed_ids_app, in_app_iff. intros [Hin|Hin].
    + unfold lines_of_file in Hown.
      destruct (existsb (String.eqb (src_doc_id f)) done) eqn:Hdone;
        [discriminate|].
      destruct (src_pages f); [discriminate|]. injection Hown as <-.
      rewrite file_lines_ids in Hin. apply in_map_iff in Hin.
      destruct Hin as (i & <- & _). exists f, i.
      split; [left; reflexivity|]. split; [|reflexivity].
      intro Hd. assert (existsb (String.eqb (src_doc_id f)) done = true).
      { apply existsb_exists. exists (src_doc_id f).
        split; [exact Hd|apply String.eqb_refl]. }
      congruence.
    + destruct (IH Hin) as (f' & i & Hf' & Hnew & Hk).
      exists f', i. split; [right|]; auto.
  - intro Hin. destruct (IH Hin) as (f' & i & Hf' & Hnew & Hk).
    exists f', i. split; [right|]; auto.
Qed.

Lemma new_lines_nodup (done : list string) (files : list SourceFile) :
  NoDup (map src_doc_id files) ->
  NoDup (feed_ids (fst (run_files done files))).
Proof.
  induction files as [|f rest IH]; intro Hnd; [constructor|].
  cbn [map] in Hnd. inversion Hnd as [|? ? Hfresh Hnd']; subst.
  specialize (IH Hnd'). pose proof (new_lines_origin done rest) as Horigin.
  cbn [process_files].
  destruct (run_files done rest) as [lines written]. cbn [fst] in *.
  destruct (lines_of done f) as [own|] eqn:Hown; cbn [fst]; [|exact IH].
  rewrite feed_ids_app. unfold lines_of_file in Hown.
  destruct (existsb (String.eqb (src_doc_id f)) done); [discriminate|].
  destruct (src_pages f); [discriminate|]. injection Hown as <-.
  apply NoDup_app; [apply file_lines_nodup|exact IH|].
  intros k Hk Hk'. rewrite file_lines_ids in Hk. apply in_map_iff in Hk.
  destruct Hk as (i & <- & _).
  destruct (Horigin _ Hk') as (f' & i' & Hf' & _ & Heq).
  apply chunk_id_of_inj in Heq. destruct Heq as [Hd _].
  apply Hfresh. rewrite Hd. apply in_map. exact Hf'.
Qed.

Lemma new_lines_written (done : list string) (files : list SourceFile) :
  Forall written_line (fst (run_files done files)).
Proof.
  induction files as [|f rest IH]; [constructor|].
  cbn [process_files].
  destruct (run_files done rest) as [lines written]. cbn [fst] in IH.
  destruct (lines_of done f) as [own|] eqn:Hown; cbn [fst]; [|exact IH].
  apply Forall_app. split; [|exact IH].
  unfold lines_of_file in Hown.
  destruct (existsb (String.eqb (src_doc_id f)) done); [discriminate|].
  destruct (src_pages f); [discriminate|]. injection Hown as <-.
  apply file_lines_written.
Qed.

Lemma truthy_some (o : option string) (k : string) :
  truthy o = Some k -> o = Some k.
Proof.
  unfold truthy. destruct o as [s|]; [|discriminate].
  destruct (is_empty s); [discriminate|]. auto.
Qed.

Lemma valid_ids_in_feed_ids (feed : list FeedRecord) (k : string) :
  In k (valid_ids feed) -> In k (feed_ids feed).
Proof.
  induction feed as [|r feed IH]; [contradiction|].
  cbn [valid_ids feed_ids].
  destruct (truthy (rec_id r)) as [cid|] eqn:Hid.
  - apply truthy_some in Hid. rewrite Hid.
    destruct (truthy (rec_text r)); [intros [->|H]; [left|right]|right]; auto.
  - destruct (rec_id r); [right|]; auto.
Qed.

Lemma valid_ids_nodup (feed : list FeedRecord) :
  NoDup (feed_ids feed) -> NoDup (valid_ids feed).
Proof.
  induction feed as [|r feed IH]; [constructor|].
  cbn [valid_ids feed_ids].
  destruct (truthy (rec_id r)) as [cid|] eqn:Hid.
  - apply truthy_some in Hid. rewrite Hid. intro Hnd.
    inversion Hnd as [|? ? Hfresh Hnd']; subst.
    destruct (truthy (rec_text r)); [|auto].
    constructor; [|auto]. intro H. apply Hfresh.
    apply valid_ids_in_feed_ids. exact H.
  - destruct (rec_id r); intro Hnd; [inversion Hnd; subst|]; auto.
Qed.

(** X6.  [process_all] keeps the chunk ids of the feed pairwise distinct.
    If every line of the feed is one it wrote (id = document id, [_c],
    chunk number), the ids are distinct and the directory lists each
    document once, then the same holds of the feed after the run, and in
    particular of the ids of the records the index builder accepts. *)
Theorem process_all_keeps_ids_distinct :
  forall (feed : list FeedRecord) (files : list SourceFile),
    Forall written_line feed ->
    NoDup (feed_ids feed) ->
    NoDup (map src_doc_id files) ->
    let feed' := fst (run_all feed files) in
    Forall written_line feed' /\
    NoDup (feed_ids feed') /\
    NoDup (valid_ids feed').
Proof.
  intros feed files Hwr Hnd Hdocs feed'.
  assert (Hfeed : feed' = feed ++ fst (run_files (already_done_ids feed) files)).
  { unfold feed', process_all.
    destruct (run_files (already_done_ids feed) files). reflexivity. }
  assert (Hids : NoDup (feed_ids feed')).
  { rewrite Hfeed, feed_ids_app.
    apply NoDup_app; [exact Hnd|apply new_lines_nodup; exact Hdocs|].
    intros k Hold Hnew.
    destruct (id_has_line _ _ Hold) as (r & Hr & Hk).
    destruct (proj1 (Forall_forall _ _) Hwr r Hr) as (d & j & Hid & Hdoc).
    destruct (new_lines_origin _ _ _ Hnew) as (f & i & _ & Hfresh & Heq).
    apply Hfresh. rewrite Hk in Hid. injection Hid as Hid.
    rewrite Hid in Heq. apply chunk_id_of_inj in Heq. destruct Heq as [<- _].
    eapply done_of_line; eassumption. }
  split; [|split; [exact Hids|apply valid_ids_nodup; exact Hids]].
  rewrite Hfeed. apply Forall_app. split; [exact Hwr|apply new_lines_written].
Qed.

End FeedIds.

Section FeedIdsInstance.
Import PyStr PyDict Chunker ChunkerFiles Embeddings Derived Fixtures.

Lemma process_all_keeps_ids_distinct_witness :
  let files := [ {| src_doc_id := "a";
                    src_pages := Returned ["The skin heals."] |};
                 {| src_doc_id := "b";
                    src_pages := Returned ["The rash fades."; "It itches."] |} ] in
  let feed' := fst (process_all period_tokenize (fun t => (t, [])) [] files) in
  Forall written_line feed' /\
  NoDup (feed_ids feed') /\
  NoDup (valid_ids feed').
Proof.
  intro files.
  apply (process_all_keeps_ids_distinct period_tokenize (fun t => (t, []))
           [] files).
  - constructor.
  - constructor.
  - repeat constructor; cbn; intuition discriminate.
Defined.

End FeedIdsInstance.

(* ================================================================== *)
(** * Further properties of the index builder *)
(* ================================================================== *)

Section DictValues.
Import PyDict.
Context {K V : Type}.
Variable eqb : K -> K -> bool.
Hypothesis eqb_spec : forall a b, eqb a b = true <-> a = b.

Lemma values_set_in (d : dict K V) (k : K) (v x : V) :
  In x (values (set eqb d k v)) -> x = v \/ In x (values d).
Proof.
  induction d as [|[k' v'] d IH]; cbn [set values map snd In].
  - intros [<-|[]]. left. reflexivity.
  - destruct (eqb k' k); cbn [map snd In].
    + intros [<-|H]; [left; reflexivity|right; right; exact H].
    + intros [<-|H]; [right; left; reflexivity|].
      destruct (IH H) as [->|H']; [left; reflexivity|right; right; exact H'].
Qed.

Lemma values_set_has (d : dict K V) (k : K) (v : V) :
  In v (values (set eqb d k v)).
Proof.
  induction d as [|[k' v'] d IH]; cbn [set values map snd In].
  - left. reflexivity.
  - destruct (eqb k' k); cbn [map snd In]; [left; reflexivity|right; exact IH].
Qed.

Lemma values_set_nodup (d : dict K V) (k : K) (v : V) :
  NoDup (values d) -> ~ In v (values d) -> NoDup (values (set eqb d k v)).
Proof.
  induction d as [|[k' v'] d IH]; cbn [set values map snd]; intros Hnd Hv.
  - repeat constructor. intros [].
  - inversion Hnd as [|? ? Hfresh Hnd']; subst.
    destruct (eqb k' k); cbn [map snd].
    + constructor; [|exact Hnd']. intro H. apply Hv. right. exact H.
    + constructor.
      * intro H. apply values_set_in in H. destruct H as [->|H].
        -- apply Hv. left. reflexivity.
        -- contradiction.
      * apply IH; [exact Hnd'|]. intro H. apply Hv. right. exact H.
Qed.

Lemma keys_set (d : dict K V) (k : K) (v : V) :
  keys (set eqb d k v)
  = if existsb (fun k' => eqb k' k) (keys d) then keys d else keys d ++ [k].
Proof.
  rewrite <- (mem_keys eqb). destruct (mem eqb d k) eqn:Hmem.
  - apply set_old_keys. exact Hmem.
  - rewrite (set_new eqb) by exact Hmem. unfold keys. rewrite map_app.
    reflexivity.
Qed.

Lemma get_in (d : dict K V) (k : K) (v : V) :
  get eqb d k = Some v -> In (k, v) d.
Proof.
  induction d as [|[k' v'] d IH]; cbn [get]; [discriminate|].
  destruct (eqb k' k) eqn:E.
  - intros [= ->]. apply eqb_spec in E. subst. left. reflexivity.
  - intro H. right. exact (IH H).
Qed.

Lemma get_some_in_keys (d : dict K V) (k : K) :
  get eqb d k <> None <-> In k (keys d).
Proof.
  rewrite <- (mem_in eqb eqb_spec). unfold mem.
  destruct (get eqb d k); split; congruence.
Qed.

End DictValues.

Section KeyNumbers.
Import PyDict Embeddings.

Lemma fold_max_le (l : list Z) (a m : Z) :
  a <= m -> Forall (fun x => x <= m) l -> fold_left Z.max l a <= m.
Proof.
  revert a. induction l as [|x l IH]; intros a Ha Hl; [exact Ha|].
  inversion Hl; subst. cbn [fold_left]. apply IH; [lia|assumption].
Qed.

Lemma fold_max_start (l : list Z) :
  forall a b, a <= b -> a <= fold_left Z.max l b.
Proof.
  induction l as [|y l IH]; intros a b Hab; cbn [fold_left]; [exact Hab|].
  apply IH. lia.
Qed.

Lemma fold_max_ge (l : list Z) (a x : Z) :
  In x (a :: l) -> x <= fold_left Z.max l a.
Proof.
  revert a. induction l as [|y l IH]; intros a Hin; cbn [fold_left].
  - destruct Hin as [->|[]]. lia.
  - destruct Hin as [Hx|[Hx|Hin]].
    + apply fold_max_start. lia.
    + apply fold_max_start. lia.
    + apply IH. right. exact Hin.
Qed.

(** Every key in the map is below the next key. *)
Lemma next_faiss_id_above (d : dict string Z) (v : Z) :
  In v (values d) -> v < next_faiss_id d.
Proof.
  unfold next_faiss_id. destruct (values d) as [|v0 vs]; [contradiction|].
  intro Hin. pose proof (fold_max_ge vs v0 v Hin). lia.
Qed.

Lemma next_faiss_id_exact (d : dict string Z) (m : Z) :
  In m (values d) -> (forall v, In v (values d) -> v <= m) ->
  next_faiss_id d = m + 1.
Proof.
  unfold next_faiss_id. destruct (values d) as [|v0 vs]; [contradiction|].
  intros Hin Hmax. f_equal. apply Z.le_antisymm.
  - apply fold_max_le; [apply Hmax; left; reflexivity|].
    apply Forall_forall. intros x Hx. apply Hmax. right. exact Hx.
  - apply fold_max_ge. exact Hin.
Qed.

Lemma index_after_values (new_chunks : list Chunk) :
  forall d next x,
    In x (values (index_after d new_chunks next)) ->
    In x (values d) \/
    (next <= x < next + Z.of_nat (List.length new_chunks)).
Proof.
  induction new_chunks as [|c rest IH]; intros d next x Hin; [left; exact Hin|].
  cbn [index_after] in Hin. apply IH in Hin. cbn [List.length].
  destruct Hin as [Hin|Hin]; [|right; lia].
  apply values_set_in in Hin. destruct Hin as [->|Hin]; [right; lia|left; exact Hin].
Qed.

Lemma index_after_nodup (new_chunks : list Chunk) :
  forall d next,
    NoDup (values d) -> (forall x, In x (values d) -> x < next) ->
    NoDup (values (index_after d new_chunks next)).
Proof.
  induction new_chunks as [|c rest IH]; intros d next Hnd Hlt; [exact Hnd|].
  cbn [index_after]. apply IH.
  - apply values_set_nodup; [exact Hnd|].
    intro H. specialize (Hlt _ H). lia.
  - intros x Hx. apply values_set_in in Hx.
    destruct Hx as [->|Hx]; [lia|]. specialize (Hlt _ Hx). lia.
Qed.

Lemma index_after_last_value (new_chunks : list Chunk) :
  forall d next,
    new_chunks <> [] ->
    In (next + Z.of_nat (List.length new_chunks) - 1)
       (values (index_after d new_chunks next)).
Proof.
  induction new_chunks as [|c rest IH]; intros d next Hne; [congruence|].
  cbn [index_after]. destruct rest as [|c' rest].
  - cbn [index_after List.length].
    replace (next + Z.of_nat 1 - 1) with next by lia. apply values_set_has.
  - replace (next + Z.of_nat (List.length (c :: c' :: rest)) - 1)
      with (next + 1 + Z.of_nat (List.length (c' :: rest)) - 1)
      by (cbn [List.length]; lia).
    apply IH. discriminate.
Qed.

(** The key an id ends up with is the one given to its last new chunk. *)
Lemma index_after_key (new_chunks : list Chunk) :
  forall d next k,
    In k (map c_id new_chunks) ->
    exists i c,
      nth_error new_chunks i = Some c /\ c_id c = k /\
      get String.eqb (index_after d new_chunks next) k
      = Some (next + Z.of_nat i) /\
      (forall j c', (i < j)%nat -> nth_error new_chunks j = Some c' ->
                    c_id c' <> k).
Proof.
  induction new_chunks as [|c0 rest IH]; intros d next k Hin; [contradiction|].
  cbn [index_after].
  destruct (in_dec string_dec k (map c_id rest)) as [Hrest|Hrest].
  - destruct (IH (set String.eqb d (c_id c0) next) (next + 1) k Hrest)
      as (i & c & Hi & Hc & Hget & Hlast).
    exists (S i), c. repeat split; auto.
    + rewrite Hget. f_equal. lia.
    + intros j c' Hj Hnth. destruct j as [|j]; [lia|].
      apply (Hlast j c'); [lia|exact Hnth].
  - destruct Hin as [Hk|Hin]; [|contradiction].
    exists 0%nat, c0. repeat split; auto.
    + rewrite index_after_other by exact Hrest. rewrite <- Hk.
      rewrite get_set_same by exact String.eqb_eq. f_equal. lia.
    + intros j c' Hj Hnth. destruct j as [|j]; [lia|].
      cbn [nth_error] in Hnth. intro Heq. apply Hrest. rewrite <- Heq.
      apply in_map. eapply nth_error_In. exact Hnth.
Qed.

Lemma sha_after_key (new_chunks : list Chunk) :
  forall d i c,
    nth_error new_chunks i = Some c ->
    (forall j c', (i < j)%nat -> nth_error new_chunks j = Some c' ->
                  c_id c' <> c_id c) ->
    get String.eqb (sha_after d new_chunks) (c_id c) = Some (c_sha c).
Proof.
  induction new_chunks as [|c0 rest IH]; intros d i c Hi Hlast;
    [destruct i; discriminate|].
  cbn [sha_after fold_left].
  fold (sha_after (set String.eqb d (c_id c0) (c_sha c0)) rest).
  destruct i as [|i]; cbn [nth_error] in Hi.
  - injection Hi as <-. rewrite sha_after_other.
    + apply get_set_same. exact String.eqb_eq.
    + intro Hin. apply in_map_iff in Hin. destruct Hin as (c' & Heq & Hc').
      apply In_nth_error in Hc'. destruct Hc' as [j Hj].
      apply (Hlast (S j) c'); [lia|exact Hj|exact Heq].
  - apply (IH _ i c Hi). intros j c' Hj Hnth.
    apply (Hlast (S j) c'); [lia|exact Hnth].
Qed.

Lemma keys_after (new_chunks : list Chunk) :
  forall (d1 : dict string Z) (d2 : dict string string) next,
    keys d1 = keys d2 ->
    keys (index_after d1 new_chunks next) = keys (sha_after d2 new_chunks).
Proof.
  induction new_chunks as [|c rest IH]; intros d1 d2 next Hk; [exact Hk|].
  cbn [index_after sha_after fold_left].
  fold (sha_after (set String.eqb d2 (c_id c) (c_sha c)) rest).
  apply IH. rewrite !(keys_set String.eqb), Hk. reflexivity.
Qed.

End KeyNumbers.

Section BuiltStates.
Import PyStr PyDict Embeddings Derived.
Variable vec : Type.
Variable sha_of_text : string -> string.
Variable normalize_L2 : vec -> vec.
Variable encode : string -> vec.

Local Abbreviation run := (main sha_of_text normalize_L2 (Some encode)).
Local Abbreviation select := (select_new_chunks sha_of_text).
Local Abbreviation ok := (consistent vec sha_of_text normalize_L2 encode).
Local Abbreviation vector := (emb vec normalize_L2 encode).

Lemma arange_app (start : Z) (n k : nat) :
  arange start (n + k) = arange start n ++ arange (start + Z.of_nat n) k.
Proof.
  revert start. induction n as [|n IH]; intro start.
  - replace (start + Z.of_nat 0) with start by lia. reflexivity.
  - cbn [Nat.add]. rewrite !arange_cons, IH. cbn [app].
    replace (start + 1 + Z.of_nat n) with (start + Z.of_nat (S n)) by lia.
    reflexivity.
Qed.

Lemma arange_length (start : Z) (n : nat) : List.length (arange start n) = n.
Proof. unfold arange. rewrite length_map, length_seq. reflexivity. Qed.

Lemma combine_append {A B : Type} (l1 l2 : list A) (m1 m2 : list B) :
  List.length l1 = List.length m1 ->
  combine (l1 ++ l2) (m1 ++ m2) = combine l1 m1 ++ combine l2 m2.
Proof.
  revert m1. induction l1 as [|a l1 IH]; intros [|b m1] Hlen;
    try discriminate; [reflexivity|].
  cbn. rewrite IH by (cbn in Hlen; lia). reflexivity.
Qed.

Lemma truthy_nonempty (o : option string) (k : string) :
  truthy o = Some k -> is_empty k = false.
Proof.
  unfold truthy. destruct o as [s|]; [|discriminate].
  destruct (is_empty s) eqn:E; [discriminate|]. intros [= <-]. exact E.
Qed.

Lemma select_valid (d : dict string string) (all_chunks : list FeedRecord) :
  Forall (fun c => is_empty (c_id c) = false /\
                   is_empty (c_text c) = false /\
                   c_sha c = sha_of_text (c_text c))
         (select d all_chunks).
Proof.
  induction all_chunks as [|r rest IH]; cbn [select_new_chunks]; [constructor|].
  destruct (truthy (rec_id r)) as [cid|] eqn:Hid;
    [|rewrite classify_skipped by auto; exact IH].
  destruct (truthy (rec_text r)) as [text|] eqn:Htext;
    [|rewrite classify_skipped by auto; exact IH].
  destruct (classify_valid sha_of_text d r cid text Hid Htext)
    as [[_ ->]|[_ ->]]; [exact IH|].
  constructor; [|exact IH]. cbn.
  repeat split; [eapply truthy_nonempty|eapply truthy_nonempty]; eassumption.
Qed.

Lemma load_readable (s : State vec) :
  index_file s <> CorruptIndex ->
  load_or_create s = (rows_of vec s, meta_file s, id_map_file s).
Proof.
  unfold load_or_create, rows_of. destruct (index_file s); congruence.
Qed.

Lemma consistent_empty : ok empty_state.
Proof.
  constructor; cbn; try reflexivity; try discriminate; try constructor.
  intros i c H. destruct i; discriminate.
Qed.

Lemma consistent_run (s : State vec) (all_chunks : list FeedRecord) :
  ok s -> ok (run s all_chunks).
Proof.
  intros Hs.
  destruct all_chunks as [|r0 rest0] eqn:Hfeed; [exact Hs|]. rewrite <- Hfeed.
  assert (Hne : all_chunks <> []) by (rewrite Hfeed; discriminate).
  clear Hfeed r0 rest0.
  destruct (select (sha_file s) all_chunks) as [|n0 new0] eqn:Hnew.
  - rewrite main_no_new by assumption.
    destruct Hs as [Hidx Hrows Hkeys Hnd Hnext Hkey Hlast Hval Hrev Hdict].
    constructor; cbn [index_file meta_file id_map_file sha_file
                      faiss_to_chunkid_file chunks_dict_file];
      try assumption.
    + intros rm [= <-]. reflexivity.
    + intros cd [= <-]. reflexivity.
  - rewrite main_new by congruence. rewrite Hnew.
    set (new := n0 :: new0) in *.
    assert (Hnew_ne : new <> []) by discriminate.
    pose proof (select_valid (sha_file s) all_chunks) as Hvalid.
    rewrite Hnew in Hvalid. clearbody new. clear Hnew n0 new0.
    destruct Hs as [Hidx Hrows Hkeys Hnd Hnext Hkey Hlast Hval Hrev Hdict].
    rewrite (load_readable s Hidx). rewrite Hnext.
    set (n := List.length (meta_file s)) in *.
    constructor; cbn [index_file meta_file id_map_file sha_file
                      faiss_to_chunkid_file chunks_dict_file rows_of].
    + discriminate.
    + rewrite Hrows, length_app, arange_app, map_app.
      rewrite combine_append
        by (rewrite arange_length, length_map; reflexivity).
      fold n. replace (1 + Z.of_nat n) with (Z.of_nat n + 1) by lia.
      reflexivity.
    + apply keys_after. exact Hkeys.
    + apply index_after_nodup; [exact Hnd|].
      intros x Hx. rewrite <- Hnext. apply next_faiss_id_above. exact Hx.
    + rewrite length_app. fold n.
      replace (Z.of_nat (n + List.length new) + 1)
        with ((Z.of_nat n + 1 + Z.of_nat (List.length new) - 1) + 1) by lia.
      apply next_faiss_id_exact; [apply index_after_last_value; exact Hnew_ne|].
      intros v Hv. apply index_after_values in Hv.
      destruct Hv as [Hv|Hv]; [|lia].
      apply next_faiss_id_above in Hv. lia.
    + intros k v Hget.
      destruct (in_dec string_dec k (map c_id new)) as [Hin|Hout].
      * destruct (index_after_key new (id_map_file s) (Z.of_nat n + 1) k Hin)
          as (i & c & Hi & Hc & Hget' & Hlater).
        rewrite Hget' in Hget. injection Hget as <-.
        split; [lia|]. exists c. repeat split; [|exact Hc|].
        -- replace (Z.to_nat (Z.of_nat n + 1 + Z.of_nat i - 1))
             with (n + i)%nat by lia.
           rewrite nth_error_app2 by (fold n; lia). fold n.
           replace (n + i - n)%nat with i by lia. exact Hi.
        -- rewrite <- Hc. apply (sha_after_key new _ i c Hi).
           intros j c' Hj Hnth. rewrite Hc. apply (Hlater j c' Hj Hnth).
      * rewrite index_after_other in Hget by exact Hout.
        destruct (Hkey k v Hget) as (Hpos & c & Hnth & Hc & Hsha).
        split; [exact Hpos|]. exists c. repeat split; [|exact Hc|].
        -- rewrite nth_error_app1; [exact Hnth|].
           apply nth_error_Some. congruence.
        -- rewrite sha_after_other by exact Hout. exact Hsha.
    + intros i c Hnth.
      destruct (in_dec string_dec (c_id c) (map c_id new)) as [Hin|Hout].
      * destruct (index_after_key new (id_map_file s) (Z.of_nat n + 1)
                                  (c_id c) Hin)
          as (i0 & c0 & Hi0 & Hc0 & Hget' & Hlater).
        exists (Z.of_nat n + 1 + Z.of_nat i0). split; [exact Hget'|].
        destruct (Nat.lt_ge_cases i n) as [Hlt|Hge]; [lia|].
        rewrite nth_error_app2 in Hnth by (fold n; lia). fold n in Hnth.
        destruct (Nat.lt_ge_cases i0 (i - n)) as [Hbehind|Hfine]; [|lia].
        exfalso. exact (Hlater (i - n)%nat c Hbehind Hnth eq_refl).
      * assert (Hold : nth_error (meta_file s) i = Some c).
        { destruct (Nat.lt_ge_cases i n) as [Hlt|Hge].
          - rewrite nth_error_app1 in Hnth by (fold n; lia). exact Hnth.
          - rewrite nth_error_app2 in Hnth by (fold n; lia).
            exfalso. apply Hout. apply in_map. eapply nth_error_In.
            exact Hnth. }
        destruct (Hlast i c Hold) as (v & Hget & Hle).
        exists v. split; [|exact Hle].
        rewrite index_after_other by exact Hout. exact Hget.
    + apply Forall_app. split; [exact Hval|exact Hvalid].
    + intros rm [= <-]. reflexivity.
    + intros cd [= <-]. reflexivity.
Qed.

(** Every state reached from an empty directory is consistent. *)
Lemma built_consistent (s : State vec) :
  built vec sha_of_text normalize_L2 encode s -> ok s.
Proof.
  induction 1 as [|s all_chunks _ IH];
    [apply consistent_empty|apply consistent_run; exact IH].
Qed.

End BuiltStates.

Section LatestRecord.
Import PyStr PyDict Embeddings Derived.

Lemma find_append {A : Type} (p : A -> bool) (a b : list A) :
  find p (a ++ b)
  = match find p a with Some x => Some x | None => find p b end.
Proof.
  induction a as [|x a IH]; [reflexivity|].
  cbn [app find]. destruct (p x); [reflexivity|exact IH].
Qed.

Lemma find_absent {A : Type} (p : A -> bool) (l : list A) :
  (forall x, In x l -> p x = false) -> find p l = None.
Proof.
  induction l as [|x l IH]; intro H; [reflexivity|].
  cbn [find]. rewrite (H x) by (left; reflexivity).
  apply IH. intros y Hy. apply H. right. exact Hy.
Qed.

Lemma chunk_dict_fold (k : string) (saved_chunks : list Chunk) :
  forall acc,
    get String.eqb
        (fold_left (fun acc c => set String.eqb acc (c_id c) c)
                   saved_chunks acc) k
    = match latest k saved_chunks with
      | Some c => Some c
      | None => get String.eqb acc k
      end.
Proof.
  unfold latest.
  induction saved_chunks as [|c rest IH]; intro acc; [reflexivity|].
  cbn [fold_left rev]. rewrite IH, find_append. cbn [find].
  destruct (find _ (rev rest)); [reflexivity|].
  destruct (String.eqb (c_id c) k) eqn:E.
  - apply String.eqb_eq in E. subst k.
    apply get_set_same. exact String.eqb_eq.
  - apply String.eqb_neq in E.
    apply get_set_other; [exact String.eqb_eq|exact E].
Qed.

Lemma chunk_dict_get (saved_chunks : list Chunk) (k : string) :
  get String.eqb (chunk_dict saved_chunks) k = latest k saved_chunks.
Proof.
  unfold chunk_dict. rewrite chunk_dict_fold.
  destruct (latest k saved_chunks); reflexivity.
Qed.

(** X10.  [chunks_dict.json] maps a chunk id to the record of that id
    saved last, and has no entry for an id no saved record carries: after
    a text change it serves the new version. *)
Theorem chunk_dict_serves_latest :
  forall (saved_chunks : list Chunk) (k : string),
    get String.eqb (chunk_dict saved_chunks) k = latest k saved_chunks.
Proof. intros saved k. apply chunk_dict_get. Qed.

Lemma latest_at (saved_chunks : list Chunk) (k : string) (j : nat)
    (c : Chunk) :
  nth_error saved_chunks j = Some c -> c_id c = k ->
  (forall i c', (j < i)%nat -> nth_error saved_chunks i = Some c' ->
                c_id c' <> k) ->
  latest k saved_chunks = Some c.
Proof.
  intros Hnth Hc Hlater. unfold latest.
  destruct (nth_error_split _ _ Hnth) as (l1 & l2 & -> & Hlen).
  rewrite rev_app_distr. cbn [rev]. rewrite <- app_assoc, find_append.
  replace (find _ (rev l2)) with (@None Chunk).
  - cbn [app find]. rewrite Hc, String.eqb_refl. reflexivity.
  - symmetry. apply find_absent. intros x Hx. apply in_rev in Hx.
    apply In_nth_error in Hx. destruct Hx as [i Hi].
    apply String.eqb_neq. apply (Hlater (j + 1 + i)%nat x); [lia|].
    rewrite nth_error_app2 by lia.
    replace (j + 1 + i - List.length l1)%nat with (S i) by lia. exact Hi.
Qed.

Lemma reverse_map_fold (m : dict string Z) :
  forall (acc : dict Z string) (k : string) (v : Z),
    NoDup (values m) -> In (k, v) m ->
    get Z.eqb
        (fold_left (fun acc kv => set Z.eqb acc (snd kv) (fst kv)) m acc) v
    = Some k.
Proof.
  assert (Hother : forall (m : dict string Z) acc v,
             ~ In v (values m) ->
             get Z.eqb
                 (fold_left (fun acc kv => set Z.eqb acc (snd kv) (fst kv))
                            m acc) v
             = get Z.eqb acc v).
  { clear m. induction m as [|[k0 v0] m IH]; intros acc v Hv; [reflexivity|].
    cbn [fold_left fst snd]. rewrite IH.
    - apply get_set_other; [exact Z.eqb_eq|].
      intros ->. apply Hv. left. reflexivity.
    - intro H. apply Hv. right. exact H. }
  induction m as [|[k0 v0] m IH]; intros acc k v Hnd Hin; [contradiction|].
  cbn [values map snd] in Hnd. inversion Hnd as [|? ? Hfresh Hnd']; subst.
  cbn [fold_left fst snd]. destruct Hin as [[= -> ->]|Hin].
  - rewrite Hother by exact Hfresh. apply get_set_same. exact Z.eqb_eq.
  - apply IH; assumption.
Qed.

(** Looking a key up in the reverse map gives back its chunk id. *)
Lemma reverse_map_inverts (m : dict string Z) (k : string) (v : Z) :
  NoDup (values m) -> get String.eqb m k = Some v ->
  get Z.eqb (reverse_map m) v = Some k.
Proof.
  intros Hnd Hget. apply reverse_map_fold; [exact Hnd|].
  apply (get_in String.eqb String.eqb_eq). exact Hget.
Qed.

End LatestRecord.

Section BuiltProperties.
Import PyStr PyDict Embeddings Retrieval QueryEngine Derived.
Variable vec : Type.
Variable sha_of_text : string -> string.
Variable normalize_L2 : vec -> vec.
Variable encode : string -> vec.

Local Abbreviation reached := (built vec sha_of_text normalize_L2 encode).
Local Abbreviation vector := (emb vec normalize_L2 encode).

Lemma nth_numbered {A B : Type} (f : A -> B) (l : list A) :
  forall start j x,
    nth_error l j = Some x ->
    nth_error (combine (arange start (List.length l)) (map f l)) j
    = Some (start + Z.of_nat j, f x).
Proof.
  induction l as [|a l IH]; intros start j x Hj; [destruct j; discriminate|].
  cbn [List.length]. rewrite arange_cons. cbn [map combine].
  destruct j as [|j]; cbn [nth_error] in *.
  - injection Hj as ->. do 2 f_equal. lia.
  - rewrite (IH _ j x Hj). do 2 f_equal. lia.
Qed.

(** In a built state the key of an id leads to the latest record of it. *)
Lemma key_position (s : State vec) (k : string) (v : Z) :
  reached s -> get String.eqb (id_map_file s) k = Some v ->
  1 <= v /\
  exists c,
    nth_error (meta_file s) (Z.to_nat (v - 1)) = Some c /\ c_id c = k /\
    latest k (meta_file s) = Some c /\
    get String.eqb (sha_file s) k = Some (sha_of_text (c_text c)) /\
    is_empty k = false.
Proof.
  intros Hs Hget. apply built_consistent in Hs.
  destruct (cons_key _ _ _ _ _ Hs k v Hget) as (Hpos & c & Hnth & Hc & Hsha).
  pose proof (proj1 (Forall_forall _ _) (cons_valid _ _ _ _ _ Hs) c
                    (nth_error_In _ _ Hnth)) as (Hid & _ & Hhash).
  split; [exact Hpos|]. exists c. repeat split; auto.
  - apply (latest_at _ _ _ _ Hnth Hc). intros i c' Hi Hnth' Hc'.
    destruct (cons_last _ _ _ _ _ Hs i c' Hnth') as (v' & Hget' & Hle).
    rewrite Hc', Hget in Hget'. injection Hget' as <-. lia.
  - rewrite Hsha, Hhash. reflexivity.
  - rewrite <- Hc. exact Hid.
Qed.

(** X7.  Whatever feeds were built from an empty directory, the vector
    index and the passage list stay aligned: row [i] of the index has key
    [i + 1] and the vector of passage [i]; and the surrogate key [v] of a
    chunk id [k] is the key of the row, at position [v - 1], that holds
    the vector of the latest stored record of [k]. *)
Theorem index_rows_follow_passage_list :
  forall (s : State vec) (k : string) (v : Z),
    reached s ->
    rows_of vec s
    = combine (arange 1 (List.length (meta_file s)))
              (map (fun c => normalize_L2 (encode (c_text c))) (meta_file s)) /\
    (get String.eqb (id_map_file s) k = Some v ->
     exists c,
       latest k (meta_file s) = Some c /\
       nth_error (meta_file s) (Z.to_nat (v - 1)) = Some c /\
       nth_error (rows_of vec s) (Z.to_nat (v - 1))
       = Some (v, normalize_L2 (encode (c_text c)))).
Proof.
  intros s k v Hs. pose proof (built_consistent _ _ _ _ _ Hs) as Hok.
  split; [exact (cons_rows _ _ _ _ _ Hok)|].
  intro Hget.
  destruct (key_position s k v Hs Hget)
    as (Hpos & c & Hnth & _ & Hlatest & _).
  exists c. repeat split; auto.
  rewrite (cons_rows _ _ _ _ _ Hok).
  rewrite (nth_numbered vector _ 1 _ c Hnth). unfold emb.
  do 2 f_equal. lia.
Qed.

(** X8.  In every state built from an empty directory the three id maps
    agree: an id has a surrogate key exactly when it has a fingerprint
    (the two maps list the same ids in the same order), the reverse map
    leads from the key of an id back to the id, and the fingerprint stored
    for an id is the hash of the text of its latest stored record. *)
Theorem id_maps_agree :
  forall (s : State vec) (k : string) (v : Z) (rm : dict Z string),
    reached s ->
    keys (id_map_file s) = keys (sha_file s) /\
    (get String.eqb (id_map_file s) k = Some v ->
     (faiss_to_chunkid_file s = Some rm -> get Z.eqb rm v = Some k) /\
     exists c, latest k (meta_file s) = Some c /\
               get String.eqb (sha_file s) k
               = Some (sha_of_text (c_text c))).
Proof.
  intros s k v rm Hs. pose proof (built_consistent _ _ _ _ _ Hs) as Hok.
  split; [exact (cons_keys _ _ _ _ _ Hok)|].
  intro Hget. split.
  - intro Hrm. rewrite (cons_reverse _ _ _ _ _ Hok rm Hrm).
    apply reverse_map_inverts; [exact (cons_nodup _ _ _ _ _ Hok)|exact Hget].
  - destruct (key_position s k v Hs Hget)
      as (_ & c & _ & _ & Hlatest & Hsha & _).
    exists c. auto.
Qed.

(** X9.  On the fallback path of [retrieve] a neighbour id is answered
    with the passage it belongs to: in a state built from an empty
    directory, the surrogate key of a chunk id, taken through
    [faiss_to_chunkid.json] and [chunks_dict.json], yields the latest
    stored record of that id. *)
Theorem fallback_returns_keyed_passage :
  forall (s : State vec) (k : string) (v : Z)
         (rm : dict Z string) (cd : dict string Chunk),
    reached s ->
    get String.eqb (id_map_file s) k = Some v ->
    faiss_to_chunkid_file s = Some rm ->
    chunks_dict_file s = Some cd ->
    exists c,
      latest k (meta_file s) = Some c /\
      fallback_hits rm cd [v] = [stored_hit c].
Proof.
  intros s k v rm cd Hs Hget Hrm Hcd.
  pose proof (built_consistent _ _ _ _ _ Hs) as Hok.
  destruct (key_position s k v Hs Hget)
    as (Hpos & c & _ & _ & Hlatest & _ & Hk).
  exists c. split; [exact Hlatest|].
  cbn [fallback_hits].
  replace (v =? -1) with false by (symmetry; apply Z.eqb_neq; lia).
  rewrite (cons_reverse _ _ _ _ _ Hok rm Hrm).
  rewrite (reverse_map_inverts _ k v (cons_nodup _ _ _ _ _ Hok) Hget).
  rewrite Hk, (cons_dict _ _ _ _ _ Hok cd Hcd).
  rewrite chunk_dict_get, Hlatest. reflexivity.
Qed.

End BuiltProperties.

Section BuiltInstance.
Import PyStr PyDict Embeddings Retrieval QueryEngine Derived Fixtures.

Lemma two_passages_built :
  built string text_sha (fun v => v) text_vec
        (build empty_state [rec_a; rec_b]).
Proof. apply built_run, built_empty. Qed.

Lemma index_rows_follow_passage_list_witness :
  let s := build empty_state [rec_a; rec_b] in
  rows_of string s
  = combine (arange 1 (List.length (meta_file s)))
            (map (fun c => text_vec (c_text c)) (meta_file s)) /\
  exists c,
    latest "a" (meta_file s) = Some c /\
    nth_error (meta_file s) (Z.to_nat (1 - 1)) = Some c /\
    nth_error (rows_of string s) (Z.to_nat (1 - 1))
    = Some (1, text_vec (c_text c)).
Proof.
  intro s.
  destruct (index_rows_follow_passage_list string text_sha (fun v => v)
              text_vec s "a" 1 two_passages_built) as [Hrows Hkey].
  split; [exact Hrows|]. apply Hkey. reflexivity.
Defined.

Lemma id_maps_agree_witness :
  let s := build empty_state [rec_a; rec_b] in
  keys (id_map_file s) = keys (sha_file s) /\
  get Z.eqb (reverse_map (id_map_file s)) 1 = Some "a" /\
  exists c, latest "a" (meta_file s) = Some c /\
            get String.eqb (sha_file s) "a" = Some (text_sha (c_text c)).
Proof.
  intro s.
  destruct (id_maps_agree string text_sha (fun v => v) text_vec s "a" 1
              (reverse_map (id_map_file s)) two_passages_built)
    as [Hkeys Hkey].
  split; [exact Hkeys|].
  destruct (Hkey eq_refl) as [Hrev Hsha].
  split; [apply Hrev; reflexivity|exact Hsha].
Defined.

Lemma fallback_returns_keyed_passage_witness :
  let s := build empty_state [rec_a; rec_b] in
  exists c,
    latest "b" (meta_file s) = Some c /\
    fallback_hits (reverse_map (id_map_file s)) (chunk_dict (meta_file s)) [2]
    = [stored_hit c].
Proof.
  intro s.
  apply (fallback_returns_keyed_passage string text_sha (fun v => v) text_vec
           s "b" 2 _ _ two_passages_built); reflexivity.
Defined.

End BuiltInstance.

Section RunEffects.
Import PyStr PyDict Embeddings Derived.
Variable vec : Type.
Variable sha_of_text : string -> string.
Variable normalize_L2 : vec -> vec.
Variable encode : string -> vec.

Local Abbreviation run := (main sha_of_text normalize_L2 (Some encode)).
Local Abbreviation select := (select_new_chunks sha_of_text).

Lemma value_of_key (d : dict string Z) (k : string) (v : Z) :
  get String.eqb d k = Some v -> In v (values d).
Proof.
  intro H. apply (get_in String.eqb String.eqb_eq) in H.
  unfold values. apply in_map_iff. exists (k, v). auto.
Qed.

Lemma arange_in (start : Z) (n : nat) (v : Z) :
  In v (arange start n) -> start <= v < start + Z.of_nat n.
Proof.
  unfold arange. intro H. apply in_map_iff in H.
  destruct H as (i & <- & Hi). apply in_seq in Hi. lia.
Qed.

Lemma arange_nodup (n : nat) : forall start, NoDup (arange start n).
Proof.
  induction n as [|n IH]; intro start; [constructor|].
  rewrite arange_cons. constructor; [|apply IH].
  intro H. apply arange_in in H. lia.
Qed.

Lemma keys_of_combine {A B : Type} (l : list A) :
  forall m : list B,
    List.length l = List.length m -> map fst (combine l m) = l.
Proof.
  induction l as [|a l IH]; intros [|b m] Hlen; try discriminate;
    [reflexivity|].
  cbn [combine map fst]. rewrite IH; [reflexivity|].
  cbn [List.length] in Hlen. lia.
Qed.

Lemma built_row_keys (s : State vec) :
  built vec sha_of_text normalize_L2 encode s ->
  map fst (rows_of vec s) = arange 1 (List.length (meta_file s)).
Proof.
  intro Hb.
  rewrite (cons_rows _ _ _ _ _
             (built_consistent vec sha_of_text normalize_L2 encode s Hb)).
  apply keys_of_combine. rewrite arange_length, length_map. reflexivity.
Qed.

(** X11.  Surrogate keys are not reused in a directory the builder has
    built from empty.  In every state reached from an empty directory,
    each chunk a run embeds gets a key greater than every key of the key
    map and greater than the key of every row the vector index already
    holds; so after the run, too, no two rows of the index share a key. *)
Theorem new_keys_exceed_old_keys :
  forall (s : State vec) (all_chunks : list FeedRecord) (c : Chunk),
    built vec sha_of_text normalize_L2 encode s ->
    In c (select (sha_file s) all_chunks) ->
    let s' := run s all_chunks in
    exists v',
      get String.eqb (id_map_file s') (c_id c) = Some v' /\
      (forall k v, get String.eqb (id_map_file s) k = Some v -> v < v') /\
      (forall row, In row (rows_of vec s) -> fst row < v') /\
      NoDup (map fst (rows_of vec s')).
Proof.
  intros s all_chunks c Hb Hc s'.
  pose proof (built_consistent vec sha_of_text normalize_L2 encode s Hb)
    as Hs.
  pose proof (cons_index _ _ _ _ _ Hs) as Hidx.
  pose proof (cons_next _ _ _ _ _ Hs) as Hnext.
  assert (Hne : select (sha_file s) all_chunks <> [])
    by (intro H; rewrite H in Hc; contradiction).
  destruct (index_after_key (select (sha_file s) all_chunks) (id_map_file s)
              (next_faiss_id (id_map_file s)) (c_id c) (in_map c_id _ _ Hc))
    as (i & c0 & _ & _ & Hget' & _).
  exists (next_faiss_id (id_map_file s) + Z.of_nat i).
  split; [|split; [|split]].
  - unfold s'. rewrite main_new by exact Hne.
    rewrite (load_readable vec s Hidx). cbn [id_map_file]. exact Hget'.
  - intros k v Hget.
    pose proof (next_faiss_id_above _ _ (value_of_key _ _ _ Hget)). lia.
  - intros row Hrow. apply (in_map fst) in Hrow.
    rewrite (built_row_keys s Hb) in Hrow. apply arange_in in Hrow. lia.
  - rewrite (built_row_keys s' (built_run _ _ _ _ s all_chunks Hb)).
    apply arange_nodup.
Qed.

Lemma sha_after_keeps (new_chunks : list Chunk) :
  forall d k,
    get String.eqb d k <> None ->
    get String.eqb (sha_after d new_chunks) k <> None.
Proof.
  induction new_chunks as [|c rest IH]; intros d k Hk; [exact Hk|].
  cbn [sha_after fold_left].
  fold (sha_after (set String.eqb d (c_id c) (c_sha c)) rest).
  apply IH. destruct (string_dec (c_id c) k) as [<-|Hne].
  - rewrite get_set_same by exact String.eqb_eq. discriminate.
  - rewrite get_set_other by (exact String.eqb_eq || exact Hne). exact Hk.
Qed.

(** X12.  A run removes nothing it could keep.  Whatever the model, the
    feed and the state of the index file, an id that has a fingerprint
    keeps one; and unless the index file is unreadable, the passage list
    and the rows of the index only grow at their end, by as many rows as
    passages. *)
Theorem run_only_appends :
  forall (model : option (string -> vec)) (s : State vec)
         (all_chunks : list FeedRecord) (k : string),
    let s' := main sha_of_text normalize_L2 model s all_chunks in
    (get String.eqb (sha_file s) k <> None ->
     get String.eqb (sha_file s') k <> None) /\
    (index_file s <> CorruptIndex ->
     exists passages rows,
       meta_file s' = meta_file s ++ passages /\
       rows_of vec s' = rows_of vec s ++ rows /\
       List.length rows = List.length passages).
Proof.
  intros model s all_chunks k s'.
  assert (Hsame : s' = s ->
            (get String.eqb (sha_file s) k <> None ->
             get String.eqb (sha_file s') k <> None) /\
            (index_file s <> CorruptIndex ->
             exists passages rows,
               meta_file s' = meta_file s ++ passages /\
               rows_of vec s' = rows_of vec s ++ rows /\
               List.length rows = List.length passages)).
  { intros ->. split; [auto|]. intros _. exists [], [].
    rewrite !app_nil_r. auto. }
  destruct model as [enc|]; [|apply Hsame; reflexivity].
  destruct all_chunks as [|r0 rest0]; [apply Hsame; reflexivity|].
  clear Hsame. subst s'.
  assert (Hne : r0 :: rest0 <> []) by discriminate.
  revert Hne. generalize (r0 :: rest0). clear r0 rest0.
  intros all_chunks Hne.
  destruct (select_new_chunks sha_of_text (sha_file s) all_chunks)
    as [|n0 new0] eqn:Hnew.
  - rewrite main_no_new by assumption. cbn [sha_file meta_file].
    split; [auto|]. intros _. exists [], []. rewrite !app_nil_r. auto.
  - rewrite main_new by congruence. rewrite Hnew. split.
    + destruct (load_or_create s) as [[rows saved] idx]. cbn [sha_file].
      apply sha_after_keeps.
    + intro Hidx. rewrite (load_readable vec s Hidx).
      cbn [meta_file rows_of index_file].
      eexists. eexists. split; [reflexivity|]. split; [reflexivity|].
      rewrite length_combine, arange_length, length_map. lia.
Qed.

Lemma whoosh_complete (docs : list (string * string))
    (saved_chunks : list Chunk) (c : Chunk) :
  In c saved_chunks ->
  In (c_id c) (map fst (whoosh_stage docs saved_chunks)).
Proof.
  intro Hc. unfold whoosh_stage. rewrite map_app, map_map. cbn [fst].
  destruct (existsb (String.eqb (c_id c)) (map fst docs)) eqn:E.
  - apply existsb_exists in E. destruct E as (k & Hk & Hkc).
    apply String.eqb_eq in Hkc. subst k. apply in_or_app. left. exact Hk.
  - apply in_or_app. right. apply in_map_iff. exists c. split; [reflexivity|].
    apply filter_In. split; [exact Hc|]. rewrite E. reflexivity.
Qed.

(** X13.  The lexical catch-up of a completed run: afterwards every
    record of the passage list has its id in the lexical index, the
    documents that were there are kept as they are, and no document is
    added under an id that was already there, so the text indexed for
    such an id is never refreshed. *)
Theorem lexical_index_catches_up :
  forall (s : State vec) (all_chunks : list FeedRecord)
         (c : Chunk) (k : string),
    all_chunks <> [] ->
    let s' := run s all_chunks in
    (In c (meta_file s') -> In (c_id c) (map fst (docs_of s'))) /\
    exists added,
      docs_of s' = docs_of s ++ added /\
      (In k (map fst (docs_of s)) -> ~ In k (map fst added)).
Proof.
  intros s all_chunks c k Hne s'.
  destruct (main_shape vec sha_of_text normalize_L2 encode s all_chunks Hne)
    as (_ & Hwh & _).
  change (main sha_of_text normalize_L2 (Some encode) s all_chunks)
    with s' in Hwh.
  assert (Hdocs : docs_of s' = whoosh_stage (docs_of s) (meta_file s'))
    by (unfold docs_of at 1; rewrite Hwh; reflexivity).
  split.
  - intro Hc. rewrite Hdocs. apply whoosh_complete. exact Hc.
  - rewrite Hdocs. unfold whoosh_stage. eexists. split; [reflexivity|].
    intros Hk Hadded. rewrite map_map in Hadded. cbn [fst] in Hadded.
    apply in_map_iff in Hadded. destruct Hadded as (c' & <- & Hc').
    apply filter_In in Hc'. destruct Hc' as [_ Hnew].
    apply negb_true_iff in Hnew.
    assert (existsb (String.eqb (c_id c')) (map fst (docs_of s)) = true).
    { apply existsb_exists. exists (c_id c').
      split; [exact Hk|apply String.eqb_refl]. }
    congruence.
Qed.

Lemma batch_sizes (fuel : nat) :
  forall texts,
    Forall (fun b : list vec =>
              (1 <= List.length b <= BATCH_SIZE)%nat)
           (encode_batches encode fuel texts).
Proof.
  induction fuel as [|fuel IH]; intro texts; [constructor|].
  destruct texts as [|t texts]; [constructor|].
  cbn [encode_batches]. constructor; [|apply IH].
  rewrite length_map, length_firstn. unfold BATCH_SIZE.
  cbn [List.length]. lia.
Qed.

Lemma batch_count (fuel : nat) :
  forall texts,
    (List.length texts <= fuel)%nat ->
    List.length (encode_batches encode fuel texts)
    = ((List.length texts + 31) / 32)%nat.
Proof.
  induction fuel as [|fuel IH]; intros texts Hlen.
  - destruct texts; [reflexivity|cbn in Hlen; lia].
  - destruct texts as [|t texts]; [reflexivity|].
    cbn [encode_batches List.length]. rewrite IH.
    + unfold BATCH_SIZE. rewrite length_skipn.
      cbn [List.length]. 
      destruct (Nat.le_gt_cases 31 (List.length texts)) as [Hbig|Hsmall].
      * replace (S (List.length texts) + 31)%nat
          with ((S (List.length texts) - 32 + 31) + 1 * 32)%nat by lia.
        rewrite Nat.div_add by lia. lia.
      * replace (S (List.length texts) - 32)%nat with 0%nat by lia.
        rewrite (Nat.div_small (0 + 31)) by lia.
        apply (Nat.div_unique _ _ 1%nat (List.length texts)); lia.
    + unfold BATCH_SIZE. rewrite length_skipn. cbn [List.length] in *. lia.
Qed.

(** X14.  The embedding loop cuts the texts into [ceil(n / 32)] batches of
    1 to 32 texts and loses none: put together, the batches are the texts
    encoded one by one, in order. *)
Theorem batches_cover_the_texts :
  forall (texts_to_embed : list string),
    let batches :=
      encode_batches encode (List.length texts_to_embed) texts_to_embed in
    Forall (fun b => (1 <= List.length b <= BATCH_SIZE)%nat) batches /\
    List.length batches = ((List.length texts_to_embed + 31) / 32)%nat /\
    List.concat batches = map encode texts_to_embed.
Proof.
  intros texts batches. split; [apply batch_sizes|]. split.
  - apply batch_count. lia.
  - apply encode_batches_concat. lia.
Qed.

End RunEffects.

Section RunEffectsInstance.
Import PyStr PyDict Embeddings Derived Fixtures.

Lemma one_passage_built :
  built string text_sha (fun v => v) text_vec (build empty_state [rec_a]).
Proof. apply built_run, built_empty. Qed.

Lemma new_keys_exceed_old_keys_witness :
  let s := build empty_state [rec_a] in
  let s' := build s [rec_a; rec_b] in
  exists v',
    get String.eqb (id_map_file s') "b" = Some v' /\
    1 < v' /\
    NoDup (map fst (rows_of string s')).
Proof.
  intros s s'.
  destruct (new_keys_exceed_old_keys string text_sha (fun v => v) text_vec
              s [rec_a; rec_b]
              {| c_id := "b"; c_doc_id := Some "doc"; c_text := "y";
                 c_word_count := Some 1; c_sha := "y" |}
              one_passage_built)
    as (v' & Hget & Hmap & _ & Hnd).
  - vm_compute. left. reflexivity.
  - exists v'. split; [exact Hget|]. split; [|exact Hnd].
    apply (Hmap "a" 1). reflexivity.
Defined.

(** Outside the built states the keys can repeat: with a readable index
    whose key map was lost, numbering starts again at 1 and the index gets
    a second row under key 1. *)
Remark lost_key_map_repeats_a_key :
  let s := {| index_file := StoredIndex [(1, "x")];
              meta_file := meta_file (build empty_state [rec_a]);
              id_map_file := []; sha_file := [];
              whoosh_dir := Some [("a", "x")];
              faiss_to_chunkid_file := None; chunks_dict_file := None;
              pkl_cache := false |} in
  index_file (build s [rec_b]) = StoredIndex [(1, "x"); (1, "y")].
Proof. vm_compute. reflexivity. Qed.

Lemma run_only_appends_witness :
  let s := build empty_state [rec_a] in
  let s' := build s [rec_a; rec_b] in
  get String.eqb (sha_file s') "a" <> None /\
  exists passages rows,
    meta_file s' = meta_file s ++ passages /\
    rows_of string s' = rows_of string s ++ rows /\
    List.length rows = List.length passages.
Proof.
  intros s s'.
  destruct (run_only_appends string text_sha (fun v => v) (Some text_vec)
              s [rec_a; rec_b] "a") as [Hsha Hrows].
  split.
  - apply Hsha. vm_compute. discriminate.
  - apply Hrows. vm_compute. discriminate.
Defined.

Lemma lexical_index_catches_up_witness :
  let s := build empty_state [rec_a] in
  let s' := build s [rec_a'; rec_b] in
  (forall c, In c (meta_file s') -> In (c_id c) (map fst (docs_of s'))) /\
  exists added,
    docs_of s' = docs_of s ++ added /\ ~ In "a" (map fst added).
Proof.
  intros s s'.
  assert (Hne : [rec_a'; rec_b] <> []) by discriminate.
  split.
  - intro c.
    exact (proj1 (lexical_index_catches_up string text_sha (fun v => v)
                    text_vec s [rec_a'; rec_b] c "a" Hne)).
  - destruct (lexical_index_catches_up string text_sha (fun v => v)
                text_vec s [rec_a'; rec_b]
                {| c_id := "a"; c_doc_id := None; c_text := "";
                   c_word_count := None; c_sha := "" |} "a" Hne)
      as [_ (added & Hdocs & Hkeep)].
    exists added. split; [exact Hdocs|]. apply Hkeep.
    vm_compute. left. reflexivity.
Defined.

End RunEffectsInstance.

Section Hydration.
Import PyStr PyDict Embeddings Retrieval.

Lemma getitem_none {A : Type} (l : list A) (i : Z) :
  getitem l i = None
  <-> i < - Z.of_nat (List.length l) \/ Z.of_nat (List.length l) <= i.
Proof.
  unfold getitem. destruct (i <? 0) eqn:Hneg.
  - apply Z.ltb_lt in Hneg.
    destruct (0 <=? Z.of_nat (List.length l) + i) eqn:Hin.
    + apply Z.leb_le in Hin. rewrite nth_error_None. lia.
    + apply Z.leb_gt in Hin. split; [lia|reflexivity].
  - apply Z.ltb_ge in Hneg. rewrite nth_error_None. lia.
Qed.

Lemma getitem_in {A : Type} (l : list A) (i : Z) (x : A) :
  getitem l i = Some x -> In x l.
Proof.
  unfold getitem.
  destruct (i <? 0); [destruct (0 <=? _); [|discriminate]|];
    apply nth_error_In.
Qed.

Lemma getitem_position {A : Type} (l : list A) (i : Z) :
  0 <= i -> getitem l i = nth_error l (Z.to_nat i).
Proof.
  intro Hpos. unfold getitem.
  replace (i <? 0) with false by (symmetry; apply Z.ltb_ge; lia).
  reflexivity.
Qed.

Lemma faiss_hits_step (metadata : list Chunk) (idx : Z) (rest : list Z) :
  faiss_hits metadata (idx :: rest)
  = if negb (idx =? -1) && (idx <? Z.of_nat (List.length metadata))
    then match getitem metadata idx with
         | None => None
         | Some c => option_map (cons (vector_hit c)) (faiss_hits metadata rest)
         end
    else faiss_hits metadata rest.
Proof. reflexivity. Qed.

(** X15.  The hydration loop of the semantic path.  It raises exactly when
    the index hands back an id other than -1 that lies below
    [-len(metadata)]: ids at or above the length are skipped, and the
    negative ids down to [-len(metadata)] are answered from the end of the
    list.  When it returns, every hit is the tagged copy of a stored
    record and there is at most one per id; for ids from -1 upwards, as
    an index search produces them, it always returns, with the records at
    the positions of the ids that are in range, in order. *)
Theorem hydration_raises_only_below_range :
  forall (metadata : list Chunk) (I : list Z),
    (faiss_hits metadata I = None
     <-> Exists (fun idx => idx <> -1 /\
                            idx < - Z.of_nat (List.length metadata)) I) /\
    (forall hits,
       faiss_hits metadata I = Some hits ->
       (List.length hits <= List.length I)%nat /\
       Forall (fun h => exists c, In c metadata /\ h = vector_hit c) hits) /\
    (Forall (fun idx => -1 <= idx) I ->
     faiss_hits metadata I
     = Some (flat_map
               (fun idx =>
                  if idx <? 0 then []
                  else match nth_error metadata (Z.to_nat idx) with
                       | Some c => [vector_hit c]
                       | None => []
                       end) I)).
Proof.
  intros metadata I. induction I as [|idx rest (IHnone & IHsome & IHpos)].
  - split; [|split].
    + cbn. split; [discriminate|]. intro H. inversion H.
    + intros hits [= <-]. split; [cbn; lia|constructor].
    + reflexivity.
  - rewrite faiss_hits_step.
    destruct (negb (idx =? -1) && (idx <? Z.of_nat (List.length metadata)))
      eqn:Hguard.
    + apply andb_true_iff in Hguard. destruct Hguard as [Hm1 Hlt].
      apply negb_true_iff, Z.eqb_neq in Hm1. apply Z.ltb_lt in Hlt.
      destruct (getitem metadata idx) as [c|] eqn:Hget.
      * assert (Hin : ~ idx < - Z.of_nat (List.length metadata)).
        { intro Hlow.
          assert (getitem metadata idx = None)
            by (apply getitem_none; left; exact Hlow).
          congruence. }
        split; [|split].
        -- rewrite Exists_cons, <- IHnone.
           destruct (faiss_hits metadata rest); cbn.
           ++ split; [discriminate|]. intros [[_ H]|H]; [lia|discriminate].
           ++ split; auto.
        -- intros hits Hhits.
           destruct (faiss_hits metadata rest) as [tail|]; [|discriminate].
           injection Hhits as <-.
           destruct (IHsome tail eq_refl) as [Hlen Hall].
           split; [cbn [List.length]; lia|].
           constructor; [|exact Hall].
           exists c. split; [exact (getitem_in _ _ _ Hget)|reflexivity].
        -- intro Hall. inversion Hall as [|? ? Hidx Hrest]; subst.
           rewrite (IHpos Hrest). cbn [flat_map option_map].
           assert (Hpos : 0 <= idx) by lia.
           rewrite getitem_position in Hget by exact Hpos.
           replace (idx <? 0) with false by (symmetry; apply Z.ltb_ge; lia).
           rewrite Hget. reflexivity.
      * apply getitem_none in Hget. split; [|split].
        -- split; [|reflexivity]. intros _. apply Exists_cons_hd.
           split; [exact Hm1|lia].
        -- discriminate.
        -- intro Hall. inversion Hall; subst. lia.
    + assert (Hskip : idx = -1 \/ Z.of_nat (List.length metadata) <= idx).
      { apply andb_false_iff in Hguard. destruct Hguard as [H|H].
        - left. apply negb_false_iff, Z.eqb_eq in H. exact H.
        - right. apply Z.ltb_ge in H. exact H. }
      split; [|split].
      * rewrite Exists_cons, <- IHnone. split; [auto|].
        intros [[Hne Hlow]|H]; [lia|exact H].
      * intros hits Hhits. destruct (IHsome hits Hhits) as [Hlen Hall].
        split; [cbn [List.length]; lia|exact Hall].
      * intro Hall. inversion Hall as [|? ? Hidx Hrest]; subst.
        rewrite (IHpos Hrest). cbn [flat_map].
        destruct (idx <? 0) eqn:Hneg; [reflexivity|].
        apply Z.ltb_ge in Hneg.
        replace (nth_error metadata (Z.to_nat idx)) with (@None Chunk);
          [reflexivity|].
        symmetry. apply nth_error_None. lia.
Qed.

End Hydration.

Section DegradedSearch.
Import PyStr PyDict Embeddings Retrieval.
Variables vec whoosh : Type.
Variable metadata : list Chunk.
Variable whoosh_index : option whoosh.
Variable normalize_L2 : vec -> vec.
Variable faiss_search : list (Z * vec) -> vec -> nat -> list Z.
Variable whoosh_search :
  whoosh -> string -> nat -> outcome (list (string * string)).

Local Abbreviation search encode rows :=
  (hybrid_search vec whoosh (Some encode) (Some rows) metadata whoosh_index
                 normalize_L2 faiss_search whoosh_search).

Lemma in_firstn {A : Type} (n : nat) (l : list A) (x : A) :
  In x (firstn n l) -> In x l.
Proof.
  intro H. rewrite <- (firstn_skipn n l). apply in_or_app. left. exact H.
Qed.

Lemma faiss_hits_tagged (I : list Z) :
  forall hits,
    faiss_hits metadata I = Some hits ->
    Forall (fun h => source_type h = Some "vector") hits.
Proof.
  induction I as [|idx rest IH]; intros hits Hhits.
  - injection Hhits as <-. constructor.
  - rewrite faiss_hits_step in Hhits.
    destruct (negb (idx =? -1) && (idx <? Z.of_nat (List.length metadata)));
      [|exact (IH hits Hhits)].
    destruct (getitem metadata idx) as [c|]; [|discriminate].
    destruct (faiss_hits metadata rest) as [tail|]; [|discriminate].
    injection Hhits as <-. constructor; [reflexivity|exact (IH tail eq_refl)].
Qed.

Lemma fill_ins_from (faiss_hits : list Hit) :
  forall seen h, In h (fill_ins seen faiss_hits) -> In h faiss_hits.
Proof.
  induction faiss_hits as [|hit rest IH]; intros seen h Hin; [exact Hin|].
  cbn [fill_ins] in Hin.
  destruct (existsb (fun k => String.eqb k (h_text hit)) seen).
  - right. exact (IH _ _ Hin).
  - destruct Hin as [<-|Hin]; [left; reflexivity|right; exact (IH _ _ Hin)].
Qed.

(** X16.  A keyword search that is not available does not fail the
    search.  With the model and the vector index loaded, when there is no
    Whoosh index or the Whoosh query raises, [hybrid_search] returns the
    first [top_k] semantic hits of distinct text, in the order of the
    neighbours, all tagged ["vector"]. *)
Theorem keyword_failure_leaves_semantic_results :
  forall (encode : string -> vec) (rows : list (Z * vec))
         (query : string) (top_k : nat) (hits : list Hit),
    (whoosh_index = None \/
     exists ix, whoosh_index = Some ix /\
                whoosh_search ix query (top_k * 2) = Raised) ->
    faiss_hits metadata
               (faiss_search rows (normalize_L2 (encode query))
                             (Nat.min top_k (List.length rows)))
    = Some hits ->
    let result := firstn top_k (fill_ins [] hits) in
    search encode rows query top_k = Returned result /\
    Forall (fun h => source_type h = Some "vector") result.
Proof.
  intros encode rows query top_k hits Hdown Hhits result.
  assert (Hkw : keyword_path whoosh whoosh_index whoosh_search query top_k = []).
  { unfold keyword_path. destruct Hdown as [->|(ix & -> & ->)]; reflexivity. }
  split.
  - unfold hybrid_search. rewrite Hhits, Hkw.
    unfold fuse, combine_results. rewrite vector_loop_values. reflexivity.
  - apply Forall_forall. intros h Hh. unfold result in Hh.
    apply in_firstn in Hh. apply fill_ins_from in Hh.
    exact (proj1 (Forall_forall _ _) (faiss_hits_tagged _ _ Hhits) h Hh).
Qed.

(** X17.  Keyword hits crowd the semantic hits out.  When the Whoosh
    query returns at least [top_k] distinct texts, a search that returns
    has exactly [top_k] results, all tagged ["keyword"]: no semantic hit
    gets into the result, whatever the vector index found. *)
Theorem keyword_hits_crowd_out_semantic_hits :
  forall (encode : string -> vec) (rows : list (Z * vec))
         (query : string) (top_k : nat) (ix : whoosh)
         (results : list (string * string)) (texts : list string)
         (result : list Hit),
    whoosh_index = Some ix ->
    whoosh_search ix query (top_k * 2) = Returned results ->
    NoDup texts -> incl texts (map snd results) ->
    (top_k <= List.length texts)%nat ->
    search encode rows query top_k = Returned result ->
    List.length result = top_k /\
    Forall (fun h => source_type h = Some "keyword") result.
Proof.
  intros encode rows query top_k ix results texts result
         Hix Hfound Hnd Hincl Hmany Hsearch.
  unfold hybrid_search in Hsearch.
  destruct (faiss_hits metadata _) as [hits|]; [|discriminate].
  injection Hsearch as <-.
  assert (Hkw : keyword_path whoosh whoosh_index whoosh_search query top_k
                = map keyword_hit results).
  { unfold keyword_path. rewrite Hix, Hfound. reflexivity. }
  rewrite Hkw. unfold fuse, combine_results. rewrite vector_loop_values.
  set (kw := keyword_results (map keyword_hit results)).
  assert (Hlen : (top_k <= List.length (values kw))%nat).
  { unfold values. rewrite length_map.
    replace (List.length kw) with (List.length (keys kw))
      by (unfold keys; apply length_map).
    apply (Nat.le_trans _ _ _ Hmany). apply NoDup_incl_length; [exact Hnd|].
    intros t Ht. apply keyword_results_keys. rewrite map_map. cbn [h_text keyword_hit].
    exact (Hincl t Ht). }
  rewrite firstn_app.
  replace (top_k - List.length (values kw))%nat with 0%nat by lia.
  rewrite firstn_O, app_nil_r. split.
  - rewrite length_firstn. lia.
  - apply Forall_forall. intros h Hh. apply in_firstn in Hh.
    unfold values in Hh. apply in_map_iff in Hh.
    destruct Hh as (kv & <- & Hkv).
    pose proof (proj1 (Forall_forall _ _)
                  (keyword_results_from (map keyword_hit results)) kv Hkv)
      as Hfrom.
    apply in_map_iff in Hfrom. destruct Hfrom as (doc & <- & _). reflexivity.
Qed.

End DegradedSearch.

Section SearchInstance.
Import PyStr PyDict Embeddings Retrieval Fixtures.

Lemma hydration_raises_only_below_range_witness :
  let metadata := meta_file (build empty_state [rec_a; rec_b]) in
  option_map (map h_id) (faiss_hits metadata [1; -1; 5]) = Some ["b"] /\
  faiss_hits metadata [-3] = None.
Proof.
  intro metadata. split.
  - destruct (hydration_raises_only_below_range metadata [1; -1; 5])
      as (_ & _ & Hpos).
    rewrite Hpos; [reflexivity|]. repeat constructor; lia.
  - apply (proj1 (hydration_raises_only_below_range metadata [-3])).
    apply Exists_cons_hd. split; [lia|vm_compute; reflexivity].
Defined.

Lemma keyword_failure_leaves_semantic_results_witness :
  let metadata := meta_file (build empty_state [rec_a; rec_b]) in
  exists result,
    hybrid_search string unit (Some text_vec) (Some [(1, "x"); (2, "y")])
                  metadata (Some tt) (fun v => v) (fun _ _ _ => [1; 0; 1])
                  (fun _ _ _ => Raised) "rash" 5
    = Returned result /\
    map h_id result = ["b"; "a"] /\
    Forall (fun h => source_type h = Some "vector") result.
Proof.
  intro metadata.
  destruct (keyword_failure_leaves_semantic_results
              string unit metadata (Some tt) (fun v => v)
              (fun _ _ _ => [1; 0; 1]) (fun _ _ _ => Raised)
              text_vec [(1, "x"); (2, "y")] "rash" 5%nat
              (map vector_hit (rev metadata ++ skipn 1 metadata)))
    as [Hsearch Htags].
  - right. exists tt. split; reflexivity.
  - reflexivity.
  - eexists. split; [exact Hsearch|]. split; [reflexivity|exact Htags].
Defined.

Lemma keyword_hits_crowd_out_semantic_hits_witness :
  let metadata := meta_file (build empty_state [rec_a; rec_b]) in
  exists result,
    hybrid_search string unit (Some text_vec) (Some [(1, "x"); (2, "y")])
                  metadata (Some tt) (fun v => v) (fun _ _ _ => [0; 1])
                  (fun _ _ _ => Returned [("k1", "p"); ("k2", "q"); ("k3", "p")])
                  "rash" 2
    = Returned result /\
    List.length result = 2%nat /\
    Forall (fun h => source_type h = Some "keyword") result.
Proof.
  intro metadata. eexists. split; [reflexivity|].
  apply (keyword_hits_crowd_out_semantic_hits
           string unit metadata (Some tt) (fun v => v)
           (fun _ _ _ => [0; 1])
           (fun _ _ _ => Returned [("k1", "p"); ("k2", "q"); ("k3", "p")])
           text_vec [(1, "x"); (2, "y")] "rash" 2%nat tt
           [("k1", "p"); ("k2", "q"); ("k3", "p")] ["p"; "q"]).
  - reflexivity.
  - reflexivity.
  - repeat constructor; cbn; intuition discriminate.
  - intros t [<-|[<-|[]]]; cbn; auto.
  - cbn. lia.
  - reflexivity.
Defined.

End SearchInstance.

Section SessionHistory.
Import PyStr PyDict Embeddings Retrieval QueryEngine Derived.

Lemma tl_skipn {A : Type} (n : nat) :
  forall l : list A, tl (skipn n l) = skipn (S n) l.
Proof.
  induction n as [|n IH]; intros [|x l]; try reflexivity.
  exact (IH l).
Qed.

(** One more turn behind the last fifteen, with the oldest dropped when
    that makes sixteen. *)
Lemma last_n_snoc (turns : list Turn) (t : Turn) :
  (let h' := last_n 15 turns ++ [t] in
   if (15 <? List.length h')%nat then tl h' else h')
  = last_n 15 (turns ++ [t]).
Proof.
  cbv zeta. unfold last_n. rewrite !length_app, length_skipn.
  cbn [List.length].
  destruct (Nat.le_gt_cases 15 (List.length turns)) as [Hfull|Hshort].
  - replace (15 <? List.length turns - (List.length turns - 15) + 1)%nat
      with true by (symmetry; apply Nat.ltb_lt; lia).
    rewrite skipn_app.
    replace (List.length turns + 1 - 15 - List.length turns)%nat
      with 0%nat by lia.
    replace (List.length turns + 1 - 15)%nat
      with (S (List.length turns - 15)) by lia.
    rewrite <- tl_skipn. cbn [skipn].
    destruct (skipn (List.length turns - 15) turns) as [|x rest] eqn:E;
      [|reflexivity].
    assert (List.length (skipn (List.length turns - 15) turns) = 0%nat)
      by (rewrite E; reflexivity).
    rewrite length_skipn in H. lia.
  - replace (15 <? List.length turns - (List.length turns - 15) + 1)%nat
      with false by (symmetry; apply Nat.ltb_ge; lia).
    replace (List.length turns - 15)%nat with 0%nat by lia.
    replace (List.length turns + 1 - 15)%nat with 0%nat by lia.
    reflexivity.
Qed.

Lemma history_step (store : HistoryStore) (s role content sid : string) :
  history_of (add_to_history store s role content) sid
  = if String.eqb s sid
    then (let h' := history_of store s ++ [(role, content)] in
          if (15 <? List.length h')%nat then tl h' else h')
    else history_of store sid.
Proof.
  unfold history_of, add_to_history.
  destruct (String.eqb s sid) eqn:E.
  - apply String.eqb_eq in E. subst sid.
    rewrite get_set_same by exact String.eqb_eq. reflexivity.
  - apply String.eqb_neq in E.
    rewrite get_set_other by (exact String.eqb_eq || exact E). reflexivity.
Qed.

Lemma replay_snoc (calls : list Call) (c : Call) :
  replay (calls ++ [c])
  = add_to_history (replay calls) (fst c) (fst (snd c)) (snd (snd c)).
Proof. unfold replay. rewrite fold_left_app. reflexivity. Qed.

Lemma turns_for_snoc (sid : string) (calls : list Call) (c : Call) :
  turns_for sid (calls ++ [c])
  = turns_for sid calls ++ (if String.eqb (fst c) sid then [snd c] else []).
Proof.
  unfold turns_for. rewrite filter_app, map_app. cbn [filter].
  destruct (String.eqb (fst c) sid); reflexivity.
Qed.

Lemma replay_history (calls : list Call) (sid : string) :
  history_of (replay calls) sid = last_n 15 (turns_for sid calls).
Proof.
  induction calls as [|c calls IH] using rev_ind; [reflexivity|].
  rewrite replay_snoc, turns_for_snoc, history_step.
  destruct (String.eqb (fst c) sid) eqn:E.
  - apply String.eqb_eq in E. rewrite E, IH.
    destruct c as [s [role content]]. cbn [fst snd]. apply last_n_snoc.
  - rewrite app_nil_r. exact IH.
Qed.

Lemma replay_known (calls : list Call) (sid : string) :
  get String.eqb (replay calls) sid = None <-> turns_for sid calls = [].
Proof.
  induction calls as [|c calls IH] using rev_ind; [cbn; tauto|].
  rewrite replay_snoc, turns_for_snoc. unfold add_to_history.
  destruct (String.eqb (fst c) sid) eqn:E.
  - apply String.eqb_eq in E. rewrite E.
    rewrite get_set_same by exact String.eqb_eq.
    split; [discriminate|]. intro H. apply app_eq_nil in H.
    destruct H as [_ H]. discriminate.
  - apply String.eqb_neq in E.
    rewrite get_set_other by (exact String.eqb_eq || exact E).
    rewrite app_nil_r. exact IH.
Qed.

Lemma last_n_last_n {A : Type} (l : list A) :
  last_n 6 (last_n 15 l) = last_n 6 l.
Proof.
  unfold last_n. rewrite skipn_skipn, length_skipn. f_equal. lia.
Qed.

(** X18.  What the session store holds.  After any sequence of
    [add_to_history] calls on a fresh store, the history of a session is
    the last fifteen turns addressed to it, oldest first, whatever was
    addressed to other sessions in between; it is never longer than
    fifteen, and a session is unknown to the store exactly when no turn was
    addressed to it. *)
Theorem history_is_last_fifteen_turns :
  forall (calls : list Call) (session_id : string),
    history_of (replay calls) session_id
    = last_n 15 (turns_for session_id calls) /\
    (List.length (history_of (replay calls) session_id) <= 15)%nat /\
    (get String.eqb (replay calls) session_id = None
     <-> turns_for session_id calls = []).
Proof.
  intros calls sid. split; [apply replay_history|]. split.
  - rewrite replay_history. unfold last_n. rewrite length_skipn. lia.
  - apply replay_known.
Qed.

(** X19.  The history put into a prompt: [get_session_history] with its
    limit of six renders the last six turns addressed to the session, one
    line per turn with the role in upper case, and the empty text for a
    session without turns. *)
Theorem prompt_history_is_last_six_turns :
  forall (upper : string -> string) (calls : list Call)
         (session_id : string),
    get_session_history upper (replay calls) session_id 6
    = join (String (ascii_of_nat 10) "")
           (map (fun m => (upper (fst m) ++ ": " ++ snd m)%string)
                (last_n 6 (turns_for session_id calls))).
Proof.
  intros upper calls sid. unfold get_session_history.
  pose proof (replay_history calls sid) as Hh. unfold history_of in Hh.
  destruct (get String.eqb (replay calls) sid) as [h|] eqn:Hget.
  - rewrite Hh, last_n_last_n. reflexivity.
  - apply replay_known in Hget. rewrite Hget. reflexivity.
Qed.

Section Answers.
Variable GROQ_API_KEY : option string.
Variable groq_post : string -> outcome string.
Variable ollama_run : string -> outcome string.
Variable retrieve_fn : string -> nat -> list Hit.
Variable score : string -> string -> Q.
Variables lower upper : string -> string.
Variable fuzzy_greeting : string -> bool.
Variable augment : string -> string -> string.
Variable build_prompt : string -> option string -> string -> string -> string.

Local Abbreviation answer_to :=
  (generate_answer GROQ_API_KEY groq_post ollama_run retrieve_fn score
                   lower upper fuzzy_greeting augment build_prompt).

Lemma generate_answer_store (store : HistoryStore)
    (query session_id : string) (vision_analysis : option string) :
  snd (answer_to store query session_id vision_analysis)
  = add_to_history (add_to_history store session_id "user" query)
                   session_id "assistant"
                   (fst (answer_to store query session_id vision_analysis)).
Proof.
  unfold generate_answer.
  destruct (is_greeting fuzzy_greeting (lower query)); reflexivity.
Qed.

(** X20.  Every exchange is recorded, question first.  Whatever branch
    [generate_answer] takes (greeting, answer of a provider, empty answer),
    it leaves the store as two more [add_to_history] calls do: afterwards
    the history of the session is the last fifteen of its earlier turns
    followed by the user's query and the returned text, and the history
    of every other session is as before. *)
Theorem exchange_is_recorded_in_order :
  forall (calls : list Call) (query session_id other : string)
         (vision_analysis : option string),
    let '(answer, store') :=
      answer_to (replay calls) query session_id vision_analysis in
    store' = replay (calls ++ [(session_id, ("user", query));
                               (session_id, ("assistant", answer))]) /\
    history_of store' session_id
    = last_n 15 (turns_for session_id calls
                 ++ [("user", query); ("assistant", answer)]) /\
    (other <> session_id ->
     history_of store' other = history_of (replay calls) other).
Proof.
  intros calls query sid other vision.
  pose proof (generate_answer_store (replay calls) query sid vision) as Hstore.
  destruct (answer_to (replay calls) query sid vision) as [answer store'].
  cbn [fst snd] in Hstore.
  assert (Hreplay : store'
                    = replay (calls ++ [(sid, ("user", query));
                                        (sid, ("assistant", answer))])).
  { rewrite Hstore. unfold replay. rewrite fold_left_app. reflexivity. }
  split; [exact Hreplay|]. split.
  - rewrite Hreplay, replay_history. unfold turns_for.
    rewrite filter_app, map_app. cbn [filter fst].
    rewrite String.eqb_refl. reflexivity.
  - intro Hother. rewrite Hstore, !history_step.
    replace (String.eqb sid other) with false
      by (symmetry; apply String.eqb_neq; congruence).
    reflexivity.
Qed.

End Answers.

Lemma rstrip_idem (s : string) : rstrip (rstrip s) = rstrip s.
Proof.
  induction s as [|c s IH]; [reflexivity|]. cbn [rstrip].
  destruct (is_empty (rstrip s) && is_space c) eqn:E; [reflexivity|].
  cbn [rstrip]. rewrite IH, E. reflexivity.
Qed.

Lemma lstrip_head (s : string) :
  lstrip s = "" \/
  exists c s', lstrip s = String c s' /\ is_space c = false.
Proof.
  induction s as [|c s IH]; [left; reflexivity|]. cbn [lstrip].
  destruct (is_space c) eqn:E; [exact IH|]. right. exists c, s. auto.
Qed.

Lemma strip_idem (s : string) : strip (strip s) = strip s.
Proof.
  unfold strip. destruct (lstrip_head s) as [->|(c & s' & -> & Hc)];
    [reflexivity|].
  assert (Hr : rstrip (String c s') = String c (rstrip s'))
    by (cbn [rstrip]; rewrite Hc, andb_false_r; reflexivity).
  rewrite Hr. cbn [lstrip]. rewrite Hc, <- Hr. apply rstrip_idem.
Qed.

Lemma provider_text_stripped (o : outcome string) :
  strip (provider_text o) = provider_text o.
Proof. destruct o as [|s]; [reflexivity|apply strip_idem]. Qed.

(** X21.  What [call_llm] answers.  Without an API key it is the
    missing-key message and Ollama is not consulted; with a key it is the
    text of Groq when that is not empty and the text of Ollama otherwise,
    a provider that raises counting as the empty text.  So the answer is
    empty exactly when a key is configured and neither provider yields
    text, and it never carries white space at its ends. *)
Theorem call_llm_answer :
  forall (GROQ_API_KEY : option string)
         (groq_post ollama_run : string -> outcome string) (prompt : string),
    let groq := provider_text (groq_post prompt) in
    let ollama := provider_text (ollama_run prompt) in
    let answer := call_llm GROQ_API_KEY groq_post ollama_run prompt in
    answer = match truthy GROQ_API_KEY with
             | None => MISSING_KEY_ERROR
             | Some _ => if is_empty groq then ollama else groq
             end /\
    (answer = "" <-> truthy GROQ_API_KEY <> None /\ groq = "" /\ ollama = "") /\
    strip answer = answer.
Proof.
  intros key post run prompt groq ollama answer.
  assert (Hanswer : answer = match truthy key with
                             | None => MISSING_KEY_ERROR
                             | Some _ => if is_empty groq then ollama else groq
                             end).
  { unfold answer, call_llm, query_groq, query_ollama, groq, ollama,
      provider_text.
    cbn [String.eqb PROVIDER Ascii.eqb Bool.eqb andb].
    destruct (truthy key); [|reflexivity].
    destruct (post prompt); destruct (run prompt); reflexivity. }
  split; [exact Hanswer|]. rewrite Hanswer. clear Hanswer answer.
  destruct (truthy key) as [k|].
  - split.
    + destruct groq as [|c g] eqn:Hg; cbn [is_empty].
      * split; [intro H; repeat split; [discriminate|exact H]|].
        intros (_ & _ & H). exact H.
      * split; [discriminate|]. intros (_ & H & _). discriminate.
    + destruct (is_empty groq); apply provider_text_stripped.
  - split; [|vm_compute; reflexivity].
    split; [discriminate|]. intros (H & _). congruence.
Qed.

End SessionHistory.

Section SessionInstance.
Import PyStr PyDict Embeddings Retrieval QueryEngine Derived Fixtures.

Lemma exchange_is_recorded_in_order_witness :
  let calls := [("s1", ("user", "hello")); ("s2", ("user", "itchy rash"))] in
  let result :=
    generate_answer (Some "key") provider_down provider_down
      (fun _ _ => []) table_score (fun q => q) (fun r => r)
      (fun _ => false) (fun v q => q) (fun h v c q => q)
      (replay calls) "what is eczema" "s1" None in
  history_of (snd result) "s1"
  = [("user", "hello"); ("user", "what is eczema"); ("assistant", "")] /\
  history_of (snd result) "s2" = [("user", "itchy rash")].
Proof.
  intros calls result.
  pose proof (exchange_is_recorded_in_order
                (Some "key") provider_down provider_down
                (fun _ _ => []) table_score (fun q => q) (fun r => r)
                (fun _ => false) (fun v q => q) (fun h v c q => q)
                calls "what is eczema" "s1" "s2" None) as H.
  fold result in H. destruct result as [answer store'] eqn:E.
  destruct H as (_ & Hown & Hother). cbn [snd]. split.
  - rewrite Hown. injection E as <- _. reflexivity.
  - rewrite Hother by discriminate. reflexivity.
Defined.

End SessionInstance.
